(** * squashdelta: the block collector, the cross-image deduplicator and the
    expander of [squashdelta.cxx], as a shallow embedding.

    The embedding follows [squashdelta.cxx] function by function.  The
    headers it includes ([util.hxx], [squashfs.hxx], [compressor.hxx],
    [hash.hxx]) are not part of the verified source; what the program needs
    from them is either modelled from the specification (and then says so)
    or gathered in the class [Externals], over which every result is
    generic.

    [get_blocks] reads through the past-the-end iterator of its list of
    data blocks.  In the functions as embedded first that read is undefined
    behaviour and ends the computation; the module [built] embeds
    [get_blocks] and [main] as the program is built, where the read yields
    an unspecified value and the run goes on, and where the child of [main]
    is a [fork()] that can fail and a wait status. *)

From Stdlib Require Import ZArith List String Bool Lia Sorted.
From Stdlib Require Import Strings.Byte.
From Equations Require Import Equations.
Import ListNotations.
Local Open Scope string_scope.
Local Open Scope list_scope.
Local Open Scope Z_scope.

(** ** Ways a C++ computation ends *)

(** [std::runtime_error] and the [IOError] of [util.hxx]. *)
Inductive exn : Type :=
| runtime_error (what : string)
| IOError (what : string) (errno_val : Z).

(** A call returns a value, throws, dies on a failed [assert] (assertions
    are compiled in), or has undefined behaviour. *)
Inductive outcome (A : Type) : Type :=
| Ret (a : A)
| Throw (e : exn)
| Abort
| Undefined.

Arguments Ret {A} a.
Arguments Throw {A} e.
Arguments Abort {A}.
Arguments Undefined {A}.

Definition bind {A B : Type} (m : outcome A) (k : A -> outcome B) : outcome B :=
  match m with
  | Ret a => k a
  | Throw e => Throw e
  | Abort => Abort
  | Undefined => Undefined
  end.

Notation "x <- m ;; k" := (bind m (fun x => k))
  (at level 61, m at next level, right associativity).
Notation "' p <- m ;; k" := (bind m (fun x => match x with p => k end))
  (at level 61, p pattern, m at next level, right associativity).

(** [assert(b)]. *)
Definition assert (b : bool) : outcome unit :=
  if b then Ret tt else Abort.

(** ** Machine integers and their bytes *)

Definition wrap32 (z : Z) : Z := z mod 2 ^ 32.
Definition wrap64 (z : Z) : Z := z mod 2 ^ 64.

Definition byte_of_Z (z : Z) : byte :=
  match Byte.of_N (Z.to_N (z mod 256)) with
  | Some b => b
  | None => x00
  end.

Definition Z_of_byte (b : byte) : Z := Z.of_N (Byte.to_N b).

(** The [n] low bytes of [z], least significant first. *)
Fixpoint le_bytes (n : nat) (z : Z) : list byte :=
  match n with
  | O => []
  | S n' => byte_of_Z z :: le_bytes n' (z / 256)
  end.

(** The same bytes, most significant first (network byte order). *)
Definition be_bytes (n : nat) (z : Z) : list byte := rev (le_bytes n z).

Fixpoint le_value (bs : list byte) : Z :=
  match bs with
  | [] => 0
  | b :: bs' => Z_of_byte b + 256 * le_value bs'
  end.

(** ** The structures of [squashdelta.cxx] *)

(** [struct compressed_block].  The four members are [size_t] and
    [uint32_t] values; a member the program has not assigned yet is
    indeterminate in C++ and is never read before it is assigned: it is 0
    here. *)
Record compressed_block : Type := mk_block {
  offset : Z;
  length : Z;
  uncompressed_length : Z;
  hash : Z
}.

Definition set_hash (b : compressed_block) (h : Z) : compressed_block :=
  mk_block (offset b) (length b) (uncompressed_length b) h.

Definition set_uncompressed_length (b : compressed_block) (n : Z)
  : compressed_block :=
  mk_block (offset b) (length b) n (hash b).

(** [struct serialized_compressed_block] (packed: 8 + 4 + 4 bytes). *)
Record serialized_compressed_block : Type := mk_serialized {
  s_offset : Z;
  s_length : Z;
  s_uncompressed_length : Z
}.

(** [struct sqdelta_header] (packed: four [uint32_t]). *)
Record sqdelta_header : Type := mk_header {
  magic : Z;
  flags : Z;
  compression : Z;
  block_count : Z
}.

Definition sqdelta_magic : Z := 0x5371ceb4.

Definition sort_by_offset (lhs rhs : compressed_block) : bool :=
  offset lhs <? offset rhs.

Definition sort_by_len_hash (lhs rhs : compressed_block) : bool :=
  if length lhs =? length rhs then hash lhs <? hash rhs
  else length lhs <? length rhs.

(** [std::list::sort(comp)]: a stable sort; the result is the one stable
    arrangement in which no element is [comp]-smaller than an earlier one. *)
Fixpoint sort_insert {A : Type} (comp : A -> A -> bool) (x : A) (l : list A)
  : list A :=
  match l with
  | [] => [x]
  | y :: l' => if comp y x then y :: sort_insert comp x l' else x :: l
  end.

Definition list_sort {A : Type} (comp : A -> A -> bool) (l : list A) : list A :=
  fold_right (sort_insert comp) [] l.

(** ** [util.hxx]: the byte source and the sparse writer *)

(** Modelled from the spec: [MMAPFile] of [util.hxx], which is not part of
    the verified source.  A read cursor over the immutable bytes of a whole
    file; a read whose span leaves the file fails. *)
Record MMAPFile : Type := mk_file {
  data : list byte;
  pos : Z
}.

Definition getlen (f : MMAPFile) : Z := Z.of_nat (List.length (data f)).

(** [f.seek(off, std::ios::beg)] and [f.seek(off)] (from the cursor). *)
Definition seek_beg (f : MMAPFile) (off : Z) : MMAPFile := mk_file (data f) off.
Definition seek_cur (f : MMAPFile) (off : Z) : MMAPFile :=
  mk_file (data f) (wrap64 (pos f + off)).

Definition end_of_file : exn := runtime_error "EOF while reading file".

(** [f.read_array<T>(n)] for a one-byte [T]: the [n] bytes under the cursor,
    which moves past them. *)
Definition read_array (f : MMAPFile) (n : Z) : outcome (list byte * MMAPFile) :=
  if (0 <=? pos f) && (0 <=? n) && (pos f + n <=? getlen f)
  then Ret (firstn (Z.to_nat n) (skipn (Z.to_nat (pos f)) (data f)),
            mk_file (data f) (pos f + n))
  else Throw end_of_file.

(** Modelled from the spec: [SparseFileWriter] of [util.hxx].  The file is
    the sequence of its writes: bytes, or a hole of a given size that takes
    no storage and reads back as zeros.  Writes are taken to succeed. *)
Inductive chunk : Type :=
| written (bytes : list byte)
| sparse (n : Z).

Definition SparseFileWriter : Type := list chunk.

Definition write (outf : SparseFileWriter) (bytes : list byte)
  : SparseFileWriter := outf ++ [written bytes].

Definition write_sparse (outf : SparseFileWriter) (n : Z)
  : SparseFileWriter := outf ++ [sparse n].

Definition chunk_bytes (c : chunk) : list byte :=
  match c with
  | written bytes => bytes
  | sparse n => repeat x00 (Z.to_nat n)
  end.

(** What a reader of the file sees. *)
Definition read_back (outf : SparseFileWriter) : list byte :=
  flat_map chunk_bytes outf.

(** The size [stat] reports. *)
Definition apparent_size (outf : SparseFileWriter) : Z :=
  Z.of_nat (List.length (read_back outf)).

(** ** [compressor.hxx] and [squashfs.hxx] *)

(** The dynamic type of the [Compressor] object ([typeid( *c)]). *)
Inductive Compressor : Type :=
| LZOCompressor
| LZ4Compressor.

Definition same_typeid (c1 c2 : Compressor) : bool :=
  match c1, c2 with
  | LZOCompressor, LZOCompressor => true
  | LZ4Compressor, LZ4Compressor => true
  | _, _ => false
  end.

Module squashfs.

(** Modelled from the spec: the constants of [squashfs.hxx], which is not
    part of the verified source, with the values of the SquashFS 4.0
    on-disk format the specification names. *)
Definition magic : Z := 0x73717368.
Definition compression_lzo : Z := 3.
Definition compression_lz4 : Z := 5.
Definition flags_compression_options : Z := 0x400.
Definition inode_type_reg : Z := 2.
Definition inode_type_lreg : Z := 9.
Definition sizeof_super_block : Z := 96.

(** Modelled from the spec: [squashfs::block_size::uncompressed], the top
    bit of a 32-bit block size. *)
Definition block_size_uncompressed : Z := 0x80000000.

(** The members of [squashfs::super_block] that [get_blocks] reads. *)
Record super_block : Type := mk_super_block {
  s_magic : Z;
  inodes : Z;
  block_size : Z;
  fragments : Z;
  compression : Z;
  block_log : Z;
  flags : Z;
  s_major : Z;
  s_minor : Z;
  inode_table_start : Z;
  fragment_table_start : Z
}.

(** The regular-file views [as_reg] and [as_lreg] of the inode union:
    [start_block], the method [block_count(block_size, block_log)] and the
    array [block_list()] points to. *)
Record reg_inode : Type := mk_reg_inode {
  start_block : Z;
  block_count : Z -> Z -> Z;
  block_list : nat -> Z
}.

(** [union squashfs::inode::inode], discriminated by
    [as_base.inode_type]. *)
Inductive inode : Type :=
| as_reg (r : reg_inode)
| as_lreg (r : reg_inode)
| as_base (inode_type : Z).

Definition inode_type (i : inode) : Z :=
  match i with
  | as_reg _ => inode_type_reg
  | as_lreg _ => inode_type_lreg
  | as_base t => t
  end.

Record fragment_entry : Type := mk_fragment_entry {
  fe_start_block : Z;
  size : Z
}.

End squashfs.

(** [Compressor::get_compression_value()]: the identifier of the codec. *)
Definition get_compression_value (c : Compressor) : Z :=
  match c with
  | LZOCompressor => squashfs.compression_lzo
  | LZ4Compressor => squashfs.compression_lz4
  end.

(** [MetadataReader coptsr(f, sizeof(sb), *c)]: only handed to
    [Compressor::setup]. *)
Record MetadataReader : Type := mk_metadata_reader {
  mr_file : MMAPFile;
  mr_offset : Z;
  mr_compressor : Compressor
}.

(** Modelled from the spec: [MetadataBlockReader] of [squashfs.hxx], the raw
    block iterator.  It owns a cursor; each block is a 16-bit little-endian
    header (top bit set: stored uncompressed; low 15 bits: on-disk length of
    the payload) followed by the payload.  [read_input_block] yields the
    payload, its file offset, its length and whether it is compressed, and
    leaves the cursor behind the payload; a zero-length block is fatal. *)
Definition MetadataBlockReader : Type := MMAPFile.

Definition MetadataBlockReader_new (f : MMAPFile) (off : Z) (c : Compressor)
  : MetadataBlockReader := seek_beg f off.

Record input_block : Type := mk_input_block {
  ib_data : list byte;
  ib_pos : Z;
  ib_length : Z;
  ib_compressed : bool
}.

Definition empty_metadata_block : exn :=
  runtime_error "Empty metadata block found".

Definition read_input_block (r : MetadataBlockReader)
  : outcome (input_block * MetadataBlockReader) :=
  '(hdr, r1) <- read_array r 2 ;;
  let header := le_value hdr in
  let len := Z.land header 0x7fff in
  if len =? 0 then Throw empty_metadata_block
  else
    '(payload, r2) <- read_array r1 len ;;
    Ret (mk_input_block payload (pos r1) len (Z.land header 0x8000 =? 0), r2).

(** ** What the program takes from outside [squashdelta.cxx] *)

Class Externals : Type := {
  (** the build: [ENABLE_LZO], [ENABLE_LZ4]; the host:
      [*(const char * )&one == 1] *)
  ENABLE_LZO : bool;
  ENABLE_LZ4 : bool;
  little_endian : bool;
  (** [hash.hxx]: [murmurhash3(data, length, seed)] *)
  murmurhash3 : list byte -> Z -> Z -> Z;
  (** [compressor.hxx]: [c->setup(reader)] and
      [c.decompress(buf, src, length, out_size)], which yields what it put
      into [buf] *)
  Compressor_setup : Compressor -> option MetadataReader -> outcome unit;
  Compressor_decompress : Compressor -> list byte -> Z -> Z -> outcome (list byte);
  (** [squashfs.hxx]: [f.read<squashfs::super_block>()], [InodeReader] and
      [FragmentTableReader] *)
  read_super_block : MMAPFile -> outcome squashfs.super_block;
  InodeReader : Type;
  InodeReader_new : MMAPFile -> squashfs.super_block -> Compressor
                    -> outcome InodeReader;
  InodeReader_read : InodeReader -> outcome (squashfs.inode * InodeReader);
  InodeReader_block_num : InodeReader -> Z;
  FragmentTableReader : Type;
  FragmentTableReader_new : MMAPFile -> squashfs.super_block -> Compressor
                            -> outcome FragmentTableReader;
  FragmentTableReader_read : FragmentTableReader
                             -> outcome (squashfs.fragment_entry * FragmentTableReader);
  FragmentTableReader_block_num : FragmentTableReader -> Z;
  start_offset : FragmentTableReader -> Z;
  (** the system: [MMAPFile::open], the two kinds of output file, [chdir]
      into the temporary directory, and the [xdelta3] child, which reads the
      two expanded files and ends with an exit status and its standard
      output *)
  MMAPFile_open : string -> outcome (list byte);
  SparseFileWriter_open : string -> outcome unit;
  TemporarySparseFileWriter_open : Z -> outcome unit;
  chdir_tmpdir : bool;
  xdelta3 : list byte -> list byte -> Z * list byte
}.

(** ** The cross-image deduplication loop of [main] *)

Definition same_len_hash (a b : compressed_block) : bool :=
  (length a =? length b) && (hash a =? hash b).

(** [while (i != end && ( *i).length == ( *i_st).length
            && ( *i).hash == ( *i_st).hash) ++i;]
    on the part of the list that starts at [i]. *)
Fixpoint skip_run (i_st : compressed_block) (i : list compressed_block)
  : list compressed_block :=
  match i with
  | [] => []
  | b :: i' => if same_len_hash b i_st then skip_run i_st i' else i
  end.

Lemma skip_run_length (i_st : compressed_block) (i : list compressed_block) :
  (List.length (skip_run i_st i) <= List.length i)%nat.
Proof.
  induction i as [|b i' IH]; simpl; [lia|].
  destruct (same_len_hash b i_st); simpl; lia.
Qed.

Lemma same_len_hash_refl (b : compressed_block) : same_len_hash b b = true.
Proof. unfold same_len_hash. now rewrite !Z.eqb_refl. Qed.

(** The loop of [main] over the two lists.  An iterator is the part of its
    list from its position on ([[]] is [end()]); the result is what is left
    of each list from the iterators' positions on, [++i] keeping the element
    it passes and [erase] dropping the run. *)
Equations? remove_duplicates (i j : list compressed_block)
  : list compressed_block * list compressed_block
  by wf (List.length i + List.length j)%nat lt :=
  remove_duplicates [] j := ([], j);
  remove_duplicates (bi :: i') [] := (bi :: i', []);
  remove_duplicates (bi :: i') (bj :: j') :=
    if length bi <? length bj then
      let r := remove_duplicates i' (bj :: j') in (bi :: fst r, snd r)
    else if length bj <? length bi then
      let r := remove_duplicates (bi :: i') j' in (fst r, bj :: snd r)
    else if hash bi <? hash bj then
      let r := remove_duplicates i' (bj :: j') in (bi :: fst r, snd r)
    else if hash bj <? hash bi then
      let r := remove_duplicates (bi :: i') j' in (fst r, bj :: snd r)
    else
      remove_duplicates (skip_run bi (bi :: i')) (skip_run bj (bj :: j')).
Proof.
  all: simpl; try lia.
  rewrite !same_len_hash_refl.
  pose proof (skip_run_length bi i'). pose proof (skip_run_length bj j'). lia.
Qed.

(** ** The functions of [squashdelta.cxx] *)

Section Program.

Context `{Externals}.

(** *** Byte order *)

(** The bytes of an [n]-byte unsigned integer in the memory of the host. *)
Definition host_bytes (n : nat) (z : Z) : list byte :=
  if little_endian then le_bytes n z else be_bytes n z.

Definition bswap32 (x : Z) : Z :=
  Z.lor (Z.shiftl (Z.land x 0xff) 24)
    (Z.lor (Z.shiftl (Z.land x 0xff00) 8)
       (Z.lor (Z.land (Z.shiftr x 8) 0xff00)
          (Z.land (Z.shiftr x 24) 0xff))).

(** [htonl] of the C library, on a [uint32_t]. *)
Definition htonl (hostlong : Z) : Z :=
  if little_endian then bswap32 hostlong else hostlong.

Definition htonll (hostlonglong : Z) : Z :=
  if little_endian then
    Z.lor (Z.shiftl (htonl (wrap32 (Z.land hostlonglong 0xFFFFFFFF))) 32)
          (htonl (wrap32 (Z.shiftr hostlonglong 32)))
  else hostlonglong.

(** [outf.write<struct sqdelta_header>(h)] and
    [outf.write<struct serialized_compressed_block>(b)] write the packed
    structure as it lies in memory. *)
Definition sqdelta_header_bytes (h : sqdelta_header) : list byte :=
  host_bytes 4 (magic h) ++ host_bytes 4 (flags h)
  ++ host_bytes 4 (compression h) ++ host_bytes 4 (block_count h).

Definition serialized_compressed_block_bytes (b : serialized_compressed_block)
  : list byte :=
  host_bytes 8 (s_offset b) ++ host_bytes 4 (s_length b)
  ++ host_bytes 4 (s_uncompressed_length b).

(** *** [get_blocks] *)

(** The [switch (sb.compression)] (lines 145-169). *)
Definition select_compressor (compression : Z) (c : option Compressor)
  : outcome Compressor :=
  if compression =? squashfs.compression_lzo then
    if ENABLE_LZO then
      match c with
      | None => Ret LZOCompressor
      | Some c' =>
          if negb (same_typeid c' LZOCompressor)
          then Throw (runtime_error "The two files use different compressors")
          else Ret c'
      end
    else Throw (runtime_error "LZO compression support disabled at build time")
  else if compression =? squashfs.compression_lz4 then
    if ENABLE_LZ4 then
      match c with
      | None => Ret LZ4Compressor
      | Some c' =>
          if negb (same_typeid c' LZ4Compressor)
          then Throw (runtime_error "The two files use different compressors")
          else Ret c'
      end
    else Throw (runtime_error "LZ4 compression support disabled at build time")
  else Throw (runtime_error "Unsupported compression algorithm.").

(** Whether the build holds the codec. *)
Definition codec_enabled (c : Compressor) : bool :=
  match c with
  | LZOCompressor => ENABLE_LZO
  | LZ4Compressor => ENABLE_LZ4
  end.

(** One turn of the loop over [block_list] (lines 211-228), on the running
    offset [pos] and the list [compressed_data_blocks]. *)
Definition block_list_entry (st : Z * list compressed_block) (entry : Z)
  : outcome (Z * list compressed_block) :=
  let '(pos, compressed_data_blocks) := st in
  if negb (Z.land entry squashfs.block_size_uncompressed =? 0) then
    (* seek over the uncompressed block *)
    let len := wrap32 (Z.land entry (Z.lnot squashfs.block_size_uncompressed)) in
    _ <- assert (negb (len =? 0)) ;;
    Ret (wrap64 (pos + len), compressed_data_blocks)
  else if negb (entry =? 0) then
    (* record the compressed block *)
    let block := mk_block pos entry 0 0 in
    Ret (wrap64 (pos + length block), compressed_data_blocks ++ [block])
  else Ret (pos, compressed_data_blocks).

(** [for (uint64_t j = 0; j < block_count; ++j)], with [count] turns
    left. *)
Fixpoint walk_block_list (block_list : nat -> Z) (j count : nat)
    (st : Z * list compressed_block) : outcome (Z * list compressed_block) :=
  match count with
  | O => Ret st
  | S count' =>
      st' <- block_list_entry st (block_list j) ;;
      walk_block_list block_list (S j) count' st'
  end.

(** The body of the loop over the inodes (lines 188-230). *)
Definition inode_blocks (sb : squashfs.super_block) (i : squashfs.inode)
    (compressed_data_blocks : list compressed_block)
  : outcome (list compressed_block) :=
  match i with
  | squashfs.as_reg r | squashfs.as_lreg r =>
      let pos := squashfs.start_block r in
      let block_count :=
        wrap64 (squashfs.block_count r (squashfs.block_size sb)
                                       (squashfs.block_log sb)) in
      '(_, blocks) <- walk_block_list (squashfs.block_list r) 0
                        (Z.to_nat block_count) (pos, compressed_data_blocks) ;;
      Ret blocks
  | squashfs.as_base _ => Ret compressed_data_blocks
  end.

(** [for (uint32_t i = 0; i < sb.inodes; ++i)], with [count] turns left. *)
Fixpoint read_inodes (sb : squashfs.super_block) (count : nat)
    (ir : InodeReader) (compressed_data_blocks : list compressed_block)
  : outcome (list compressed_block * InodeReader) :=
  match count with
  | O => Ret (compressed_data_blocks, ir)
  | S count' =>
      '(i, ir') <- InodeReader_read ir ;;
      blocks <- inode_blocks sb i compressed_data_blocks ;;
      read_inodes sb count' ir' blocks
  end.

(** The loop that records the inode blocks (lines 243-262), with [count]
    turns left. *)
Fixpoint record_inode_blocks (count : nat) (mir : MetadataBlockReader)
    (compressed_metadata_blocks : list compressed_block)
  : outcome (list compressed_block * MetadataBlockReader) :=
  match count with
  | O => Ret (compressed_metadata_blocks, mir)
  | S count' =>
      '(ib, mir') <- read_input_block mir ;;
      _ <- assert (negb (ib_length ib =? 0)) ;;
      let blocks :=
        if ib_compressed ib then
          compressed_metadata_blocks
          ++ [mk_block (ib_pos ib) (ib_length ib) 0
                (murmurhash3 (ib_data ib) (ib_length ib) 0)]
        else compressed_metadata_blocks in
      record_inode_blocks count' mir' blocks
  end.

(** The loop over the fragment entries (lines 269-282), with [count] turns
    left. *)
Fixpoint read_fragments (count : nat) (fr : FragmentTableReader)
    (compressed_data_blocks : list compressed_block)
  : outcome (list compressed_block * FragmentTableReader) :=
  match count with
  | O => Ret (compressed_data_blocks, fr)
  | S count' =>
      '(fe, fr') <- FragmentTableReader_read fr ;;
      _ <- assert (negb (squashfs.size fe =? 0)) ;;
      let blocks :=
        if Z.land (squashfs.size fe) squashfs.block_size_uncompressed =? 0 then
          compressed_data_blocks
          ++ [mk_block (squashfs.fe_start_block fe) (squashfs.size fe) 0 0]
        else compressed_data_blocks in
      read_fragments count' fr' blocks
  end.

(** The loop that records the fragment table (lines 294-312), with [count]
    turns left.  It is a loop over whatever reader it is run on; in
    [get_blocks] that is [mir]. *)
Fixpoint record_fragment_table (count : nat) (reader : MetadataBlockReader)
    (compressed_metadata_blocks : list compressed_block)
  : outcome (list compressed_block * MetadataBlockReader) :=
  match count with
  | O => Ret (compressed_metadata_blocks, reader)
  | S count' =>
      '(ib, reader') <- read_input_block reader ;;
      let blocks :=
        if ib_compressed ib then
          compressed_metadata_blocks
          ++ [mk_block (ib_pos ib) (ib_length ib) 0
                (murmurhash3 (ib_data ib) (ib_length ib) 0)]
        else compressed_metadata_blocks in
      record_fragment_table count' reader' blocks
  end.

(** The loop that hashes the data blocks and drops duplicates (lines
    322-339).  The iterator [i] is the part of the list from its position
    on; [j] is the element it points to, or [None] for
    [compressed_data_blocks.end()], which cannot be dereferenced.  The
    result is what is left of the list from [i] on. *)
Fixpoint hash_data_blocks (hf : MMAPFile) (j : option compressed_block)
    (i : list compressed_block) : outcome (list compressed_block) :=
  match i with
  | [] => Ret []
  | bi :: i' =>
      match j with
      | None => Undefined
      | Some bj =>
          (* duplicates will be adjacent after sorting *)
          if offset bi =? offset bj then
            _ <- assert (length bi =? length bj) ;;
            hash_data_blocks hf j i'
          else
            let hf := seek_beg hf (offset bi) in
            '(bytes, hf) <- read_array hf (length bi) ;;
            let bi := set_hash bi (murmurhash3 bytes (length bi) 0) in
            rest <- hash_data_blocks hf (Some bi) i' ;;
            Ret (bi :: rest)
      end
  end.

(** The head of [get_blocks] (lines 131-175): the superblock, the block size
    shared by the two images, and the codec. *)
Definition verify_super_block (f : MMAPFile) (c : option Compressor)
    (block_size : Z) : outcome (squashfs.super_block * Compressor * Z) :=
  (* read & verify superblock *)
  sb <- read_super_block f ;;
  if negb (squashfs.s_magic sb =? squashfs.magic) then
    Throw (runtime_error "File is not a valid SquashFS image (no magic).")
  else if negb (squashfs.s_major sb =? 4) || negb (squashfs.s_minor sb =? 0) then
    Throw (runtime_error "File is not SquashFS 4.0")
  else
  block_size <-
    (if block_size =? 0 then Ret (squashfs.block_size sb)
     else if negb (block_size =? squashfs.block_size sb) then
       Throw (runtime_error "Input files have different block sizes")
     else Ret block_size) ;;
  c <- select_compressor (squashfs.compression sb) c ;;
  let coptsr := mk_metadata_reader f squashfs.sizeof_super_block c in
  _ <- Compressor_setup c
         (if negb (Z.land (squashfs.flags sb)
                          squashfs.flags_compression_options =? 0)
          then Some coptsr else None) ;;
  Ret (sb, c, block_size).

Definition get_blocks (f : MMAPFile) (c : option Compressor) (block_size : Z)
  : outcome (list compressed_block * Compressor * Z) :=
  '(sb, c, block_size) <- verify_super_block f c block_size ;;
  (* read inodes *)
  ir <- InodeReader_new f sb c ;;
  '(compressed_data_blocks, ir) <-
     read_inodes sb (Z.to_nat (squashfs.inodes sb)) ir [] ;;
  let block_num := InodeReader_block_num ir in
  (* record inode blocks *)
  let mir := MetadataBlockReader_new f (squashfs.inode_table_start sb) c in
  '(compressed_metadata_blocks, mir) <-
     record_inode_blocks (Z.to_nat block_num) mir [] ;;
  (* fragments *)
  fr <- FragmentTableReader_new f sb c ;;
  '(compressed_data_blocks, fr) <-
     read_fragments (Z.to_nat (squashfs.fragments sb)) fr
       compressed_data_blocks ;;
  let block_num := FragmentTableReader_block_num fr in
  (* record fragment table *)
  let mfr := MetadataBlockReader_new f (start_offset fr) c in
  '(compressed_metadata_blocks, mir) <-
     record_fragment_table (Z.to_nat block_num) mir
       compressed_metadata_blocks ;;
  (* sort by offset to use sequential reads *)
  let compressed_data_blocks :=
    list_sort sort_by_offset compressed_data_blocks in
  let hf := f in
  (* record the checksums and perform initial deduplication *)
  compressed_data_blocks <- hash_data_blocks hf None compressed_data_blocks ;;
  Ret (compressed_data_blocks ++ compressed_metadata_blocks, c, block_size).

(** *** [write_unpacked_file] *)

(** The objects [write_unpacked_file] works on through its reference
    parameters, and how the call ended; they keep what was done to them
    when the call throws. *)
Record unpacking : Type := mk_unpacking {
  u_outf : SparseFileWriter;
  u_inf : MMAPFile;
  u_cb : list compressed_block;
  u_end : outcome unit
}.

(** Carry on with [k] when [r] returned, else end the call as [r] did. *)
Definition and_then {A : Type} (r : outcome A) (outf : SparseFileWriter)
    (inf : MMAPFile) (cb : list compressed_block) (k : A -> unpacking)
  : unpacking :=
  match r with
  | Ret a => k a
  | Throw e => mk_unpacking outf inf cb (Throw e)
  | Abort => mk_unpacking outf inf cb Abort
  | Undefined => mk_unpacking outf inf cb Undefined
  end.

(** The first loop (lines 357-371); [i] is the part of [cb] from the
    iterator on.  The list is not changed; [u_cb] of the result is unused. *)
Fixpoint copy_around_blocks (outf : SparseFileWriter) (inf : MMAPFile)
    (prev_offset : Z) (i : list compressed_block) : unpacking * Z :=
  match i with
  | [] => (mk_unpacking outf inf [] (Ret tt), prev_offset)
  | b :: i' =>
      if negb (prev_offset <=? offset b) then
        (mk_unpacking outf inf [] Abort, prev_offset)
      else
        let pre_length := wrap64 (offset b - prev_offset) in
        let prev_offset := wrap64 (offset b + length b) in
        (* first, copy the data preceeding compressed block *)
        match read_array inf pre_length with
        | Ret (bytes, inf) =>
            let outf := write outf bytes in
            (* then, seek through the block *)
            let inf := seek_cur inf (length b) in
            let outf := write_sparse outf (length b) in
            copy_around_blocks outf inf prev_offset i'
        | Throw e => (mk_unpacking outf inf [] (Throw e), prev_offset)
        | Abort => (mk_unpacking outf inf [] Abort, prev_offset)
        | Undefined => (mk_unpacking outf inf [] Undefined, prev_offset)
        end
  end.

(** The first part of [write_unpacked_file] (lines 354-375): the region
    that mirrors the input file. *)
Definition write_passthrough (outf : SparseFileWriter) (inf : MMAPFile)
    (cb : list compressed_block) : unpacking :=
  let prev_offset := 0 in
  let inf := seek_beg inf 0 in
  let '(u, prev_offset) := copy_around_blocks outf inf prev_offset cb in
  and_then (u_end u) (u_outf u) (u_inf u) cb (fun _ =>
    (* write the last block *)
    let last := wrap64 (getlen (u_inf u) - prev_offset) in
    and_then (read_array (u_inf u) last) (u_outf u) (u_inf u) cb
      (fun '(bytes, inf) => mk_unpacking (write (u_outf u) bytes) inf cb (Ret tt))).

(** The second loop (lines 380-391); [i] is the part of [cb] from the
    iterator on, and [u_cb] of the result is that part after the loop. *)
Fixpoint write_decompressed (outf : SparseFileWriter) (inf : MMAPFile)
    (c : Compressor) (block_size : Z) (i : list compressed_block)
  : unpacking :=
  match i with
  | [] => mk_unpacking outf inf [] (Ret tt)
  | b :: i' =>
      let inf := seek_beg inf (offset b) in
      and_then (read_array inf (length b)) outf inf i (fun '(src, inf) =>
        and_then (Compressor_decompress c src (length b) block_size) outf inf i
          (fun buf =>
             let unc_length := Z.of_nat (List.length buf) in
             let b := set_uncompressed_length b unc_length in
             let outf := write outf buf in
             let u := write_decompressed outf inf c block_size i' in
             mk_unpacking (u_outf u) (u_inf u) (b :: u_cb u) (u_end u)))
  end.

Definition write_unpacked_file (outf : SparseFileWriter) (inf : MMAPFile)
    (cb : list compressed_block) (c : Compressor) (block_size : Z)
  : unpacking :=
  let u := write_passthrough outf inf cb in
  and_then (u_end u) (u_outf u) (u_inf u) cb (fun _ =>
    write_decompressed (u_outf u) (u_inf u) c block_size cb).

(** *** [write_block_list] *)

Definition write_block_list (outf : SparseFileWriter) (h : sqdelta_header)
    (cb : list compressed_block) (at_end : bool) : SparseFileWriter :=
  (* store the block count in header *)
  let h := mk_header (magic h) (flags h) (compression h)
             (htonl (wrap32 (Z.of_nat (List.length cb)))) in
  let outf := if negb at_end then write outf (sqdelta_header_bytes h) else outf in
  let outf :=
    fold_left
      (fun outf i =>
         let b := mk_serialized (htonll (wrap64 (offset i)))
                    (htonl (wrap32 (length i)))
                    (htonl (wrap32 (uncompressed_length i))) in
         write outf (serialized_compressed_block_bytes b))
      cb outf in
  if at_end then write outf (sqdelta_header_bytes h) else outf.

(** *** [main] *)

(** What a run leaves: the exit status and the three files written. *)
Record run : Type := mk_run {
  exit_status : Z;
  source_temp : SparseFileWriter;
  target_temp : SparseFileWriter;
  patch_out : SparseFileWriter
}.

(** [try { f.open(file); blocks = get_blocks(f, c, block_size); }] *)
Definition open_and_get_blocks (file : string) (c : option Compressor)
    (block_size : Z)
  : outcome (MMAPFile * (list compressed_block * Compressor * Z)) :=
  bytes <- MMAPFile_open file ;;
  let f := mk_file bytes 0 in
  r <- get_blocks f c block_size ;;
  Ret (f, r).

(** [try { c->reset(); temp.open(f.getlen()); write_unpacked_file(...);
           write_block_list(temp, dh, blocks); }]: the blocks and the file
    after it, and how it ended. *)
Definition write_expanded (f : MMAPFile) (blocks : list compressed_block)
    (c : Compressor) (block_size : Z) (dh : sqdelta_header)
  : list compressed_block * SparseFileWriter * outcome unit :=
  match TemporarySparseFileWriter_open (getlen f) with
  | Ret _ =>
      let u := write_unpacked_file [] f blocks c block_size in
      match u_end u with
      | Ret _ => (u_cb u, write_block_list (u_outf u) dh (u_cb u) true, Ret tt)
      | e => (u_cb u, u_outf u, e)
      end
  | Throw e => (blocks, [], Throw e)
  | Abort => (blocks, [], Abort)
  | Undefined => (blocks, [], Undefined)
  end.

Definition main (argv : list string) : outcome run :=
  if (List.length argv <? 4)%nat then Ret (mk_run 1 [] [] [])
  else
  let source_file := nth 1 argv "" in
  let target_file := nth 2 argv "" in
  let patch_file := nth 3 argv "" in
  match open_and_get_blocks source_file None 0 with
  | Throw _ => Ret (mk_run 1 [] [] [])
  | Abort => Abort
  | Undefined => Undefined
  | Ret (source_f, (source_blocks, c, block_size)) =>
  match open_and_get_blocks target_file (Some c) block_size with
  | Throw _ => Ret (mk_run 1 [] [] [])
  | Abort => Abort
  | Undefined => Undefined
  | Ret (target_f, (target_blocks, c, block_size)) =>
  let source_blocks := list_sort sort_by_len_hash source_blocks in
  let target_blocks := list_sort sort_by_len_hash target_blocks in
  let '(source_blocks, target_blocks) :=
    remove_duplicates source_blocks target_blocks in
  (* now we need to write the expanded files *)
  let source_blocks := list_sort sort_by_offset source_blocks in
  let target_blocks := list_sort sort_by_offset target_blocks in
  (* open output before changing cwd *)
  match SparseFileWriter_open patch_file with
  | Throw (IOError _ _) => Ret (mk_run 1 [] [] [])
  | Throw e => Throw e
  | Abort => Abort
  | Undefined => Undefined
  | Ret _ =>
  if negb chdir_tmpdir then Ret (mk_run 1 [] [] [])
  else
  let dh := mk_header (htonl sqdelta_magic) (htonl 0)
              (htonl (wrap32 (get_compression_value c))) 0 in
  match write_expanded source_f source_blocks c block_size dh with
  | (_, source_temp, Throw _) => Ret (mk_run 1 source_temp [] [])
  | (_, _, Abort) => Abort
  | (_, _, Undefined) => Undefined
  | (source_blocks, source_temp, Ret _) =>
  match write_expanded target_f target_blocks c block_size dh with
  | (_, target_temp, Throw _) => Ret (mk_run 1 source_temp target_temp [])
  | (_, _, Abort) => Abort
  | (_, _, Undefined) => Undefined
  | (target_blocks, target_temp, Ret _) =>
  let patch_out := write_block_list [] dh source_blocks false in
  (* the child writes the diff behind what the file holds already *)
  let '(status, diff) :=
    xdelta3 (read_back source_temp) (read_back target_temp) in
  let patch_out := write patch_out diff in
  if negb (status =? 0) then Ret (mk_run 1 source_temp target_temp patch_out)
  else Ret (mk_run 0 source_temp target_temp patch_out)
  end end end end end.

End Program.

(** ** The program as it is built *)

(** In a build without checked iterators nothing traps the read of [*j]
    at [compressed_data_blocks.end()] (line 328): the read yields whatever
    the end node of the list holds, and the program goes on.  The language
    does not say what that is, so the value is a parameter here, and the
    results on this model hold for every choice of it.  The child process
    is the other thing the model above cuts short: [fork()] can fail, and
    what [waitpid] stores is a wait status, of which [main] looks at the
    exit-status field only. *)
Module built.
Section Program.
Context `{Externals}.

(** The loop of lines 322-339, with [end_node i] for what a read of the end
    node yields while the walk stands at [i]. *)
Fixpoint hash_data_blocks (end_node : list compressed_block -> compressed_block)
    (hf : MMAPFile) (j : option compressed_block) (i : list compressed_block)
  : outcome (list compressed_block) :=
  match i with
  | [] => Ret []
  | bi :: i' =>
      let bj := match j with Some bj => bj | None => end_node i end in
      (* duplicates will be adjacent after sorting *)
      if offset bi =? offset bj then
        _ <- assert (length bi =? length bj) ;;
        hash_data_blocks end_node hf j i'
      else
        let hf := seek_beg hf (offset bi) in
        '(bytes, hf) <- read_array hf (length bi) ;;
        let bi := set_hash bi (murmurhash3 bytes (length bi) 0) in
        rest <- hash_data_blocks end_node hf (Some bi) i' ;;
        Ret (bi :: rest)
  end.

Definition get_blocks (end_node : list compressed_block -> compressed_block)
    (f : MMAPFile) (c : option Compressor) (block_size : Z)
  : outcome (list compressed_block * Compressor * Z) :=
  '(sb, c, block_size) <- verify_super_block f c block_size ;;
  (* read inodes *)
  ir <- InodeReader_new f sb c ;;
  '(compressed_data_blocks, ir) <-
     read_inodes sb (Z.to_nat (squashfs.inodes sb)) ir [] ;;
  let block_num := InodeReader_block_num ir in
  (* record inode blocks *)
  let mir := MetadataBlockReader_new f (squashfs.inode_table_start sb) c in
  '(compressed_metadata_blocks, mir) <-
     record_inode_blocks (Z.to_nat block_num) mir [] ;;
  (* fragments *)
  fr <- FragmentTableReader_new f sb c ;;
  '(compressed_data_blocks, fr) <-
     read_fragments (Z.to_nat (squashfs.fragments sb)) fr
       compressed_data_blocks ;;
  let block_num := FragmentTableReader_block_num fr in
  (* record fragment table *)
  let mfr := MetadataBlockReader_new f (start_offset fr) c in
  '(compressed_metadata_blocks, mir) <-
     record_fragment_table (Z.to_nat block_num) mir
       compressed_metadata_blocks ;;
  (* sort by offset to use sequential reads *)
  let compressed_data_blocks :=
    list_sort sort_by_offset compressed_data_blocks in
  let hf := f in
  (* record the checksums and perform initial deduplication *)
  compressed_data_blocks <-
    hash_data_blocks end_node hf None compressed_data_blocks ;;
  Ret (compressed_data_blocks ++ compressed_metadata_blocks, c, block_size).

(** [fork()], and in the parent [waitpid(child, &status, 0)]: the call
    fails, or the child has ended and left a wait status and what it wrote
    to its standard output, which is the patch file. *)
Inductive fork_result : Type :=
| fork_failed (errno_val : Z)
| child_ended (status : Z) (output : list byte).

(** [WEXITSTATUS(status)] and [WIFEXITED(status)] as the C library of
    Linux defines them: bits 8 to 15 of the wait status, and whether its
    low seven bits, the number of the ending signal, are zero. *)
Definition WEXITSTATUS (status : Z) : Z := Z.shiftr (Z.land status 0xff00) 8.

(** What a run meets beyond the externals: the end nodes of the two lists
    of data blocks, and the child. *)
Record platform : Type := mk_platform {
  source_end_node : list compressed_block -> compressed_block;
  target_end_node : list compressed_block -> compressed_block;
  fork_xdelta3 : list byte -> list byte -> fork_result
}.

Definition open_and_get_blocks
    (end_node : list compressed_block -> compressed_block) (file : string)
    (c : option Compressor) (block_size : Z)
  : outcome (MMAPFile * (list compressed_block * Compressor * Z)) :=
  bytes <- MMAPFile_open file ;;
  let f := mk_file bytes 0 in
  r <- get_blocks end_node f c block_size ;;
  Ret (f, r).

Definition main (p : platform) (argv : list string) : outcome run :=
  if (List.length argv <? 4)%nat then Ret (mk_run 1 [] [] [])
  else
  let source_file := nth 1 argv "" in
  let target_file := nth 2 argv "" in
  let patch_file := nth 3 argv "" in
  match open_and_get_blocks (source_end_node p) source_file None 0 with
  | Throw _ => Ret (mk_run 1 [] [] [])
  | Abort => Abort
  | Undefined => Undefined
  | Ret (source_f, (source_blocks, c, block_size)) =>
  match open_and_get_blocks (target_end_node p) target_file (Some c) block_size with
  | Throw _ => Ret (mk_run 1 [] [] [])
  | Abort => Abort
  | Undefined => Undefined
  | Ret (target_f, (target_blocks, c, block_size)) =>
  let source_blocks := list_sort sort_by_len_hash source_blocks in
  let target_blocks := list_sort sort_by_len_hash target_blocks in
  let '(source_blocks, target_blocks) :=
    remove_duplicates source_blocks target_blocks in
  (* now we need to write the expanded files *)
  let source_blocks := list_sort sort_by_offset source_blocks in
  let target_blocks := list_sort sort_by_offset target_blocks in
  (* open output before changing cwd *)
  match SparseFileWriter_open patch_file with
  | Throw (IOError _ _) => Ret (mk_run 1 [] [] [])
  | Throw e => Throw e
  | Abort => Abort
  | Undefined => Undefined
  | Ret _ =>
  if negb chdir_tmpdir then Ret (mk_run 1 [] [] [])
  else
  let dh := mk_header (htonl sqdelta_magic) (htonl 0)
              (htonl (wrap32 (get_compression_value c))) 0 in
  match write_expanded source_f source_blocks c block_size dh with
  | (_, source_temp, Throw _) => Ret (mk_run 1 source_temp [] [])
  | (_, _, Abort) => Abort
  | (_, _, Undefined) => Undefined
  | (source_blocks, source_temp, Ret _) =>
  match write_expanded target_f target_blocks c block_size dh with
  | (_, target_temp, Throw _) => Ret (mk_run 1 source_temp target_temp [])
  | (_, _, Abort) => Abort
  | (_, _, Undefined) => Undefined
  | (target_blocks, target_temp, Ret _) =>
  let patch_out := write_block_list [] dh source_blocks false in
  match fork_xdelta3 p (read_back source_temp) (read_back target_temp) with
  | fork_failed _ =>
      (* throw IOError("fork() failed", errno), caught at the end of main *)
      Ret (mk_run 1 source_temp target_temp patch_out)
  | child_ended status diff =>
      (* the child writes the diff behind what the file holds already *)
      let patch_out := write patch_out diff in
      if negb (WEXITSTATUS status =? 0)
      then Ret (mk_run 1 source_temp target_temp patch_out)
      else Ret (mk_run 0 source_temp target_temp patch_out)
  end
  end end end end end.

End Program.
End built.

(** ** An instance of the externals, to run the program on small images *)

(** Modelled from the spec: [murmurhash3] of [hash.hxx], which is not part
    of the verified source; MurmurHash3, x86 32-bit variant. *)
Definition rotl32 (x r : Z) : Z :=
  wrap32 (Z.lor (Z.shiftl x r) (Z.shiftr x (32 - r))).

Definition murmur_scramble (k : Z) : Z :=
  wrap32 (rotl32 (wrap32 (k * 0xcc9e2d51)) 15 * 0x1b873593).

Fixpoint murmur_blocks (h : Z) (key : list byte) : Z :=
  match key with
  | b0 :: b1 :: b2 :: b3 :: rest =>
      let h := Z.lxor h (murmur_scramble (le_value [b0; b1; b2; b3])) in
      murmur_blocks (wrap32 (rotl32 h 13 * 5 + 0xe6546b64)) rest
  | [] => h
  | tail => Z.lxor h (murmur_scramble (le_value tail))
  end.

Definition fmix32 (h : Z) : Z :=
  let h := Z.lxor h (Z.shiftr h 16) in
  let h := wrap32 (h * 0x85ebca6b) in
  let h := Z.lxor h (Z.shiftr h 13) in
  let h := wrap32 (h * 0xc2b2ae35) in
  Z.lxor h (Z.shiftr h 16).

Definition murmur3_x86_32 (key : list byte) (len seed : Z) : Z :=
  let key := firstn (Z.to_nat len) key in
  fmix32 (Z.lxor (murmur_blocks (wrap32 seed) key)
                 (wrap32 (Z.of_nat (List.length key)))).

(** A toy codec: the compressed form is a list of (count, byte) pairs. *)
Fixpoint run_length_decode (src : list byte) : list byte :=
  match src with
  | n :: b :: rest => repeat b (N.to_nat (Byte.to_N n)) ++ run_length_decode rest
  | _ => []
  end.

Definition toy_decompress (c : Compressor) (src : list byte) (len out_size : Z)
  : outcome (list byte) :=
  let out := run_length_decode (firstn (Z.to_nat len) src) in
  if Z.of_nat (List.length out) <=? out_size then Ret out
  else Throw (runtime_error "decompression failed").

(** The superblock as SquashFS 4.0 lays it out in the first 96 bytes of an
    image (all integers little-endian); members that [get_blocks] does not
    read are written as zero. *)
Definition super_block_bytes (sb : squashfs.super_block) : list byte :=
  le_bytes 4 (squashfs.s_magic sb) ++ le_bytes 4 (squashfs.inodes sb)
  ++ le_bytes 4 0 ++ le_bytes 4 (squashfs.block_size sb)
  ++ le_bytes 4 (squashfs.fragments sb) ++ le_bytes 2 (squashfs.compression sb)
  ++ le_bytes 2 (squashfs.block_log sb) ++ le_bytes 2 (squashfs.flags sb)
  ++ le_bytes 2 0 ++ le_bytes 2 (squashfs.s_major sb)
  ++ le_bytes 2 (squashfs.s_minor sb) ++ le_bytes 8 0 ++ le_bytes 8 0
  ++ le_bytes 8 0 ++ le_bytes 8 0 ++ le_bytes 8 (squashfs.inode_table_start sb)
  ++ le_bytes 8 0 ++ le_bytes 8 (squashfs.fragment_table_start sb)
  ++ le_bytes 8 0.

Definition field (bytes : list byte) (at_ size : nat) : Z :=
  le_value (firstn size (skipn at_ bytes)).

Definition parse_super_block (f : MMAPFile) : outcome squashfs.super_block :=
  '(b, _) <- read_array (seek_beg f 0) squashfs.sizeof_super_block ;;
  Ret (squashfs.mk_super_block (field b 0 4) (field b 4 4) (field b 12 4)
         (field b 16 4) (field b 20 2) (field b 22 2) (field b 24 2)
         (field b 28 2) (field b 30 2) (field b 64 8) (field b 80 8)).

(** What the inode and fragment readers of [squashfs.hxx] find in an
    image. *)
Record image_contents : Type := mk_contents {
  the_inodes : list squashfs.inode;
  the_inode_blocks : Z;
  the_fragments : list squashfs.fragment_entry;
  the_fragment_blocks : Z;
  the_fragment_start : Z
}.

Fixpoint bytes_eqb (a b : list byte) : bool :=
  match a, b with
  | [], [] => true
  | x :: a', y :: b' => Byte.eqb x y && bytes_eqb a' b'
  | _, _ => false
  end.

Fixpoint contents_of (images : list (list byte * image_contents))
    (bytes : list byte) : outcome image_contents :=
  match images with
  | [] => Throw end_of_file
  | (b, c) :: rest => if bytes_eqb b bytes then Ret c else contents_of rest bytes
  end.

Fixpoint file_named (files : list (string * list byte)) (name : string)
  : outcome (list byte) :=
  match files with
  | [] => Throw (IOError "Unable to open file" 2)
  | (n, b) :: rest => if String.eqb n name then Ret b else file_named rest name
  end.

Definition read_next {A : Type} (l : list A) : outcome (A * list A) :=
  match l with
  | [] => Throw end_of_file
  | x :: l' => Ret (x, l')
  end.

(** The superblock is read from the bytes; the inode and fragment readers
    deliver the listed contents of the listed images.  The host is
    little-endian with both codecs built in, the file system holds the
    listed files, and the differ answers with the target file. *)
Definition table_externals (images : list (list byte * image_contents))
    (files : list (string * list byte)) : Externals :=
  {| ENABLE_LZO := true;
     ENABLE_LZ4 := true;
     little_endian := true;
     murmurhash3 := murmur3_x86_32;
     Compressor_setup := fun _ _ => Ret tt;
     Compressor_decompress := toy_decompress;
     read_super_block := parse_super_block;
     InodeReader := list squashfs.inode * Z;
     InodeReader_new := fun f _ _ =>
       c <- contents_of images (data f) ;; Ret (the_inodes c, the_inode_blocks c);
     InodeReader_read := fun ir =>
       '(i, rest) <- read_next (fst ir) ;; Ret (i, (rest, snd ir));
     InodeReader_block_num := snd;
     FragmentTableReader := list squashfs.fragment_entry * (Z * Z);
     FragmentTableReader_new := fun f _ _ =>
       c <- contents_of images (data f) ;;
       Ret (the_fragments c, (the_fragment_blocks c, the_fragment_start c));
     FragmentTableReader_read := fun fr =>
       '(fe, rest) <- read_next (fst fr) ;; Ret (fe, (rest, snd fr));
     FragmentTableReader_block_num := fun fr => fst (snd fr);
     start_offset := fun fr => snd (snd fr);
     MMAPFile_open := file_named files;
     SparseFileWriter_open := fun _ => Ret tt;
     TemporarySparseFileWriter_open := fun _ => Ret tt;
     chdir_tmpdir := true;
     xdelta3 := fun source target => (0, target) |}.

(** *** Small images *)

Definition regular_file (start_block : Z) (block_list : list Z)
  : squashfs.reg_inode :=
  squashfs.mk_reg_inode start_block
    (fun _ _ => Z.of_nat (List.length block_list))
    (fun j => nth j block_list 0).

Definition directory : squashfs.inode := squashfs.as_base 1.

(** One directory inode in a compressed inode-table block at 96, a
    compressed directory-table block at 102, one fragment (stored
    uncompressed) whose entry lies in the compressed fragment-table block at
    106, and the fragment-table index at 110. *)
Definition tree_super_block : squashfs.super_block :=
  squashfs.mk_super_block squashfs.magic 1 131072 1 squashfs.compression_lzo
    17 0 4 0 96 110.

Definition tree_image_with (sb : squashfs.super_block) (inode_byte : byte)
  : list byte :=
  super_block_bytes sb
  ++ [x04; x00; x02; x61; x01; inode_byte]
  ++ [x02; x00; x03; x7a]
  ++ [x02; x00; x01; x66]
  ++ le_bytes 8 106.

Definition tree_contents : image_contents :=
  mk_contents [directory] 1
    [squashfs.mk_fragment_entry 90 (squashfs.block_size_uncompressed + 6)]
    1 106.

Definition tree_image : list byte := tree_image_with tree_super_block x62.

(** The same tree with another byte in its inode block. *)
Definition changed_image : list byte := tree_image_with tree_super_block x63.

(** The same tree, compressed with zlib (identifier 1). *)
Definition zlib_super_block : squashfs.super_block :=
  squashfs.mk_super_block squashfs.magic 1 131072 1 1 17 0 4 0 96 110.

Definition zlib_image : list byte := tree_image_with zlib_super_block x62.

(** The same tree, compressed with LZ4. *)
Definition lz4_super_block : squashfs.super_block :=
  squashfs.mk_super_block squashfs.magic 1 131072 1 squashfs.compression_lz4
    17 0 4 0 96 110.

Definition lz4_image : list byte := tree_image_with lz4_super_block x62.

(** The same tree, with a block size of 131072 and a block log of 5. *)
Definition odd_log_super_block : squashfs.super_block :=
  squashfs.mk_super_block squashfs.magic 1 131072 1 squashfs.compression_lzo
    5 0 4 0 96 110.

Definition odd_log_image : list byte := tree_image_with odd_log_super_block x62.

(** The same tree behind a wrong magic number. *)
Definition no_magic_super_block : squashfs.super_block :=
  squashfs.mk_super_block 0 1 131072 1 squashfs.compression_lzo 17 0 4 0 96 110.

Definition no_magic_image : list byte := tree_image_with no_magic_super_block x62.

(** One regular file: a data block of three bytes at 96, then the inode
    table in one uncompressed metadata block at 99; no fragments.  The
    block list of the file is a parameter. *)
Definition file_super_block : squashfs.super_block :=
  squashfs.mk_super_block squashfs.magic 1 131072 0 squashfs.compression_lzo
    17 0 4 0 99 103.

Definition file_image_bytes (marker : byte) : list byte :=
  super_block_bytes file_super_block
  ++ [x03; x41; marker] ++ [x02; x80; x00; x00].

Definition file_contents (block_list : list Z) : image_contents :=
  mk_contents [squashfs.as_reg (regular_file 96 block_list)] 1 [] 0 103.

(** The tree, with a fragment entry whose size is zero. *)
Definition empty_fragment_contents : image_contents :=
  mk_contents [directory] 1 [squashfs.mk_fragment_entry 90 0] 1 106.

Definition empty_fragment_image : list byte :=
  tree_image_with tree_super_block x64.

Definition small_images : list (list byte * image_contents) :=
  [ (tree_image, tree_contents);
    (changed_image, tree_contents);
    (zlib_image, tree_contents);
    (lz4_image, tree_contents);
    (odd_log_image, tree_contents);
    (no_magic_image, tree_contents);
    (file_image_bytes x01, file_contents [3]);
    (file_image_bytes x02, file_contents [squashfs.block_size_uncompressed]);
    (empty_fragment_image, empty_fragment_contents) ].

Definition small_files : list (string * list byte) :=
  [ ("tree.sqfs", tree_image);
    ("changed.sqfs", changed_image);
    ("zlib.sqfs", zlib_image);
    ("lz4.sqfs", lz4_image);
    ("odd_log.sqfs", odd_log_image);
    ("no_magic.sqfs", no_magic_image);
    ("file.sqfs", file_image_bytes x01) ].

Definition small : Externals := table_externals small_images small_files.

(** A platform for the small images: both end nodes read as a descriptor
    of zeros, and the child ends with exit status 0 after writing the
    target file. *)
Definition small_platform : built.platform :=
  built.mk_platform (fun _ => mk_block 0 0 0 0) (fun _ => mk_block 0 0 0 0)
    (fun _ target => built.child_ended 0 target).



(** ** Notions used to state the properties *)

(** The bytes a descriptor covers in an image. *)
Definition on_disk (image : list byte) (b : compressed_block)
  : outcome (list byte) :=
  '(src, _) <- read_array (mk_file image (offset b)) (length b) ;; Ret src.

(** [b'] is [b] with [uncompressed_length] set to the number of bytes that
    decompressing the on-disk bytes of [b] yields. *)
Definition filled `{Externals} (image : list byte) (c : Compressor)
    (block_size : Z) (b b' : compressed_block) : Prop :=
  exists src buf : list byte,
    on_disk image b = Ret src
    /\ Compressor_decompress c src (length b) block_size = Ret buf
    /\ b' = set_uncompressed_length b (Z.of_nat (List.length buf)).

(** The block index as the patch format defines it: 16-byte records, and a
    16-byte header, all integers big-endian. *)
Definition index_record (b : compressed_block) : list byte :=
  be_bytes 8 (offset b) ++ be_bytes 4 (length b)
  ++ be_bytes 4 (uncompressed_length b).

Definition index_records (cb : list compressed_block) : list byte :=
  flat_map index_record cb.

Definition index_header (compression : Z) (block_count : Z) : list byte :=
  be_bytes 4 0x5371CEB4 ++ be_bytes 4 0 ++ be_bytes 4 compression
  ++ be_bytes 4 block_count.

(** Whether byte [k] of an image lies in one of the blocks. *)
Definition covered (cb : list compressed_block) (k : Z) : bool :=
  existsb (fun b => (offset b <=? k) && (k <? offset b + length b)) cb.

(** The image with the bytes of every block replaced by zeros. *)
Definition hollowed (image : list byte) (cb : list compressed_block)
  : list byte :=
  map (fun k => if covered cb (Z.of_nat k) then x00 else nth k image x00)
      (seq 0 (List.length image)).

(** One block lies before the next, without overlap. *)
Definition before (a b : compressed_block) : Prop :=
  offset a < offset b /\ offset a + length a <= offset b.

(** A block lies within an image of [len] bytes. *)
Definition within (len : Z) (b : compressed_block) : Prop :=
  0 <= offset b /\ 0 <= length b /\ offset b + length b <= len.

(** Where the last block of a list ends (0 for the empty list). *)
Definition end_of_last (cb : list compressed_block) : Z :=
  match rev cb with
  | [] => 0
  | b :: _ => offset b + length b
  end.

(** The blocks lie in order from [p] on and end within [n] bytes. *)
Fixpoint laid_out (p n : Z) (cb : list compressed_block) : Prop :=
  match cb with
  | [] => p <= n
  | b :: cb' =>
      p <= offset b /\ 0 <= length b
      /\ laid_out (offset b + length b) n cb'
  end.

(** The region up to the end of the last block, read back, when the cursor
    stands at [p]; and where it ends. *)
Fixpoint holes_from (p : Z) (image : list byte) (cb : list compressed_block)
  : list byte :=
  match cb with
  | [] => []
  | b :: cb' =>
      firstn (Z.to_nat (offset b - p)) (skipn (Z.to_nat p) image)
      ++ repeat x00 (Z.to_nat (length b))
      ++ holes_from (offset b + length b) image cb'
  end.

Fixpoint end_from (p : Z) (cb : list compressed_block) : Z :=
  match cb with
  | [] => p
  | b :: cb' => end_from (offset b + length b) cb'
  end.

(** [a] does not come after [b] in the order of [sort_by_len_hash]. *)
Definition le_len_hash (a b : compressed_block) : Prop :=
  sort_by_len_hash b a = false.

(** Whether the (length, hash) key of [b] occurs in [l]. *)
Definition key_in (b : compressed_block) (l : list compressed_block) : bool :=
  existsb (same_len_hash b) l.

(** [l] without the entries whose key occurs in [other]. *)
Definition without_keys_of (other l : list compressed_block)
  : list compressed_block :=
  filter (fun b => negb (key_in b other)) l.

(** [l] is [l'] with some entries left out. *)
Inductive subsequence {A : Type} : list A -> list A -> Prop :=
| subsequence_nil : subsequence [] []
| subsequence_skip (x : A) (l l' : list A) :
    subsequence l l' -> subsequence l (x :: l')
| subsequence_keep (x : A) (l l' : list A) :
    subsequence l l' -> subsequence (x :: l) (x :: l').

(** The length of a descriptor is a compressed size: not zero, and without
    the uncompressed flag. *)
Definition compressed_size (b : compressed_block) : Prop :=
  Z.land (length b) squashfs.block_size_uncompressed = 0 /\ length b <> 0.

(** The on-disk size a block-list entry stands for: its low 31 bits. *)
Definition entry_size (entry : Z) : Z := Z.land entry 0x7fffffff.

Definition sum_Z (l : list Z) : Z := fold_right Z.add 0 l.

(** The hash of a descriptor is the hash of the bytes it covers in the
    image. *)
Definition hashed_on_disk `{Externals} (image : list byte)
    (b : compressed_block) : Prop :=
  exists bytes : list byte,
    on_disk image b = Ret bytes /\ hash b = murmurhash3 bytes (length b) 0.

(** Reading the block index back: a big-endian integer, one 16-byte record,
    [n] records, and the 16-byte header. *)
Definition be_value (bs : list byte) : Z := le_value (rev bs).

Definition parse_record (bs : list byte) : Z * Z * Z :=
  (be_value (firstn 8 bs), be_value (firstn 4 (skipn 8 bs)),
   be_value (firstn 4 (skipn 12 bs))).

Fixpoint parse_records (n : nat) (bs : list byte) : list (Z * Z * Z) :=
  match n with
  | O => []
  | S n' => parse_record (firstn 16 bs) :: parse_records n' (skipn 16 bs)
  end.

Definition parse_header (bs : list byte) : sqdelta_header :=
  mk_header (be_value (firstn 4 bs)) (be_value (firstn 4 (skipn 4 bs)))
            (be_value (firstn 4 (skipn 8 bs))) (be_value (firstn 4 (skipn 12 bs))).

(** The members of a descriptor fit the fields of a record. *)
Definition fits_record (b : compressed_block) : Prop :=
  0 <= offset b < 2 ^ 64 /\ 0 <= length b < 2 ^ 32
  /\ 0 <= uncompressed_length b < 2 ^ 32.

(** A block-list entry stands for a compressed block: it is not zero and
    does not carry the uncompressed flag. *)
Definition compressed_entry (entry : Z) : bool :=
  (Z.land entry squashfs.block_size_uncompressed =? 0) && negb (entry =? 0).

(** The entries of an inode's block list that [get_blocks] walks. *)
Definition inode_entries (sb : squashfs.super_block) (i : squashfs.inode)
  : list Z :=
  match i with
  | squashfs.as_reg r | squashfs.as_lreg r =>
      map (squashfs.block_list r)
          (seq 0 (Z.to_nat (wrap64 (squashfs.block_count r
                                      (squashfs.block_size sb)
                                      (squashfs.block_log sb)))))
  | squashfs.as_base _ => []
  end.

(** What [count] reads of the inode reader, and of the fragment reader,
    yield. *)
Fixpoint inodes_read `{Externals} (count : nat) (ir : InodeReader)
  : outcome (list squashfs.inode * InodeReader) :=
  match count with
  | O => Ret ([], ir)
  | S count' =>
      '(i, ir) <- InodeReader_read ir ;;
      '(rest, ir) <- inodes_read count' ir ;;
      Ret (i :: rest, ir)
  end.

Fixpoint fragments_read `{Externals} (count : nat) (fr : FragmentTableReader)
  : outcome (list squashfs.fragment_entry * FragmentTableReader) :=
  match count with
  | O => Ret ([], fr)
  | S count' =>
      '(fe, fr) <- FragmentTableReader_read fr ;;
      '(rest, fr) <- fragments_read count' fr ;;
      Ret (fe :: rest, fr)
  end.

(** Where the compressed blocks of a block list lie, and how long they
    are, when the file starts at [start]: entry [k], if it stands for a
    compressed block, lies behind the on-disk sizes of all entries before
    it. *)
Definition placed (start : Z) (entries : list Z) : list (Z * Z) :=
  flat_map
    (fun k =>
       if compressed_entry (nth k entries 0)
       then [(start + sum_Z (map entry_size (firstn k entries)),
              nth k entries 0)]
       else [])
    (seq 0 (List.length entries)).

(** The metadata block whose two-byte header lies at [p] in the image: the
    low 15 bits of the header are the length of the payload, which follows
    the header, and the block is compressed when bit 15 is clear. *)
Definition metadata_block_at (image : list byte) (p : Z) (ib : input_block)
  : Prop :=
  exists hdr : list byte,
    read_array (mk_file image p) 2 = Ret (hdr, mk_file image (p + 2))
    /\ ib_length ib = Z.land (le_value hdr) 0x7fff
    /\ ib_length ib <> 0
    /\ ib_compressed ib = (Z.land (le_value hdr) 0x8000 =? 0)
    /\ ib_pos ib = p + 2
    /\ read_array (mk_file image (p + 2)) (ib_length ib)
       = Ret (ib_data ib, mk_file image (p + 2 + ib_length ib)).

(** The blocks of [stream] lie in the image one behind the other, the
    first at [p], and [q] is where the last one ends. *)
Fixpoint consecutive_blocks (image : list byte) (p : Z)
    (stream : list input_block) (q : Z) : Prop :=
  match stream with
  | [] => q = p
  | ib :: rest =>
      metadata_block_at image p ib
      /\ consecutive_blocks image (ib_pos ib + ib_length ib) rest q
  end.

(** Offset, length and hash of the descriptor of a metadata block. *)
Definition metadata_descriptor `{Externals} (ib : input_block) : Z * Z * Z :=
  (ib_pos ib, ib_length ib, murmurhash3 (ib_data ib) (ib_length ib) 0).

Definition descriptor_fields (b : compressed_block) : Z * Z * Z :=
  (offset b, length b, hash b).

(** How far a run has come when it has started the child: both images
    collected, the temporary directory entered, both expanded files
    written; and what it leaves then. *)
Definition reached_child `{Externals} (p : built.platform) (argv : list string)
    (r : run) (c : Compressor) (block_size : Z)
    (source target : list byte)
    (source_blocks target_blocks sblocks' tblocks' : list compressed_block)
  : Prop :=
  let dh := mk_header (htonl sqdelta_magic) (htonl 0)
              (htonl (wrap32 (get_compression_value c))) 0 in
  let unique :=
    remove_duplicates (list_sort sort_by_len_hash source_blocks)
                      (list_sort sort_by_len_hash target_blocks) in
  (4 <= List.length argv)%nat
  /\ MMAPFile_open (nth 1 argv "") = Ret source
  /\ (exists c1 bs1,
        built.get_blocks (built.source_end_node p) (mk_file source 0) None 0
        = Ret (source_blocks, c1, bs1)
        /\ MMAPFile_open (nth 2 argv "") = Ret target
        /\ built.get_blocks (built.target_end_node p) (mk_file target 0)
             (Some c1) bs1
           = Ret (target_blocks, c, block_size))
  /\ chdir_tmpdir = true
  /\ write_expanded (mk_file source 0)
       (list_sort sort_by_offset (fst unique)) c block_size dh
     = (sblocks', source_temp r, Ret tt)
  /\ write_expanded (mk_file target 0)
       (list_sort sort_by_offset (snd unique)) c block_size dh
     = (tblocks', target_temp r, Ret tt)
  /\ match built.fork_xdelta3 p (read_back (source_temp r))
             (read_back (target_temp r)) with
     | built.fork_failed _ =>
         exit_status r = 1
         /\ patch_out r = write_block_list [] dh sblocks' false
     | built.child_ended status diff =>
         exit_status r = (if built.WEXITSTATUS status =? 0 then 0 else 1)
         /\ patch_out r = write (write_block_list [] dh sblocks' false) diff
     end.

(** * Properties *)

(** ** Bits of a block-list entry *)

Lemma top_bit_land (e : Z) :
  0 <= e -> (Z.land e squashfs.block_size_uncompressed =? 0) = negb (Z.testbit e 31).
Proof.
  intros He. change squashfs.block_size_uncompressed with (2 ^ 31).
  destruct (Z.testbit e 31) eqn:Hb; cbn [negb].
  - apply Z.eqb_neq. intros Hz.
    assert (Z.testbit (Z.land e (2 ^ 31)) 31 = true) as Ht.
    { rewrite Z.land_spec, Hb, Z.pow2_bits_true; [reflexivity | lia]. }
    rewrite Hz in Ht. rewrite Z.bits_0 in Ht. discriminate.
  - apply Z.eqb_eq. apply Z.bits_inj'. intros n Hn.
    rewrite Z.land_spec, Z.bits_0.
    destruct (Z.eq_dec n 31) as [->|Hne].
    + rewrite Hb. reflexivity.
    + rewrite Z.pow2_bits_false by lia. apply andb_false_r.
Qed.

Lemma low_bits_land (e : Z) :
  0 <= e < 2 ^ 32 ->
  wrap32 (Z.land e (Z.lnot squashfs.block_size_uncompressed)) = Z.land e 0x7fffffff.
Proof.
  intros He. change squashfs.block_size_uncompressed with (2 ^ 31).
  assert (Z.land e (Z.lnot (2 ^ 31)) = Z.land e 0x7fffffff) as ->.
  { apply Z.bits_inj'. intros n Hn.
    rewrite !Z.land_spec, Z.lnot_spec by lia.
    change 0x7fffffff with (Z.ones 31).
    destruct (Z_lt_le_dec n 31) as [Hlt|Hge].
    - rewrite Z.pow2_bits_false by lia. rewrite Z.ones_spec_low by lia. reflexivity.
    - rewrite Z.ones_spec_high by lia.
      destruct (Z.eq_dec n 31) as [->|Hne].
      + rewrite Z.pow2_bits_true by lia. reflexivity.
      + assert (Z.testbit e n = false) as ->; [|reflexivity].
        destruct (Z.eq_dec e 0) as [->|Hz]; [apply Z.bits_0|].
        apply Z.bits_above_log2; [lia|].
        assert (Z.log2 e < 32) by (apply Z.log2_lt_pow2; lia). lia. }
  unfold wrap32. apply Z.mod_small.
  change 0x7fffffff with (Z.ones 31). rewrite Z.land_ones by lia.
  pose proof (Z.mod_pos_bound e (2 ^ 31)). lia.
Qed.

(** ** The walk over an inode's block list *)

(** C5, as stated, at the entry 0x80000000: it is neither an entry with the
    top bit set and nonzero low bits nor zero, so the claim has it recorded as a
    descriptor of that length; the loop fails its assertion instead. *)
Lemma block_list_entry_bare_flag :
  let entry := 0x80000000 in
  ~ (Z.testbit entry 31 = true /\ Z.land entry 0x7fffffff <> 0)
  /\ entry <> 0
  /\ block_list_entry (96, []) entry
     <> Ret (wrap64 (96 + entry), [mk_block 96 entry 0 0])
  /\ block_list_entry (96, []) entry = Abort.
Proof.
  cbv zeta. repeat split.
  - intros [_ Hlow]. apply Hlow. reflexivity.
  - discriminate.
  - discriminate.
Qed.

(** C5, amended: the walk of a regular or extended-regular inode starts at
    the running offset [start_block] and takes the entries of the block list
    in turn.  An entry with the top bit set and nonzero low bits advances
    the running offset by the low bits and records nothing; a zero entry
    neither advances nor records; an entry with the top bit clear that is
    not zero records [{offset: running, length: entry}] and advances the
    running offset by that length.  (The offset is a [uint64_t]: advancing
    is addition modulo 2^64.) *)
Theorem block_list_walk (sb : squashfs.super_block) (r : squashfs.reg_inode)
    (data_blocks blocks : list compressed_block) (pos entry : Z)
    (bl : nat -> Z) (j count : nat) :
  0 <= entry < 2 ^ 32 ->
  (inode_blocks sb (squashfs.as_reg r) data_blocks
   = inode_blocks sb (squashfs.as_lreg r) data_blocks
   /\ inode_blocks sb (squashfs.as_reg r) data_blocks
      = ('(_, found) <-
           walk_block_list (squashfs.block_list r) 0
             (Z.to_nat (wrap64 (squashfs.block_count r (squashfs.block_size sb)
                                                      (squashfs.block_log sb))))
             (squashfs.start_block r, data_blocks) ;;
         Ret found))
  /\ walk_block_list bl j (S count) (pos, blocks)
     = (st <- block_list_entry (pos, blocks) (bl j) ;;
        walk_block_list bl (S j) count st)
  /\ (Z.testbit entry 31 = true -> Z.land entry 0x7fffffff <> 0 ->
      block_list_entry (pos, blocks) entry
      = Ret (wrap64 (pos + Z.land entry 0x7fffffff), blocks))
  /\ (entry = 0 -> block_list_entry (pos, blocks) entry = Ret (pos, blocks))
  /\ (Z.testbit entry 31 = false -> entry <> 0 ->
      block_list_entry (pos, blocks) entry
      = Ret (wrap64 (pos + entry), blocks ++ [mk_block pos entry 0 0])).
Proof.
  intros He. split; [split; reflexivity|]. split; [reflexivity|].
  unfold block_list_entry.
  rewrite top_bit_land by lia. rewrite low_bits_land by lia.
  repeat split.
  - intros Hb Hlow. rewrite Hb. cbn [negb].
    destruct (Z.eqb_spec (Z.land entry 0x7fffffff) 0) as [E|E]; [contradiction|].
    reflexivity.
  - intros ->. reflexivity.
  - intros Hb Hnz. rewrite Hb. cbn [negb].
    destruct (Z.eqb_spec entry 0) as [E|E]; [contradiction|]. reflexivity.
Qed.

Lemma block_list_walk_witness :
  block_list_entry (96, []) 0x80000005 = Ret (101, [])
  /\ block_list_entry (96, []) 0 = Ret (96, [])
  /\ block_list_entry (96, []) 7 = Ret (103, [mk_block 96 7 0 0]).
Proof.
  pose proof (block_list_walk tree_super_block (regular_file 96 [7]) [] []
                96 0x80000005 (fun _ => 0) 0 0 ltac:(lia)) as (_ & _ & Hu & _ & _).
  pose proof (block_list_walk tree_super_block (regular_file 96 [7]) [] []
                96 0 (fun _ => 0) 0 0 ltac:(lia)) as (_ & _ & _ & Hz & _).
  pose proof (block_list_walk tree_super_block (regular_file 96 [7]) [] []
                96 7 (fun _ => 0) 0 0 ltac:(lia)) as (_ & _ & _ & _ & Hc).
  split; [|split].
  - apply Hu; [reflexivity | discriminate].
  - apply Hz; reflexivity.
  - apply Hc; [reflexivity | discriminate].
Defined.

(** ** Assertions and iterators in [get_blocks] *)

(** C10: there are inputs on which [get_blocks] dies on a failed assertion
    instead of throwing.  When the superblock is accepted and the first
    inode read is a regular (or extended regular) file whose first
    block-list entry is exactly the uncompressed flag, [assert(len != 0)]
    fails; when the inode table has been read and recorded and the first
    fragment entry has size zero, [assert(fe.size != 0)] fails: the entry is
    not skipped. *)
Theorem get_blocks_failed_assertions `{Externals} (f : MMAPFile)
    (c0 : option Compressor) (block_size0 : Z) (sb : squashfs.super_block)
    (c : Compressor) (block_size : Z) (ir : InodeReader) :
  verify_super_block f c0 block_size0 = Ret (sb, c, block_size) ->
  InodeReader_new f sb c = Ret ir ->
  (forall (i : squashfs.inode) (r : squashfs.reg_inode) (ir' : InodeReader),
      0 < squashfs.inodes sb ->
      InodeReader_read ir = Ret (i, ir') ->
      i = squashfs.as_reg r \/ i = squashfs.as_lreg r ->
      0 < wrap64 (squashfs.block_count r (squashfs.block_size sb)
                                        (squashfs.block_log sb)) ->
      squashfs.block_list r 0%nat = squashfs.block_size_uncompressed ->
      get_blocks f c0 block_size0 = Abort)
  /\ (forall (data_blocks metadata_blocks : list compressed_block)
        (ir1 : InodeReader) (mir : MetadataBlockReader)
        (fr fr' : FragmentTableReader) (fe : squashfs.fragment_entry),
      read_inodes sb (Z.to_nat (squashfs.inodes sb)) ir [] = Ret (data_blocks, ir1) ->
      record_inode_blocks (Z.to_nat (InodeReader_block_num ir1))
        (MetadataBlockReader_new f (squashfs.inode_table_start sb) c) []
      = Ret (metadata_blocks, mir) ->
      FragmentTableReader_new f sb c = Ret fr ->
      0 < squashfs.fragments sb ->
      FragmentTableReader_read fr = Ret (fe, fr') ->
      squashfs.size fe = 0 ->
      get_blocks f c0 block_size0 = Abort).
Proof.
  intros Hsb Hir. split.
  - intros i r ir' Hn Hread Hreg Hcount Hentry.
    unfold get_blocks. rewrite Hsb. cbn [bind]. rewrite Hir. cbn [bind].
    destruct (Z.to_nat (squashfs.inodes sb)) as [|n] eqn:En; [lia|].
    cbn [read_inodes]. rewrite Hread. cbn [bind].
    assert (inode_blocks sb i [] = Abort) as ->; [|reflexivity].
    assert (inode_blocks sb i [] = inode_blocks sb (squashfs.as_reg r) []) as ->.
    { destruct Hreg as [-> | ->]; reflexivity. }
    unfold inode_blocks.
    destruct (Z.to_nat (wrap64 _)) as [|k] eqn:Ek; [lia|].
    cbn [walk_block_list]. rewrite Hentry. reflexivity.
  - intros data_blocks metadata_blocks ir1 mir fr fr' fe Hinodes Hrec Hfr Hn Hread Hsize.
    unfold get_blocks. rewrite Hsb. cbn [bind]. rewrite Hir. cbn [bind].
    rewrite Hinodes. cbn [bind]. rewrite Hrec. cbn [bind]. rewrite Hfr. cbn [bind].
    destruct (Z.to_nat (squashfs.fragments sb)) as [|n] eqn:En; [lia|].
    cbn [read_fragments]. rewrite Hread. cbn [bind]. rewrite Hsize. reflexivity.
Qed.

Lemma get_blocks_failed_assertions_witness :
  @get_blocks small (mk_file (file_image_bytes x02) 0) None 0 = Abort
  /\ @get_blocks small (mk_file empty_fragment_image 0) None 0 = Abort.
Proof.
  split.
  - refine (proj1 (@get_blocks_failed_assertions small
                     (mk_file (file_image_bytes x02) 0) None 0
                     file_super_block LZOCompressor 131072
                     ([squashfs.as_reg (regular_file 96 [squashfs.block_size_uncompressed])], 1)
                     _ _)
                  (squashfs.as_reg (regular_file 96 [squashfs.block_size_uncompressed]))
                  (regular_file 96 [squashfs.block_size_uncompressed])
                  ([], 1) _ _ _ _ _).
    + vm_compute. reflexivity.
    + vm_compute. reflexivity.
    + vm_compute. reflexivity.
    + vm_compute. reflexivity.
    + left. reflexivity.
    + vm_compute. reflexivity.
    + vm_compute. reflexivity.
  - refine (proj2 (@get_blocks_failed_assertions small
                     (mk_file empty_fragment_image 0) None 0
                     tree_super_block LZOCompressor 131072
                     ([directory], 1) _ _)
                  [] [mk_block 98 4 0 (murmur3_x86_32 [x02; x61; x01; x64] 4 0)]
                  ([], 1) (mk_file empty_fragment_image 102)
                  ([squashfs.mk_fragment_entry 90 0], (1, 106)) ([], (1, 106))
                  (squashfs.mk_fragment_entry 90 0) _ _ _ _ _ _).
    + vm_compute. reflexivity.
    + vm_compute. reflexivity.
    + vm_compute. reflexivity.
    + vm_compute. reflexivity.
    + vm_compute. reflexivity.
    + vm_compute. reflexivity.
    + vm_compute. reflexivity.
    + vm_compute. reflexivity.
Defined.

(** C2, on the code: the loop starts with [j] at
    [compressed_data_blocks.end()] and its first test reads [( *j).offset],
    so on every list that is not empty the first turn dereferences the
    past-the-end iterator; [get_blocks] does so on an image with a single
    compressed data block. *)
Theorem hash_data_blocks_first_turn :
  (forall `{Externals} (hf : MMAPFile) (b : compressed_block)
          (rest : list compressed_block),
      hash_data_blocks hf None (b :: rest) = Undefined)
  /\ @read_inodes small file_super_block 1
       ([squashfs.as_reg (regular_file 96 [3])], 1) []
     = Ret ([mk_block 96 3 0 0], ([], 1))
  /\ @get_blocks small (mk_file (file_image_bytes x01) 0) None 0 = Undefined.
Proof.
  split; [|split].
  - intros E hf b rest. reflexivity.
  - vm_compute. reflexivity.
  - vm_compute. reflexivity.
Qed.

(** C1, on the code: the loop that records the fragment table reads from
    [mir], the reader of the inode table, which stands behind the inode
    blocks; the reader [mfr] that starts at [fr.start_offset] is never read.
    On the tree image the block recorded in this step is the one that
    follows the inode table (payload at 104), not the fragment-table block
    (payload at 108) that a reader started at [start_offset] yields. *)
Theorem get_blocks_records_from_mir :
  let f := mk_file tree_image 0 in
  @get_blocks small f None 0
  = Ret ([mk_block 98 4 0 (murmur3_x86_32 [x02; x61; x01; x62] 4 0);
          mk_block 104 2 0 (murmur3_x86_32 [x03; x7a] 2 0)],
         LZOCompressor, 131072)
  /\ the_fragment_start tree_contents = 106
  /\ @record_fragment_table small 1 (MetadataBlockReader_new f 106 LZOCompressor) []
     = Ret ([mk_block 108 2 0 (murmur3_x86_32 [x01; x66] 2 0)],
            mk_file tree_image 110).
Proof.
  cbv zeta. split; [|split]; vm_compute; reflexivity.
Qed.

(** ** The head of [get_blocks]: superblock and codec *)

Lemma bind_Ret_inv {A B : Type} (m : outcome A) (k : A -> outcome B) (b : B) :
  bind m k = Ret b -> exists a, m = Ret a /\ k a = Ret b.
Proof. destruct m; cbn; intros E; try discriminate. eauto. Qed.

(** What [get_blocks] returns besides the blocks is what its head fixed. *)
Lemma get_blocks_Ret_head `{Externals} (f : MMAPFile) (c0 : option Compressor)
    (block_size0 : Z) (blocks : list compressed_block) (c : Compressor)
    (block_size : Z) :
  get_blocks f c0 block_size0 = Ret (blocks, c, block_size) ->
  exists sb, verify_super_block f c0 block_size0 = Ret (sb, c, block_size).
Proof.
  unfold get_blocks. intros E.
  apply bind_Ret_inv in E as ([[sb c'] bs'] & Hhead & E).
  apply bind_Ret_inv in E as (ir & _ & E).
  apply bind_Ret_inv in E as ([d ir1] & _ & E).
  apply bind_Ret_inv in E as ([m mir] & _ & E).
  apply bind_Ret_inv in E as (fr & _ & E).
  apply bind_Ret_inv in E as ([d' fr'] & _ & E).
  apply bind_Ret_inv in E as ([m' mir'] & _ & E).
  apply bind_Ret_inv in E as (d'' & _ & E).
  injection E as _ <- <-. eauto.
Qed.

(** A codec created for an image has the identifier the image names. *)
Lemma verify_super_block_codec `{Externals} (f : MMAPFile) (block_size0 : Z)
    (sb : squashfs.super_block) (c : Compressor) (block_size : Z) :
  verify_super_block f None block_size0 = Ret (sb, c, block_size) ->
  read_super_block f = Ret sb /\ squashfs.compression sb = get_compression_value c.
Proof.
  unfold verify_super_block. intros E.
  apply bind_Ret_inv in E as (sb' & Hsb & E).
  destruct (negb (squashfs.s_magic sb' =? squashfs.magic)); [discriminate|].
  destruct (negb (squashfs.s_major sb' =? 4) || negb (squashfs.s_minor sb' =? 0));
    [discriminate|].
  apply bind_Ret_inv in E as (bs & _ & E).
  apply bind_Ret_inv in E as (c' & Hc & E).
  apply bind_Ret_inv in E as (u & _ & E).
  injection E as -> -> _. split; [exact Hsb|].
  unfold select_compressor in Hc.
  destruct (Z.eqb_spec (squashfs.compression sb) squashfs.compression_lzo) as [E1|E1].
  - destruct ENABLE_LZO; [|discriminate]. injection Hc as <-. exact E1.
  - destruct (Z.eqb_spec (squashfs.compression sb) squashfs.compression_lz4) as [E2|E2];
      [|discriminate].
    destruct ENABLE_LZ4; [|discriminate]. injection Hc as <-. exact E2.
Qed.

(** C7, as stated, on an image whose block size (131072) is not two to its
    block log (5): the superblock is accepted and the blocks are
    collected. *)
Lemma get_blocks_accepts_odd_block_log :
  let f := mk_file odd_log_image 0 in
  @read_super_block small f = Ret odd_log_super_block
  /\ squashfs.block_size odd_log_super_block = 131072
  /\ squashfs.block_log odd_log_super_block = 5
  /\ 2 ^ 5 <> 131072
  /\ @get_blocks small f None 0
     = Ret ([mk_block 98 4 0 2414964381; mk_block 104 2 0 1393557216],
            LZOCompressor, 131072).
Proof.
  cbv zeta. repeat split; try (vm_compute; reflexivity). discriminate.
Qed.

(** C7, amended: [get_blocks] reads the superblock and checks it before
    anything else (whatever the readers and the codec would do): a magic
    that is not the SquashFS magic, a version that is not 4.0, and a block
    size that differs from the block size an earlier image has fixed each
    make it throw; the block size is not compared with the block log.  An
    image with a corrupted magic makes the program exit with status 1,
    whether it is the source or the target. *)
Theorem get_blocks_verifies_super_block `{Externals} (f : MMAPFile)
    (c0 : option Compressor) (block_size0 : Z) (sb : squashfs.super_block) :
  read_super_block f = Ret sb ->
  (squashfs.s_magic sb <> squashfs.magic ->
   get_blocks f c0 block_size0
   = Throw (runtime_error "File is not a valid SquashFS image (no magic)."))
  /\ (squashfs.s_magic sb = squashfs.magic ->
      squashfs.s_major sb <> 4 \/ squashfs.s_minor sb <> 0 ->
      get_blocks f c0 block_size0 = Throw (runtime_error "File is not SquashFS 4.0"))
  /\ (squashfs.s_magic sb = squashfs.magic ->
      squashfs.s_major sb = 4 -> squashfs.s_minor sb = 0 ->
      block_size0 <> 0 -> block_size0 <> squashfs.block_size sb ->
      get_blocks f c0 block_size0
      = Throw (runtime_error "Input files have different block sizes"))
  /\ (forall argv : list string,
      (4 <= List.length argv)%nat ->
      MMAPFile_open (nth 1 argv "") = Ret (data f) -> pos f = 0 ->
      squashfs.s_magic sb <> squashfs.magic ->
      main argv = Ret (mk_run 1 [] [] []))
  /\ (forall (argv : list string) (source : MMAPFile)
        (source_blocks : list compressed_block) (c : Compressor),
      (4 <= List.length argv)%nat ->
      open_and_get_blocks (nth 1 argv "") None 0
      = Ret (source, (source_blocks, c, block_size0)) ->
      c0 = Some c ->
      MMAPFile_open (nth 2 argv "") = Ret (data f) -> pos f = 0 ->
      squashfs.s_magic sb <> squashfs.magic ->
      main argv = Ret (mk_run 1 [] [] [])).
Proof.
  intros Hsb.
  assert (squashfs.s_magic sb <> squashfs.magic ->
          get_blocks f c0 block_size0
          = Throw (runtime_error "File is not a valid SquashFS image (no magic)."))
    as Hmagic.
  { intros Hm. unfold get_blocks, verify_super_block. rewrite Hsb. cbn [bind].
    destruct (Z.eqb_spec (squashfs.s_magic sb) squashfs.magic); [contradiction|].
    reflexivity. }
  split; [exact Hmagic|]. split; [|split; [|split]].
  - intros Hm Hv. unfold get_blocks, verify_super_block. rewrite Hsb. cbn [bind].
    rewrite Hm, Z.eqb_refl. cbn [negb].
    destruct (Z.eqb_spec (squashfs.s_major sb) 4), (Z.eqb_spec (squashfs.s_minor sb) 0);
      cbn [negb orb]; try reflexivity.
    destruct Hv; contradiction.
  - intros Hm Hmaj Hmin Hnz Hne. unfold get_blocks, verify_super_block.
    rewrite Hsb. cbn [bind]. rewrite Hm, Hmaj, Hmin, !Z.eqb_refl. cbn [negb orb].
    destruct (Z.eqb_spec block_size0 0); [contradiction|].
    destruct (Z.eqb_spec block_size0 (squashfs.block_size sb)); [contradiction|].
    reflexivity.
  - intros argv Hargc Hopen Hpos Hm. unfold main.
    destruct (Nat.ltb_spec (List.length argv) 4); [lia|].
    unfold open_and_get_blocks at 1. rewrite Hopen. cbn [bind].
    assert (mk_file (data f) 0 = f) as -> by (destruct f; cbn in *; congruence).
    unfold get_blocks, verify_super_block. rewrite Hsb. cbn [bind].
    destruct (Z.eqb_spec (squashfs.s_magic sb) squashfs.magic); [contradiction|].
    reflexivity.
  - intros argv source source_blocks c Hargc Hsource -> Hopen Hpos Hm. unfold main.
    destruct (Nat.ltb_spec (List.length argv) 4); [lia|].
    rewrite Hsource.
    unfold open_and_get_blocks. rewrite Hopen. cbn [bind].
    assert (mk_file (data f) 0 = f) as -> by (destruct f; cbn in *; congruence).
    rewrite (Hmagic Hm). reflexivity.
Qed.

Lemma get_blocks_verifies_super_block_witness :
  @get_blocks small (mk_file no_magic_image 0) None 0
  = Throw (runtime_error "File is not a valid SquashFS image (no magic).")
  /\ @main small ["squashdelta"; "no_magic.sqfs"; "tree.sqfs"; "out.patch"]
     = Ret (mk_run 1 [] [] [])
  /\ @main small ["squashdelta"; "tree.sqfs"; "no_magic.sqfs"; "out.patch"]
     = Ret (mk_run 1 [] [] []).
Proof.
  pose proof (@get_blocks_verifies_super_block small (mk_file no_magic_image 0)
                None 0 no_magic_super_block) as Hsource.
  pose proof (@get_blocks_verifies_super_block small (mk_file no_magic_image 0)
                (Some LZOCompressor) 131072 no_magic_super_block) as Htarget.
  destruct Hsource as (Hthrow & _ & _ & Hmain & _); [vm_compute; reflexivity|].
  destruct Htarget as (_ & _ & _ & _ & Hmain'); [vm_compute; reflexivity|].
  split; [|split].
  - apply Hthrow. discriminate.
  - apply Hmain.
    + cbn. lia.
    + vm_compute. reflexivity.
    + reflexivity.
    + discriminate.
  - apply (Hmain' _ (mk_file tree_image 0)
             [mk_block 98 4 0 2414964381; mk_block 104 2 0 1393557216]
             LZOCompressor).
    + cbn. lia.
    + vm_compute. reflexivity.
    + reflexivity.
    + vm_compute. reflexivity.
    + reflexivity.
    + discriminate.
Defined.

(** C6, as stated, with an LZO source and a target whose identifier is 1
    (zlib): the identifiers differ, and collection of the target fails with
    the unsupported-codec error, not the codec-mismatch error. *)
Lemma get_blocks_unsupported_not_mismatch :
  @get_blocks small (mk_file tree_image 0) None 0
  = Ret ([mk_block 98 4 0 2414964381; mk_block 104 2 0 1393557216],
         LZOCompressor, 131072)
  /\ @read_super_block small (mk_file tree_image 0) = Ret tree_super_block
  /\ @read_super_block small (mk_file zlib_image 0) = Ret zlib_super_block
  /\ squashfs.compression zlib_super_block <> squashfs.compression tree_super_block
  /\ @get_blocks small (mk_file zlib_image 0) (Some LZOCompressor) 131072
     = Throw (runtime_error "Unsupported compression algorithm.")
  /\ @get_blocks small (mk_file zlib_image 0) (Some LZOCompressor) 131072
     <> Throw (runtime_error "The two files use different compressors").
Proof.
  repeat split; try (vm_compute; reflexivity); discriminate.
Qed.

(** Once [j] stands on an element the two models of the walk agree. *)
Lemma built_hash_data_blocks_Some `{Externals}
    (end_node : list compressed_block -> compressed_block)
    (i : list compressed_block) :
  forall (hf : MMAPFile) (bj : compressed_block),
    built.hash_data_blocks end_node hf (Some bj) i
    = hash_data_blocks hf (Some bj) i.
Proof.
  induction i as [|bi i' IH]; intros hf bj; [reflexivity|].
  cbn [built.hash_data_blocks hash_data_blocks].
  destruct (offset bi =? offset bj).
  - destruct (assert (length bi =? length bj)); cbn [bind]; try reflexivity.
    apply IH.
  - destruct (read_array (seek_beg hf (offset bi)) (length bi))
      as [[bytes hf']| | |]; cbn [bind]; try reflexivity.
    rewrite IH. reflexivity.
Qed.

Lemma built_get_blocks_Ret_head `{Externals}
    (end_node : list compressed_block -> compressed_block) (f : MMAPFile)
    (c0 : option Compressor) (block_size0 : Z)
    (blocks : list compressed_block) (c : Compressor) (block_size : Z) :
  built.get_blocks end_node f c0 block_size0 = Ret (blocks, c, block_size) ->
  exists sb, verify_super_block f c0 block_size0 = Ret (sb, c, block_size).
Proof.
  unfold built.get_blocks. intros E.
  apply bind_Ret_inv in E as ([[sb c'] bs'] & Hhead & E).
  apply bind_Ret_inv in E as (ir & _ & E).
  apply bind_Ret_inv in E as ([d ir1] & _ & E).
  apply bind_Ret_inv in E as ([m mir] & _ & E).
  apply bind_Ret_inv in E as (fr & _ & E).
  apply bind_Ret_inv in E as ([d' fr'] & _ & E).
  apply bind_Ret_inv in E as ([m' mir'] & _ & E).
  apply bind_Ret_inv in E as (d'' & _ & E).
  injection E as _ <- <-. eauto.
Qed.

(** C6, amended: when the first image has been accepted, which fixes the
    codec and the block size, and the second image passes the magic,
    version and block-size checks and names a codec that the build holds
    and that differs from the first image's, collection of the second image
    fails with the codec-mismatch error at its superblock, before anything
    else of that image is read (whatever the readers would do and whatever
    the end node of the list holds); and once the first image has been
    collected the program exits with status 1, having written nothing. *)
Theorem second_image_codec_mismatch `{Externals} (p : built.platform)
    (argv : list string) (source_bytes target_bytes : list byte)
    (sb1 sb2 : squashfs.super_block) (c1 c2 : Compressor) (block_size : Z) :
  verify_super_block (mk_file source_bytes 0) None 0 = Ret (sb1, c1, block_size) ->
  read_super_block (mk_file target_bytes 0) = Ret sb2 ->
  squashfs.s_magic sb2 = squashfs.magic ->
  squashfs.s_major sb2 = 4 -> squashfs.s_minor sb2 = 0 ->
  block_size = 0 \/ block_size = squashfs.block_size sb2 ->
  squashfs.compression sb2 = get_compression_value c2 ->
  codec_enabled c2 = true ->
  squashfs.compression sb2 <> squashfs.compression sb1 ->
  verify_super_block (mk_file target_bytes 0) (Some c1) block_size
  = Throw (runtime_error "The two files use different compressors")
  /\ get_blocks (mk_file target_bytes 0) (Some c1) block_size
     = Throw (runtime_error "The two files use different compressors")
  /\ (forall end_node,
        built.get_blocks end_node (mk_file target_bytes 0) (Some c1) block_size
        = Throw (runtime_error "The two files use different compressors"))
  /\ (forall source_blocks : list compressed_block,
        (4 <= List.length argv)%nat ->
        MMAPFile_open (nth 1 argv "") = Ret source_bytes ->
        MMAPFile_open (nth 2 argv "") = Ret target_bytes ->
        built.get_blocks (built.source_end_node p) (mk_file source_bytes 0) None 0
        = Ret (source_blocks, c1, block_size) ->
        built.main p argv = Ret (mk_run 1 [] [] []))
  /\ (forall source_blocks : list compressed_block,
        (4 <= List.length argv)%nat ->
        MMAPFile_open (nth 1 argv "") = Ret source_bytes ->
        MMAPFile_open (nth 2 argv "") = Ret target_bytes ->
        get_blocks (mk_file source_bytes 0) None 0
        = Ret (source_blocks, c1, block_size) ->
        main argv = Ret (mk_run 1 [] [] [])).
Proof.
  intros Hsource Hsb2 Hm Hmaj Hmin Hbs Hc2 Hen Hne.
  destruct (verify_super_block_codec _ _ _ _ _ Hsource) as (_ & Hc1).
  assert (verify_super_block (mk_file target_bytes 0) (Some c1) block_size
          = Throw (runtime_error "The two files use different compressors"))
    as Hhead.
  { unfold verify_super_block. rewrite Hsb2. cbn [bind].
    rewrite Hm, Hmaj, Hmin, !Z.eqb_refl. cbn [negb orb].
    assert ((if block_size =? 0 then Ret (squashfs.block_size sb2)
             else if negb (block_size =? squashfs.block_size sb2)
                  then Throw (runtime_error "Input files have different block sizes")
                  else Ret block_size) = Ret (squashfs.block_size sb2)
            \/ (if block_size =? 0 then Ret (squashfs.block_size sb2)
                else if negb (block_size =? squashfs.block_size sb2)
                     then Throw (runtime_error "Input files have different block sizes")
                     else Ret block_size) = Ret block_size) as [-> | ->].
    { destruct (Z.eqb_spec block_size 0); [left; reflexivity|].
      destruct Hbs as [?|Hbs]; [contradiction|].
      right. rewrite Hbs at 1. rewrite Z.eqb_refl. reflexivity. }
    all: cbn [bind]; unfold select_compressor; rewrite Hc2;
      rewrite Hc2, Hc1 in Hne; unfold codec_enabled in Hen;
      destruct c2, c1; cbn in Hne |- *; try contradiction;
      rewrite Hen; reflexivity. }
  assert (get_blocks (mk_file target_bytes 0) (Some c1) block_size
          = Throw (runtime_error "The two files use different compressors"))
    as Htarget.
  { unfold get_blocks. rewrite Hhead. reflexivity. }
  assert (forall end_node,
            built.get_blocks end_node (mk_file target_bytes 0) (Some c1) block_size
            = Throw (runtime_error "The two files use different compressors"))
    as Hbuilt.
  { intros end_node. unfold built.get_blocks. rewrite Hhead. reflexivity. }
  split; [exact Hhead|]. split; [exact Htarget|]. split; [exact Hbuilt|]. split.
  - intros source_blocks Hargc Hopen1 Hopen2 Hcollected. unfold built.main.
    destruct (Nat.ltb_spec (List.length argv) 4); [lia|].
    unfold built.open_and_get_blocks. rewrite Hopen1. cbn [bind].
    rewrite Hcollected. cbn [bind]. rewrite Hopen2. cbn [bind].
    rewrite Hbuilt. reflexivity.
  - intros source_blocks Hargc Hopen1 Hopen2 Hcollected. unfold main.
    destruct (Nat.ltb_spec (List.length argv) 4); [lia|].
    unfold open_and_get_blocks. rewrite Hopen1. cbn [bind].
    rewrite Hcollected. cbn [bind]. rewrite Hopen2. cbn [bind].
    rewrite Htarget. reflexivity.
Qed.

Lemma second_image_codec_mismatch_witness :
  @get_blocks small (mk_file lz4_image 0) (Some LZOCompressor) 131072
  = Throw (runtime_error "The two files use different compressors")
  /\ @built.main small small_platform
       ["squashdelta"; "file.sqfs"; "lz4.sqfs"; "out.patch"]
     = Ret (mk_run 1 [] [] [])
  /\ @main small ["squashdelta"; "tree.sqfs"; "lz4.sqfs"; "out.patch"]
     = Ret (mk_run 1 [] [] []).
Proof.
  destruct (@second_image_codec_mismatch small small_platform
              ["squashdelta"; "file.sqfs"; "lz4.sqfs"; "out.patch"]
              (file_image_bytes x01) lz4_image file_super_block lz4_super_block
              LZOCompressor LZ4Compressor 131072)
    as (_ & Hthrow & _ & Hbuilt & _).
  - vm_compute. reflexivity.
  - vm_compute. reflexivity.
  - reflexivity.
  - reflexivity.
  - reflexivity.
  - right. reflexivity.
  - reflexivity.
  - reflexivity.
  - discriminate.
  - destruct (@second_image_codec_mismatch small small_platform
                ["squashdelta"; "tree.sqfs"; "lz4.sqfs"; "out.patch"]
                tree_image lz4_image tree_super_block lz4_super_block
                LZOCompressor LZ4Compressor 131072)
      as (_ & _ & _ & _ & Hmain).
    + vm_compute. reflexivity.
    + vm_compute. reflexivity.
    + reflexivity.
    + reflexivity.
    + reflexivity.
    + right. reflexivity.
    + reflexivity.
    + reflexivity.
    + discriminate.
    + split; [exact Hthrow|]. split.
      * apply (Hbuilt [mk_block 96 3 0 4061361090]).
        -- cbn. lia.
        -- vm_compute. reflexivity.
        -- vm_compute. reflexivity.
        -- vm_compute. reflexivity.
      * apply (Hmain [mk_block 98 4 0 2414964381; mk_block 104 2 0 1393557216]).
        -- cbn. lia.
        -- vm_compute. reflexivity.
        -- vm_compute. reflexivity.
        -- vm_compute. reflexivity.
Defined.

(** ** Expansion leaves the descriptors alone *)

Lemma and_then_frame {A : Type} (P : unpacking -> Prop) (r : outcome A)
    (outf : SparseFileWriter) (inf : MMAPFile) (cb : list compressed_block)
    (k : A -> unpacking) :
  (forall e, e <> Ret tt -> P (mk_unpacking outf inf cb e)) ->
  (forall a, r = Ret a -> P (k a)) ->
  P (and_then r outf inf cb k).
Proof.
  intros Hfail Hret. destruct r; cbn; auto; apply Hfail; discriminate.
Qed.

Lemma read_array_data (f : MMAPFile) (n : Z) (bytes : list byte) (f' : MMAPFile) :
  read_array f n = Ret (bytes, f') -> data f' = data f.
Proof.
  unfold read_array. destruct (_ && _); [|discriminate].
  intros E. injection E as _ <-. reflexivity.
Qed.

Lemma copy_around_blocks_data (i : list compressed_block) :
  forall (outf : SparseFileWriter) (inf : MMAPFile) (prev_offset : Z),
    data (u_inf (fst (copy_around_blocks outf inf prev_offset i))) = data inf.
Proof.
  induction i as [|b i' IH]; intros outf inf prev_offset; cbn [copy_around_blocks].
  - reflexivity.
  - destruct (negb (prev_offset <=? offset b)); [reflexivity|].
    destruct (read_array inf (wrap64 (offset b - prev_offset)))
      as [[bytes inf1]| | |] eqn:Hread; try reflexivity.
    rewrite IH. cbn. eapply read_array_data. exact Hread.
Qed.

Lemma write_passthrough_data (outf : SparseFileWriter) (inf : MMAPFile)
    (cb : list compressed_block) :
  data (u_inf (write_passthrough outf inf cb)) = data inf.
Proof.
  unfold write_passthrough.
  pose proof (copy_around_blocks_data cb outf (seek_beg inf 0) 0) as Hcopy.
  destruct (copy_around_blocks outf (seek_beg inf 0) 0 cb) as [u p].
  cbn in Hcopy. destruct (u_end u); cbn; try exact Hcopy.
  destruct (read_array (u_inf u) (wrap64 (getlen (u_inf u) - p)))
    as [[bytes inf1]| | |] eqn:Hread; cbn; try exact Hcopy.
  rewrite (read_array_data _ _ _ _ Hread). exact Hcopy.
Qed.

Lemma write_decompressed_frame `{Externals} (c : Compressor) (block_size : Z)
    (i : list compressed_block) :
  forall (outf : SparseFileWriter) (inf : MMAPFile),
    let u := write_decompressed outf inf c block_size i in
    Forall2 (fun b b' => b' = b \/ filled (data inf) c block_size b b') i (u_cb u)
    /\ (u_end u = Ret tt -> Forall2 (filled (data inf) c block_size) i (u_cb u)).
Proof.
  induction i as [|b i' IH]; intros outf inf; cbn [write_decompressed].
  - cbn. split; constructor.
  - cbv zeta.
    assert (forall e, e <> Ret tt ->
              let u := mk_unpacking outf (seek_beg inf (offset b)) (b :: i') e in
              Forall2 (fun b0 b' => b' = b0 \/ filled (data inf) c block_size b0 b')
                (b :: i') (u_cb u)
              /\ (u_end u = Ret tt ->
                  Forall2 (filled (data inf) c block_size) (b :: i') (u_cb u)))
      as Hfail.
    { intros e He. cbn. split; [|intros; contradiction].
      clear. induction (b :: i'); constructor; auto. }
    apply (and_then_frame
             (fun u => Forall2 (fun b0 b' => b' = b0 \/ filled (data inf) c block_size b0 b')
                         (b :: i') (u_cb u)
                       /\ (u_end u = Ret tt ->
                           Forall2 (filled (data inf) c block_size) (b :: i') (u_cb u)))).
    { exact Hfail. }
    intros [src inf1] Hread.
    pose proof (read_array_data _ _ _ _ Hread) as Hdata. cbn in Hdata.
    apply (and_then_frame
             (fun u => Forall2 (fun b0 b' => b' = b0 \/ filled (data inf) c block_size b0 b')
                         (b :: i') (u_cb u)
                       /\ (u_end u = Ret tt ->
                           Forall2 (filled (data inf) c block_size) (b :: i') (u_cb u)))).
    { intros e He. cbn. split; [|intros; contradiction].
      clear. induction (b :: i'); constructor; auto. }
    intros buf Hdec. cbn.
    specialize (IH (write outf buf) inf1). cbv zeta in IH. rewrite Hdata in IH.
    destruct IH as (IH1 & IH2).
    assert (filled (data inf) c block_size b
              (set_uncompressed_length b (Z.of_nat (List.length buf)))) as Hb.
    { exists src, buf. split; [|split]; [|exact Hdec|reflexivity].
      unfold on_disk. unfold seek_beg in Hread.
      destruct inf as [d p]. cbn in *. rewrite Hread. reflexivity. }
    split.
    + constructor; [right; exact Hb | exact IH1].
    + intros Hend. constructor; [exact Hb | auto].
Qed.

Lemma filled_keeps_fields `{Externals} (image : list byte) (c : Compressor)
    (block_size : Z) (l l' : list compressed_block) :
  Forall2 (fun b b' => b' = b \/ filled image c block_size b b') l l' ->
  map offset l' = map offset l /\ map length l' = map length l
  /\ map hash l' = map hash l.
Proof.
  induction 1 as [|b b' l l' Hb _ (IH1 & IH2 & IH3)]; [repeat split|].
  cbn. rewrite IH1, IH2, IH3.
  destruct Hb as [->|(src & buf & _ & _ & ->)]; repeat split.
Qed.

(** C9: whatever [write_unpacked_file] does and however it ends, the list
    keeps its size and order, and every descriptor keeps its offset, length
    and hash; a descriptor is either untouched or has its
    [uncompressed_length] set to the number of bytes that decompressing its
    on-disk bytes produced, and when the call returns every descriptor has
    been filled in that way. *)
Theorem write_unpacked_file_frame `{Externals} (outf : SparseFileWriter)
    (inf : MMAPFile) (cb : list compressed_block) (c : Compressor)
    (block_size : Z) :
  let u := write_unpacked_file outf inf cb c block_size in
  List.length (u_cb u) = List.length cb
  /\ map offset (u_cb u) = map offset cb
  /\ map length (u_cb u) = map length cb
  /\ map hash (u_cb u) = map hash cb
  /\ Forall2 (fun b b' => b' = b \/ filled (data inf) c block_size b b') cb (u_cb u)
  /\ (u_end u = Ret tt -> Forall2 (filled (data inf) c block_size) cb (u_cb u)).
Proof.
  cbv zeta.
  assert (Forall2 (fun b b' => b' = b \/ filled (data inf) c block_size b b') cb
            (u_cb (write_unpacked_file outf inf cb c block_size))
          /\ (u_end (write_unpacked_file outf inf cb c block_size) = Ret tt ->
              Forall2 (filled (data inf) c block_size) cb
                (u_cb (write_unpacked_file outf inf cb c block_size)))) as (Hall & Hret).
  { unfold write_unpacked_file.
    apply (and_then_frame
             (fun u => Forall2 (fun b b' => b' = b \/ filled (data inf) c block_size b b')
                         cb (u_cb u)
                       /\ (u_end u = Ret tt ->
                           Forall2 (filled (data inf) c block_size) cb (u_cb u)))).
    - intros e He. cbn. split; [|intros; contradiction].
      clear. induction cb; constructor; auto.
    - intros [] Hpass.
      pose proof (write_passthrough_data outf inf cb) as Hdata.
      pose proof (write_decompressed_frame c block_size cb
                    (u_outf (write_passthrough outf inf cb))
                    (u_inf (write_passthrough outf inf cb))) as Hdec.
      cbv zeta in Hdec. rewrite Hdata in Hdec. exact Hdec. }
  split; [|split; [|split; [|split; [|split]]]]; try assumption.
  - symmetry. eapply Forall2_length. exact Hall.
  - apply (filled_keeps_fields _ _ _ _ _ Hall).
  - apply (filled_keeps_fields _ _ _ _ _ Hall).
  - apply (filled_keeps_fields _ _ _ _ _ Hall).
Qed.

Lemma write_unpacked_file_frame_witness :
  let cb := [mk_block 98 4 0 2414964381; mk_block 104 2 0 1393557216] in
  let u := @write_unpacked_file small [] (mk_file tree_image 0) cb
             LZOCompressor 131072 in
  u_end u = Ret tt
  /\ Forall2 (@filled small tree_image LZOCompressor 131072) cb (u_cb u)
  /\ map uncompressed_length (u_cb u) = [3; 3].
Proof.
  cbv zeta.
  pose proof (@write_unpacked_file_frame small [] (mk_file tree_image 0)
                [mk_block 98 4 0 2414964381; mk_block 104 2 0 1393557216]
                LZOCompressor 131072) as (_ & _ & _ & _ & _ & Hfilled).
  split; [vm_compute; reflexivity|]. split.
  - apply Hfilled. vm_compute. reflexivity.
  - vm_compute. reflexivity.
Defined.

(** ** Byte order *)

Lemma byte_of_Z_mod (z : Z) : byte_of_Z (z mod 256) = byte_of_Z z.
Proof. unfold byte_of_Z. rewrite Z.mod_mod by lia. reflexivity. Qed.

Lemma byte_of_Z_bits (y z : Z) :
  (forall i, 0 <= i < 8 -> Z.testbit y i = Z.testbit z i) ->
  byte_of_Z y = byte_of_Z z.
Proof.
  intros Hbits. rewrite <- (byte_of_Z_mod y), <- (byte_of_Z_mod z). f_equal.
  change 256 with (2 ^ 8). apply Z.bits_inj'. intros i Hi.
  rewrite !Z.testbit_mod_pow2 by lia.
  destruct (Z.ltb_spec i 8); [|reflexivity]. cbn [andb]. apply Hbits. lia.
Qed.

Lemma le_bytes_mod (n : nat) :
  forall z : Z, le_bytes n (z mod 256 ^ Z.of_nat n) = le_bytes n z.
Proof.
  induction n as [|n IH]; intros z; [reflexivity|].
  cbn [le_bytes]. f_equal.
  - rewrite <- (byte_of_Z_mod (z mod _)), <- (byte_of_Z_mod z). f_equal.
    rewrite Nat2Z.inj_succ, Z.pow_succ_r by lia.
    rewrite Z.rem_mul_r by lia.
    rewrite (Z.mul_comm 256 (_ mod _)), Z.mod_add by lia. apply Z.mod_mod. lia.
  - rewrite <- IH. rewrite <- (IH (z / 256)). f_equal.
    rewrite Nat2Z.inj_succ, Z.pow_succ_r by lia.
    rewrite Z.rem_mul_r by lia.
    rewrite (Z.mul_comm 256 (_ mod _)), Z.div_add by lia.
    rewrite (Z.div_small (z mod 256)) by (apply Z.mod_pos_bound; lia).
    rewrite Z.add_0_l. rewrite Z.mod_mod by lia. reflexivity.
Qed.

Lemma le_bytes_app (n m : nat) :
  forall z : Z,
    le_bytes (n + m) z = le_bytes n z ++ le_bytes m (z / 256 ^ Z.of_nat n).
Proof.
  induction n as [|n IH]; intros z.
  - cbn. rewrite Z.div_1_r. reflexivity.
  - cbn [Nat.add le_bytes app]. f_equal. rewrite IH. f_equal. f_equal.
    rewrite Nat2Z.inj_succ, Z.pow_succ_r by lia.
    rewrite Z.div_div by lia. reflexivity.
Qed.

Lemma ones_bit (n m : Z) :
  0 <= n -> Z.testbit (Z.ones n) m = (0 <=? m) && (m <? n).
Proof.
  intros Hn. destruct (Z.leb_spec 0 m), (Z.ltb_spec m n); cbn [andb].
  - apply Z.ones_spec_low. lia.
  - apply Z.ones_spec_high. lia.
  - apply Z.testbit_neg_r. lia.
  - apply Z.testbit_neg_r. lia.
Qed.

Lemma mask_bit (k : Z) :
  Z.testbit (Z.shiftl (Z.ones 8) 8) k = (8 <=? k) && (k <? 16).
Proof.
  destruct (Z.leb_spec 0 k) as [Hk|Hk].
  - rewrite Z.shiftl_spec, ones_bit by lia.
    destruct (Z.leb_spec 0 (k - 8)), (Z.leb_spec 8 k), (Z.ltb_spec (k - 8) 8),
      (Z.ltb_spec k 16); try lia; reflexivity.
  - rewrite Z.testbit_neg_r by lia.
    destruct (Z.leb_spec 8 k); [lia|reflexivity].
Qed.

Lemma bswap32_bit (x m : Z) :
  0 <= m ->
  Z.testbit (bswap32 x) m
  = if m <? 8 then Z.testbit x (m + 24)
    else if m <? 16 then Z.testbit x (m + 8)
    else if m <? 24 then Z.testbit x (m - 8)
    else if m <? 32 then Z.testbit x (m - 24)
    else false.
Proof.
  intros Hm. unfold bswap32.
  change 0xff00 with (Z.shiftl (Z.ones 8) 8). change 0xff with (Z.ones 8).
  rewrite !Z.lor_spec, !Z.land_spec.
  rewrite !Z.shiftl_spec, !Z.shiftr_spec, !Z.land_spec by lia.
  rewrite mask_bit, !ones_bit by lia.
  destruct (Z.ltb_spec m 8), (Z.ltb_spec m 16), (Z.ltb_spec m 24),
    (Z.ltb_spec m 32); try lia;
    destruct (Z.leb_spec 0 (m - 24)), (Z.leb_spec 8 (m - 8)),
      (Z.leb_spec 0 (m - 8)), (Z.leb_spec 0 m); try lia;
    destruct (Z.ltb_spec (m - 24) 8), (Z.ltb_spec (m - 8) 16),
      (Z.ltb_spec (m - 8) 8); try lia;
    cbn [andb orb];
    rewrite ?andb_false_r, ?andb_true_r, ?orb_false_r, ?orb_false_l;
    reflexivity.
Qed.

Lemma le_bytes_4 (y : Z) :
  le_bytes 4 y
  = [byte_of_Z y; byte_of_Z (y / 2 ^ 8); byte_of_Z (y / 2 ^ 16);
     byte_of_Z (y / 2 ^ 24)].
Proof.
  cbn [le_bytes]. rewrite !Z.div_div by lia. reflexivity.
Qed.

Lemma bswap32_bytes (x : Z) : le_bytes 4 (bswap32 x) = be_bytes 4 x.
Proof.
  unfold be_bytes. rewrite !le_bytes_4. cbn [rev app].
  assert (forall k, 0 <= k <= 3 ->
            byte_of_Z (bswap32 x / 2 ^ (8 * k)) = byte_of_Z (x / 2 ^ (8 * (3 - k))))
    as Hbyte.
  { intros k Hk. apply byte_of_Z_bits. intros i Hi.
    rewrite !Z.div_pow2_bits by lia. rewrite bswap32_bit by lia.
    assert (k = 0 \/ k = 1 \/ k = 2 \/ k = 3) as [E|[E|[E|E]]] by lia; subst k.
    - destruct (Z.ltb_spec (i + 8 * 0) 8); [f_equal; lia|lia].
    - destruct (Z.ltb_spec (i + 8 * 1) 8); [lia|].
      destruct (Z.ltb_spec (i + 8 * 1) 16); [f_equal; lia|lia].
    - destruct (Z.ltb_spec (i + 8 * 2) 8); [lia|].
      destruct (Z.ltb_spec (i + 8 * 2) 16); [lia|].
      destruct (Z.ltb_spec (i + 8 * 2) 24); [f_equal; lia|lia].
    - destruct (Z.ltb_spec (i + 8 * 3) 8); [lia|].
      destruct (Z.ltb_spec (i + 8 * 3) 16); [lia|].
      destruct (Z.ltb_spec (i + 8 * 3) 24); [lia|].
      destruct (Z.ltb_spec (i + 8 * 3) 32); [f_equal; lia|lia]. }
  assert (byte_of_Z (bswap32 x) = byte_of_Z (x / 2 ^ 24)) as H0.
  { rewrite <- (Z.div_1_r (bswap32 x)). exact (Hbyte 0 ltac:(lia)). }
  assert (byte_of_Z (bswap32 x / 2 ^ 8) = byte_of_Z (x / 2 ^ 16)) as H1
    by exact (Hbyte 1 ltac:(lia)).
  assert (byte_of_Z (bswap32 x / 2 ^ 16) = byte_of_Z (x / 2 ^ 8)) as H2
    by exact (Hbyte 2 ltac:(lia)).
  assert (byte_of_Z (bswap32 x / 2 ^ 24) = byte_of_Z x) as H3.
  { rewrite <- (Z.div_1_r x) at 2. exact (Hbyte 3 ltac:(lia)). }
  congruence.
Qed.

Lemma bswap32_range (x : Z) : 0 <= bswap32 x < 2 ^ 32.
Proof.
  assert (0 <= bswap32 x) as Hnn.
  { unfold bswap32.
    repeat (apply Z.lor_nonneg; split);
      try (apply Z.shiftl_nonneg); apply Z.land_nonneg; right; lia. }
  split; [exact Hnn|].
  destruct (Z.eq_dec (bswap32 x) 0) as [->|Hnz]; [lia|].
  apply Z.log2_lt_pow2; [lia|].
  destruct (Z_lt_le_dec (Z.log2 (bswap32 x)) 32) as [?|Hge]; [assumption|].
  assert (Z.testbit (bswap32 x) (Z.log2 (bswap32 x)) = true) as Hbit
    by (apply Z.bit_log2; lia).
  rewrite bswap32_bit in Hbit by lia.
  repeat match type of Hbit with
         | context [?a <? ?b] => destruct (Z.ltb_spec a b); [lia|]
         end.
  discriminate.
Qed.

Lemma host_bytes_htonl `{Externals} (x : Z) :
  host_bytes 4 (htonl x) = be_bytes 4 x.
Proof.
  unfold host_bytes, htonl. destruct little_endian; [apply bswap32_bytes|reflexivity].
Qed.

Lemma lor_shiftl_32 (a b : Z) :
  0 <= b < 2 ^ 32 -> Z.lor (Z.shiftl a 32) b = a * 2 ^ 32 + b.
Proof.
  intros Hb. rewrite <- Z.shiftl_mul_pow2 by lia.
  rewrite <- Z.add_lor_land.
  assert (Z.land (Z.shiftl a 32) b = 0) as ->; [|lia].
  apply Z.bits_inj'. intros i Hi. rewrite Z.land_spec, Z.bits_0.
  destruct (Z_lt_le_dec i 32) as [Hlt|Hge].
  - rewrite Z.shiftl_spec_low by lia. reflexivity.
  - destruct (Z.eq_dec b 0) as [->|Hnz]; [rewrite Z.bits_0; apply andb_false_r|].
    rewrite (Z.bits_above_log2 b i); [apply andb_false_r|lia|].
    assert (Z.log2 b < 32) by (apply Z.log2_lt_pow2; lia). lia.
Qed.

Lemma host_bytes_htonll `{Externals} (x : Z) :
  host_bytes 8 (htonll x) = be_bytes 8 x.
Proof.
  unfold host_bytes, htonll, htonl. destruct little_endian; [|reflexivity].
  set (lo := wrap32 (Z.land x 0xFFFFFFFF)). set (hi := wrap32 (Z.shiftr x 32)).
  rewrite lor_shiftl_32 by apply bswap32_range.
  unfold be_bytes.
  change 8%nat with (4 + 4)%nat. rewrite !le_bytes_app.
  change (256 ^ Z.of_nat 4) with (2 ^ 32).
  rewrite rev_app_distr. f_equal.
  - rewrite <- le_bytes_mod. change (256 ^ Z.of_nat 4) with (2 ^ 32).
    rewrite Z.add_comm, Z.mod_add by lia.
    rewrite Z.mod_small by apply bswap32_range.
    rewrite bswap32_bytes. unfold be_bytes. f_equal. subst hi. unfold wrap32.
    rewrite Z.shiftr_div_pow2 by lia.
    change (2 ^ 32) with (256 ^ Z.of_nat 4). apply le_bytes_mod.
  - rewrite Z.div_add_l by lia.
    rewrite (Z.div_small (bswap32 hi)) by apply bswap32_range.
    rewrite Z.add_0_r, bswap32_bytes. unfold be_bytes. f_equal. subst lo.
    unfold wrap32. change 0xFFFFFFFF with (Z.ones 32). rewrite Z.land_ones by lia.
    rewrite Z.mod_mod by lia.
    change (2 ^ 32) with (256 ^ Z.of_nat 4). apply le_bytes_mod.
Qed.

Lemma be_bytes_wrap32 (z : Z) : be_bytes 4 (wrap32 z) = be_bytes 4 z.
Proof. unfold be_bytes, wrap32. f_equal. apply (le_bytes_mod 4). Qed.

Lemma be_bytes_wrap64 (z : Z) : be_bytes 8 (wrap64 z) = be_bytes 8 z.
Proof. unfold be_bytes, wrap64. f_equal. apply (le_bytes_mod 8). Qed.

Lemma Z_of_byte_of_Z (z : Z) : Z_of_byte (byte_of_Z z) = z mod 256.
Proof.
  unfold Z_of_byte, byte_of_Z.
  pose proof (Z.mod_pos_bound z 256 ltac:(lia)) as Hb.
  destruct (Byte.of_N (Z.to_N (z mod 256))) as [b|] eqn:E.
  - apply Byte.to_of_N in E. rewrite E. rewrite Z2N.id by lia. reflexivity.
  - apply Byte.of_N_None_iff in E. lia.
Qed.

Lemma le_value_le_bytes (n : nat) :
  forall z : Z, le_value (le_bytes n z) = z mod 256 ^ Z.of_nat n.
Proof.
  induction n as [|n IH]; intros z.
  - cbn. rewrite Z.mod_1_r. reflexivity.
  - cbn [le_bytes le_value]. rewrite IH, Z_of_byte_of_Z.
    rewrite Nat2Z.inj_succ, Z.pow_succ_r by lia.
    rewrite Z.rem_mul_r by lia. reflexivity.
Qed.

Lemma read_back_write (outf : SparseFileWriter) (bytes : list byte) :
  read_back (write outf bytes) = read_back outf ++ bytes.
Proof.
  unfold read_back, write. rewrite flat_map_app. cbn. rewrite app_nil_r. reflexivity.
Qed.

(** ** The block index *)

Lemma le_bytes_length (n : nat) : forall z : Z, List.length (le_bytes n z) = n.
Proof. induction n as [|n IH]; intros z; cbn; [reflexivity|]. now rewrite IH. Qed.

Lemma be_bytes_length (n : nat) (z : Z) : List.length (be_bytes n z) = n.
Proof. unfold be_bytes. rewrite length_rev. apply le_bytes_length. Qed.

Lemma write_records `{Externals} (cb : list compressed_block) :
  forall outf : SparseFileWriter,
    read_back
      (fold_left
         (fun outf i =>
            write outf
              (serialized_compressed_block_bytes
                 (mk_serialized (htonll (wrap64 (offset i)))
                    (htonl (wrap32 (length i)))
                    (htonl (wrap32 (uncompressed_length i))))))
         cb outf)
    = read_back outf ++ index_records cb.
Proof.
  induction cb as [|b cb IH]; intros outf; cbn [fold_left].
  - cbn. rewrite app_nil_r. reflexivity.
  - rewrite IH, read_back_write. rewrite <- app_assoc. f_equal.
    unfold index_records. cbn [flat_map]. f_equal.
    unfold serialized_compressed_block_bytes, index_record.
    cbn [s_offset s_length s_uncompressed_length].
    rewrite host_bytes_htonll, !host_bytes_htonl.
    rewrite be_bytes_wrap64, !be_bytes_wrap32. reflexivity.
Qed.

Lemma write_block_list_bytes `{Externals} (c : Compressor)
    (outf : SparseFileWriter) (cb : list compressed_block) (at_end : bool) :
  let dh := mk_header (htonl sqdelta_magic) (htonl 0)
              (htonl (wrap32 (get_compression_value c))) 0 in
  let header :=
    index_header (get_compression_value c) (Z.of_nat (List.length cb)) in
  read_back (write_block_list outf dh cb at_end)
  = if at_end then read_back outf ++ index_records cb ++ header
    else read_back outf ++ header ++ index_records cb.
Proof.
  cbv zeta. unfold write_block_list.
  assert (sqdelta_header_bytes
            (mk_header (htonl sqdelta_magic) (htonl 0)
               (htonl (wrap32 (get_compression_value c)))
               (htonl (wrap32 (Z.of_nat (List.length cb)))))
          = index_header (get_compression_value c) (Z.of_nat (List.length cb)))
    as Hheader.
  { unfold sqdelta_header_bytes, index_header. cbn [magic flags compression block_count].
    rewrite !host_bytes_htonl, !be_bytes_wrap32. reflexivity. }
  cbn [magic flags compression]. rewrite Hheader.
  destruct at_end; cbn [negb].
  - rewrite read_back_write, write_records. rewrite <- app_assoc. reflexivity.
  - rewrite write_records, read_back_write. rewrite <- app_assoc. reflexivity.
Qed.

Lemma write_expanded_returned `{Externals} (f : MMAPFile)
    (blocks blocks' : list compressed_block) (c : Compressor) (block_size : Z)
    (dh : sqdelta_header) (temp : SparseFileWriter) (x : unit) :
  write_expanded f blocks c block_size dh = (blocks', temp, Ret x) ->
  exists expanded : SparseFileWriter,
    temp = write_block_list expanded dh blocks' true.
Proof.
  unfold write_expanded.
  destruct (TemporarySparseFileWriter_open (getlen f)); try discriminate.
  destruct (u_end (write_unpacked_file [] f blocks c block_size)) eqn:Hend;
    try discriminate.
  intros E. inversion E. subst. eexists. reflexivity.
Qed.

(** C8: with the header [main] prepares, [write_block_list] emits one
    16-byte record [{offset u64, length u32, uncompressed_length u32}] per
    descriptor and one 16-byte header [{magic 0x5371CEB4, flags 0,
    compression, block_count}], every integer big-endian on either kind of
    host, the block count being the number of descriptors; the header comes
    after the records by default and before them when [at_end] is false.
    In a run that exits with status 0, each expanded file ends with the
    records of its list followed by the header, and the patch file is the
    header, the records of the source list, and then what the differ
    wrote. *)
Theorem write_block_list_layout `{Externals} (c : Compressor)
    (outf : SparseFileWriter) (cb : list compressed_block) :
  Z.of_nat (List.length cb) < 2 ^ 32 ->
  let dh := mk_header (htonl sqdelta_magic) (htonl 0)
              (htonl (wrap32 (get_compression_value c))) 0 in
  let header :=
    index_header (get_compression_value c) (Z.of_nat (List.length cb)) in
  read_back (write_block_list outf dh cb true)
  = read_back outf ++ index_records cb ++ header
  /\ read_back (write_block_list outf dh cb false)
     = read_back outf ++ header ++ index_records cb
  /\ List.length header = 16%nat
  /\ Forall (fun b => List.length (index_record b) = 16%nat) cb
  /\ le_value (rev (skipn 12 header)) = Z.of_nat (List.length cb)
  /\ (forall (argv : list string) (r : run),
      main argv = Ret r -> exit_status r = 0 ->
      exists (codec : Compressor) (source_blocks target_blocks : list compressed_block)
             (source_expanded target_expanded : list byte),
        read_back (source_temp r)
        = source_expanded ++ index_records source_blocks
          ++ index_header (get_compression_value codec)
               (Z.of_nat (List.length source_blocks))
        /\ read_back (target_temp r)
           = target_expanded ++ index_records target_blocks
             ++ index_header (get_compression_value codec)
                  (Z.of_nat (List.length target_blocks))
        /\ read_back (patch_out r)
           = index_header (get_compression_value codec)
               (Z.of_nat (List.length source_blocks))
             ++ index_records source_blocks
             ++ snd (xdelta3 (read_back (source_temp r))
                             (read_back (target_temp r)))).
Proof.
  intros Hcount. cbv zeta.
  split; [apply (write_block_list_bytes c outf cb true)|].
  split; [apply (write_block_list_bytes c outf cb false)|].
  split; [reflexivity|].
  split.
  { apply Forall_forall. intros b _. unfold index_record.
    rewrite !length_app, !be_bytes_length. reflexivity. }
  split.
  { unfold index_header. rewrite !app_assoc.
    rewrite skipn_app.
    rewrite skipn_all2 by (rewrite !length_app, !be_bytes_length; cbn; lia).
    rewrite !length_app, !be_bytes_length. cbn [Nat.add Nat.sub skipn app].
    unfold be_bytes. rewrite rev_involutive, le_value_le_bytes.
    apply Z.mod_small. change (256 ^ Z.of_nat 4) with (2 ^ 32). lia. }
  intros argv r Hmain Hexit. unfold main in Hmain.
  destruct (List.length argv <? 4)%nat.
  { injection Hmain as <-. discriminate. }
  destruct (open_and_get_blocks (nth 1 argv "") None 0)
    as [[source_f [[source_blocks c1] bs1]]|e| |]; try discriminate.
  2:{ injection Hmain as <-. discriminate. }
  destruct (open_and_get_blocks (nth 2 argv "") (Some c1) bs1)
    as [[target_f [[target_blocks c2] bs2]]|e| |]; try discriminate.
  2:{ injection Hmain as <-. discriminate. }
  destruct (remove_duplicates _ _) as [sblocks tblocks].
  destruct (SparseFileWriter_open (nth 3 argv "")) as [u|[w|w n]| |];
    try discriminate.
  2:{ injection Hmain as <-. discriminate. }
  destruct (negb chdir_tmpdir).
  { injection Hmain as <-. discriminate. }
  destruct (write_expanded source_f _ c2 bs2 _)
    as [[sblocks' stemp] [x| | |]] eqn:Hs; try discriminate.
  2:{ injection Hmain as <-. discriminate. }
  destruct (write_expanded target_f _ c2 bs2 _)
    as [[tblocks' ttemp] [y| | |]] eqn:Ht; try discriminate.
  2:{ injection Hmain as <-. discriminate. }
  destruct (xdelta3 (read_back stemp) (read_back ttemp)) as [status diff] eqn:Hx.
  apply write_expanded_returned in Hs as (sexp & ->).
  apply write_expanded_returned in Ht as (texp & ->).
  assert (r = mk_run 0 (write_block_list sexp
                          (mk_header (htonl sqdelta_magic) (htonl 0)
                             (htonl (wrap32 (get_compression_value c2))) 0)
                          sblocks' true)
                (write_block_list texp
                   (mk_header (htonl sqdelta_magic) (htonl 0)
                      (htonl (wrap32 (get_compression_value c2))) 0)
                   tblocks' true)
                (write
                   (write_block_list []
                      (mk_header (htonl sqdelta_magic) (htonl 0)
                         (htonl (wrap32 (get_compression_value c2))) 0)
                      sblocks' false) diff)) as ->.
  { destruct (negb (status =? 0)); injection Hmain as <-; [discriminate|reflexivity]. }
  exists c2, sblocks', tblocks', (read_back sexp), (read_back texp).
  cbn [source_temp target_temp patch_out].
  rewrite Hx. cbn [snd].
  rewrite read_back_write.
  rewrite (write_block_list_bytes c2 sexp sblocks' true).
  rewrite (write_block_list_bytes c2 texp tblocks' true).
  rewrite (write_block_list_bytes c2 [] sblocks' false).
  cbn [read_back flat_map app]. rewrite <- !app_assoc. repeat split.
Qed.

Lemma write_block_list_layout_witness :
  let cb := [mk_block 98 4 3 2414964381] in
  let dh := mk_header (@htonl small sqdelta_magic) (@htonl small 0)
              (@htonl small (wrap32 (get_compression_value LZOCompressor))) 0 in
  read_back (@write_block_list small [] dh cb true)
  = [x00; x00; x00; x00; x00; x00; x00; x62; x00; x00; x00; x04;
     x00; x00; x00; x03;
     x53; x71; xce; xb4; x00; x00; x00; x00; x00; x00; x00; x03;
     x00; x00; x00; x01]
  /\ read_back (@write_block_list small [] dh cb false)
     = [x53; x71; xce; xb4; x00; x00; x00; x00; x00; x00; x00; x03;
        x00; x00; x00; x01;
        x00; x00; x00; x00; x00; x00; x00; x62; x00; x00; x00; x04;
        x00; x00; x00; x03]
  /\ exists r : @run,
       @main small ["squashdelta"; "tree.sqfs"; "changed.sqfs"; "out.patch"] = Ret r
       /\ exit_status r = 0
       /\ firstn 32 (read_back (patch_out r))
          = [x53; x71; xce; xb4; x00; x00; x00; x00; x00; x00; x00; x03;
             x00; x00; x00; x01;
             x00; x00; x00; x00; x00; x00; x00; x62; x00; x00; x00; x04;
             x00; x00; x00; x03].
Proof.
  intros cb dh.
  pose proof (@write_block_list_layout small LZOCompressor [] cb ltac:(cbn; lia))
    as (Hend & Hfront & _ & _ & _ & Hmain).
  split; [exact Hend|]. split; [exact Hfront|].
  eexists. split; [vm_compute; reflexivity|]. split; [reflexivity|].
  destruct (Hmain ["squashdelta"; "tree.sqfs"; "changed.sqfs"; "out.patch"] _
              ltac:(vm_compute; reflexivity) eq_refl)
    as (codec & sb & tb & se & te & _ & _ & Hpatch).
  vm_compute. reflexivity.
Defined.

(** ** The passthrough region *)

Lemma laid_out_bounds (cb : list compressed_block) :
  forall p n, laid_out p n cb -> p <= end_from p cb <= n.
Proof.
  induction cb as [|b cb IH]; intros p n H; cbn in *; [lia|].
  destruct H as (H1 & H2 & H3). specialize (IH _ _ H3). lia.
Qed.

Lemma sorted_laid_out (n : Z) (cb : list compressed_block) :
  Sorted before cb -> Forall (within n) cb ->
  forall p, 0 <= p <= n -> (forall b, hd_error cb = Some b -> p <= offset b) ->
  laid_out p n cb.
Proof.
  induction 1 as [|b cb Hsorted IH Hhd]; intros Hin p Hp Hfirst; cbn; [lia|].
  inversion Hin as [|b' cb' (Ho & Hl & He) Hin']; subst.
  split; [apply Hfirst; reflexivity|]. split; [lia|].
  apply IH; [assumption|lia|].
  intros b2 Hb2. destruct cb as [|b3 cb]; [discriminate|].
  injection Hb2 as <-. inversion Hhd as [|? ? (Hlt & Hle)]; subst. exact Hle.
Qed.

Lemma end_from_end_of_last (cb : list compressed_block) (b : compressed_block) :
  forall p, end_from p (b :: cb) = end_of_last (b :: cb).
Proof.
  revert b. induction cb as [|b' cb IH]; intros b p.
  - reflexivity.
  - cbn [end_from]. cbn [end_from] in IH. rewrite (IH b' (offset b + length b)).
    unfold end_of_last. cbn [rev]. 
    destruct (rev cb) as [|x l]; reflexivity.
Qed.

Lemma read_back_write_sparse (outf : SparseFileWriter) (n : Z) :
  read_back (write_sparse outf n) = read_back outf ++ repeat x00 (Z.to_nat n).
Proof.
  unfold read_back, write_sparse. rewrite flat_map_app. cbn.
  rewrite app_nil_r. reflexivity.
Qed.

Lemma copy_around_blocks_laid_out (image : list byte) (cb : list compressed_block) :
  Z.of_nat (List.length image) < 2 ^ 64 ->
  forall (outf : SparseFileWriter) (p : Z),
    0 <= p -> laid_out p (Z.of_nat (List.length image)) cb ->
    exists outf' : SparseFileWriter,
      copy_around_blocks outf (mk_file image p) p cb
      = (mk_unpacking outf' (mk_file image (end_from p cb)) [] (Ret tt),
         end_from p cb)
      /\ (exists more, outf' = outf ++ more)
      /\ read_back outf' = read_back outf ++ holes_from p image cb.
Proof.
  intros Hlen. induction cb as [|b cb IH]; intros outf p Hp Hlaid.
  - cbn. exists outf. split; [reflexivity|]. split; [exists []|];
      rewrite app_nil_r; reflexivity.
  - cbn [laid_out] in Hlaid. destruct Hlaid as (Ho & Hl & Hrest).
    pose proof (laid_out_bounds _ _ _ Hrest) as Hb.
    cbn [copy_around_blocks].
    destruct (Z.leb_spec p (offset b)); [|lia]. cbn [negb].
    assert (wrap64 (offset b - p) = offset b - p) as ->
      by (apply Z.mod_small; lia).
    assert (wrap64 (offset b + length b) = offset b + length b) as ->
      by (apply Z.mod_small; lia).
    unfold read_array. cbn [pos data]. unfold getlen. cbn [data].
    destruct (Z.leb_spec 0 p); [|lia].
    destruct (Z.leb_spec 0 (offset b - p)); [|lia].
    destruct (Z.leb_spec (p + (offset b - p)) (Z.of_nat (List.length image))); [|lia].
    cbn [andb]. unfold seek_cur. cbn [pos data].
    replace (p + (offset b - p)) with (offset b) by lia.
    assert (wrap64 (offset b + length b) = offset b + length b) as ->
      by (apply Z.mod_small; lia).
    destruct (IH (write_sparse
                    (write outf (firstn (Z.to_nat (offset b - p))
                                   (skipn (Z.to_nat p) image))) (length b))
                (offset b + length b) ltac:(lia) Hrest)
      as (outf' & Hcopy & (more & Hmore) & Hread).
    exists outf'. split; [exact Hcopy|]. split.
    + exists ([written (firstn (Z.to_nat (offset b - p)) (skipn (Z.to_nat p) image));
               sparse (length b)] ++ more).
      rewrite Hmore. unfold write_sparse, write. rewrite <- !app_assoc. reflexivity.
    + rewrite Hread, read_back_write_sparse, read_back_write.
      cbn [holes_from]. rewrite <- !app_assoc. reflexivity.
Qed.

Lemma firstn_skipn_nth (l : list byte) (p m : nat) :
  (p + m <= List.length l)%nat ->
  firstn m (skipn p l) = map (fun k => nth k l x00) (seq p m).
Proof.
  revert l p. induction m as [|m IH]; intros l p Hlen; [reflexivity|].
  cbn [seq map].
  destruct (skipn p l) as [|x rest] eqn:Hskip.
  - pose proof (length_skipn p l) as Hl. rewrite Hskip in Hl. cbn in Hl. lia.
  - cbn [firstn]. f_equal.
    + pose proof (nth_skipn p l 0 x00) as Hn. rewrite Hskip in Hn. cbn [nth] in Hn.
      rewrite Nat.add_0_r in Hn. exact Hn.
    + rewrite <- IH by lia. f_equal.
      replace (S p) with (1 + p)%nat by lia. rewrite <- skipn_skipn, Hskip.
      reflexivity.
Qed.

Lemma skipn_nth (l : list byte) (p : nat) :
  (p <= List.length l)%nat ->
  skipn p l = map (fun k => nth k l x00) (seq p (List.length l - p)).
Proof.
  intros Hp. rewrite <- firstn_skipn_nth by lia.
  rewrite firstn_all2; [reflexivity|]. rewrite length_skipn. lia.
Qed.

Lemma repeat_as_map (o m : nat) :
  repeat x00 m = map (fun _ : nat => x00) (seq o m).
Proof.
  revert o. induction m as [|m IH]; intros o; [reflexivity|].
  cbn. f_equal. apply IH.
Qed.

Lemma laid_out_not_covered (cb : list compressed_block) :
  forall p n k, laid_out p n cb -> k < p -> covered cb k = false.
Proof.
  induction cb as [|b cb IH]; intros p n k Hlaid Hk; [reflexivity|].
  cbn in Hlaid. destruct Hlaid as (Ho & Hl & Hrest).
  unfold covered. cbn [existsb].
  destruct (Z.leb_spec (offset b) k); [lia|]. cbn [andb orb].
  apply (IH (offset b + length b) n); [assumption|lia].
Qed.

Lemma holes_from_pointwise (image : list byte) (cb : list compressed_block) :
  forall p : Z,
    0 <= p -> laid_out p (Z.of_nat (List.length image)) cb ->
    holes_from p image cb ++ skipn (Z.to_nat (end_from p cb)) image
    = map (fun k => if covered cb (Z.of_nat k) then x00 else nth k image x00)
          (seq (Z.to_nat p) (List.length image - Z.to_nat p)).
Proof.
  induction cb as [|b cb IH]; intros p Hp Hlaid.
  - cbn in *. apply skipn_nth. lia.
  - cbn [laid_out] in Hlaid. destruct Hlaid as (Ho & Hl & Hrest).
    pose proof (laid_out_bounds _ _ _ Hrest) as Hb.
    cbn [holes_from end_from]. rewrite <- !app_assoc.
    rewrite (IH (offset b + length b) ltac:(lia) Hrest).
    replace (List.length image - Z.to_nat p)%nat
      with (Z.to_nat (offset b - p)
            + (Z.to_nat (length b)
               + (List.length image - Z.to_nat (offset b + length b))))%nat by lia.
    rewrite !seq_app, !map_app.
    replace (Z.to_nat p + Z.to_nat (offset b - p))%nat with (Z.to_nat (offset b))
      by lia.
    replace (Z.to_nat (offset b) + Z.to_nat (length b))%nat
      with (Z.to_nat (offset b + length b)) by lia.
    f_equal; [|f_equal].
    + rewrite firstn_skipn_nth by lia. apply map_ext_in. intros k Hk.
      apply in_seq in Hk.
      unfold covered. cbn [existsb].
      destruct (Z.leb_spec (offset b) (Z.of_nat k)); [lia|]. cbn [andb orb].
      fold (covered cb (Z.of_nat k)).
      rewrite (laid_out_not_covered cb _ _ (Z.of_nat k) Hrest) by lia.
      reflexivity.
    + rewrite (repeat_as_map (Z.to_nat (offset b))). apply map_ext_in.
      intros k Hk. apply in_seq in Hk.
      unfold covered. cbn [existsb].
      destruct (Z.leb_spec (offset b) (Z.of_nat k)); [|lia].
      destruct (Z.ltb_spec (Z.of_nat k) (offset b + length b)); [|lia].
      reflexivity.
    + apply map_ext_in. intros k Hk. apply in_seq in Hk.
      unfold covered. cbn [existsb].
      destruct (Z.ltb_spec (Z.of_nat k) (offset b + length b)); [lia|].
      rewrite andb_false_r. reflexivity.
Qed.

Lemma write_decompressed_appends `{Externals} (c : Compressor) (block_size : Z)
    (i : list compressed_block) :
  forall (outf : SparseFileWriter) (inf : MMAPFile),
    exists more, u_outf (write_decompressed outf inf c block_size i) = outf ++ more.
Proof.
  induction i as [|b i IH]; intros outf inf; cbn [write_decompressed].
  - exists []. cbn. rewrite app_nil_r. reflexivity.
  - destruct (read_array (seek_beg inf (offset b)) (length b))
      as [[src inf1]| | |]; cbn [and_then u_outf];
      try (exists []; rewrite app_nil_r; reflexivity).
    destruct (Compressor_decompress c src (length b) block_size) as [buf| | |];
      cbn [and_then u_outf]; try (exists []; rewrite app_nil_r; reflexivity).
    destruct (IH (write outf buf) inf1) as (more & Hmore).
    exists ([written buf] ++ more). rewrite Hmore. unfold write.
    rewrite <- app_assoc. reflexivity.
Qed.

(** C4: for an image and a list of blocks that lie in the image in
    strictly ascending order without overlap, the first part of
    [write_unpacked_file] returns, and the region it writes reads back as
    the image with the bytes of every block replaced by zeros; its apparent
    size is the length of the image; its last write is the tail of the image
    behind the last block, verbatim; and it is the beginning of the expanded
    file, whatever the decompression of the blocks does afterwards. *)
Theorem write_unpacked_file_passthrough `{Externals} (outf : SparseFileWriter)
    (inf : MMAPFile) (cb : list compressed_block) (c : Compressor)
    (block_size : Z) :
  getlen inf < 2 ^ 64 ->
  Sorted before cb ->
  Forall (within (getlen inf)) cb ->
  let a := write_passthrough outf inf cb in
  let u := write_unpacked_file outf inf cb c block_size in
  u_end a = Ret tt
  /\ (exists region : SparseFileWriter,
        u_outf a = outf ++ region
        /\ read_back region = hollowed (data inf) cb
        /\ apparent_size region = getlen inf
        /\ (exists front,
              region
              = front ++ [written (skipn (Z.to_nat (end_of_last cb)) (data inf))])
        /\ exists decompressed : SparseFileWriter,
             u_outf u = outf ++ region ++ decompressed).
Proof.
  intros Hlen Hsorted Hin. cbv zeta.
  destruct inf as [image p0]. unfold getlen in *. cbn [data] in *.
  assert (laid_out 0 (Z.of_nat (List.length image)) cb) as Hlaid.
  { apply sorted_laid_out; [assumption|assumption|lia|].
    intros b Hb. destruct cb as [|b' cb]; [discriminate|]. injection Hb as <-.
    inversion Hin as [|? ? (Ho & _) _]; subst. exact Ho. }
  pose proof (laid_out_bounds _ _ _ Hlaid) as Hend.
  destruct (copy_around_blocks_laid_out image cb Hlen outf 0 ltac:(lia) Hlaid)
    as (outf' & Hcopy & (more & Hmore) & Hread).
  assert (write_passthrough outf (mk_file image p0) cb
          = mk_unpacking
              (write outf' (skipn (Z.to_nat (end_from 0 cb)) image))
              (mk_file image (Z.of_nat (List.length image))) cb (Ret tt)) as Hpass.
  { unfold write_passthrough, seek_beg. cbn [data]. rewrite Hcopy.
    cbn [u_end u_outf u_inf and_then]. unfold getlen. cbn [data].
    assert (wrap64 (Z.of_nat (List.length image) - end_from 0 cb)
            = Z.of_nat (List.length image) - end_from 0 cb) as ->
      by (apply Z.mod_small; lia).
    unfold read_array. cbn [pos data]. unfold getlen. cbn [data].
    destruct (Z.leb_spec 0 (end_from 0 cb)); [|lia].
    destruct (Z.leb_spec 0 (Z.of_nat (List.length image) - end_from 0 cb)); [|lia].
    destruct (Z.leb_spec (end_from 0 cb + (Z.of_nat (List.length image) - end_from 0 cb))
                (Z.of_nat (List.length image))); [|lia].
    cbn [andb and_then].
    rewrite firstn_all2 by (rewrite length_skipn; lia).
    f_equal. f_equal. lia. }
  rewrite Hpass. cbn [u_end u_outf].
  split; [reflexivity|].
  exists (more ++ [written (skipn (Z.to_nat (end_from 0 cb)) image)]).
  assert (read_back (more ++ [written (skipn (Z.to_nat (end_from 0 cb)) image)])
          = hollowed image cb) as Hhollow.
  { assert (read_back more = holes_from 0 image cb) as Hm.
    { rewrite Hmore in Hread. unfold read_back in Hread |- *.
      rewrite flat_map_app in Hread. eapply app_inv_head. exact Hread. }
    unfold read_back in *. rewrite flat_map_app, Hm. cbn [flat_map chunk_bytes].
    rewrite app_nil_r.
    rewrite (holes_from_pointwise image cb 0 ltac:(lia) Hlaid).
    unfold hollowed. cbn [Z.to_nat]. rewrite Nat.sub_0_r. reflexivity. }
  split; [|split; [|split; [|split]]].
  - unfold write. rewrite Hmore, <- app_assoc. reflexivity.
  - exact Hhollow.
  - unfold apparent_size. rewrite Hhollow. unfold hollowed.
    rewrite length_map, length_seq. reflexivity.
  - exists more. destruct cb as [|b cb]; [reflexivity|].
    rewrite (end_from_end_of_last cb b 0). reflexivity.
  - unfold write_unpacked_file. rewrite Hpass. cbn [u_end u_outf u_inf and_then].
    destruct (write_decompressed_appends c block_size cb
                (write outf' (skipn (Z.to_nat (end_from 0 cb)) image))
                (mk_file image (Z.of_nat (List.length image)))) as (dec & Hdec).
    exists dec. rewrite Hdec. unfold write. rewrite Hmore, <- !app_assoc.
    reflexivity.
Qed.

Lemma write_unpacked_file_passthrough_witness :
  let cb := [mk_block 98 4 0 2414964381; mk_block 104 2 0 1393557216] in
  let a := @write_passthrough [] (mk_file tree_image 0) cb in
  u_end a = Ret tt
  /\ read_back (u_outf a) = hollowed tree_image cb
  /\ apparent_size (u_outf a) = 118
  /\ firstn 8 (skipn 96 (read_back (u_outf a)))
     = [x04; x00; x00; x00; x00; x00; x02; x00].
Proof.
  intros cb a.
  destruct (@write_unpacked_file_passthrough small [] (mk_file tree_image 0) cb
              LZOCompressor 131072) as (Hend & region & Hregion & Hread & Hsize & _).
  - vm_compute. reflexivity.
  - repeat constructor; cbn; lia.
  - repeat constructor; cbn; lia.
  - subst a. rewrite Hregion in *. cbn [app].
    split; [exact Hend|]. split; [exact Hread|]. split; [exact Hsize|].
    rewrite Hread. vm_compute. reflexivity.
Defined.

(** ** Cross-image deduplication *)

Ltac key_cases :=
  unfold le_len_hash, sort_by_len_hash, same_len_hash in *;
  repeat match goal with
         | H : context [?a =? ?b] |- _ => destruct (Z.eqb_spec a b)
         | |- context [?a =? ?b] => destruct (Z.eqb_spec a b)
         | H : context [?a <? ?b] |- _ => destruct (Z.ltb_spec a b)
         | |- context [?a <? ?b] => destruct (Z.ltb_spec a b)
         end;
  cbn in *; try reflexivity; try discriminate; try lia.

Lemma le_len_hash_trans (a b c : compressed_block) :
  le_len_hash a b -> le_len_hash b c -> le_len_hash a c.
Proof. intros Hab Hbc. key_cases. Qed.

Lemma same_len_hash_sym (a b : compressed_block) :
  same_len_hash a b = same_len_hash b a.
Proof. key_cases. Qed.

Lemma same_len_hash_trans (a b c : compressed_block) :
  same_len_hash a b = true -> same_len_hash b c = same_len_hash a c.
Proof. intros Hab. key_cases. Qed.

Lemma before_not_same (a b t : compressed_block) :
  sort_by_len_hash a b = true -> le_len_hash b t -> same_len_hash a t = false.
Proof. intros Hab Hbt. key_cases. Qed.

Lemma not_before_same (a b : compressed_block) :
  sort_by_len_hash a b = false -> sort_by_len_hash b a = false ->
  same_len_hash a b = true.
Proof. intros Hab Hba. key_cases. Qed.

Lemma after_not_same (a t : compressed_block) :
  le_len_hash a t -> same_len_hash t a = false -> sort_by_len_hash a t = true.
Proof. intros Hat Hs. key_cases. Qed.

(** The five-way test of the loop is a three-way comparison of keys. *)
Lemma remove_duplicates_cons (bi bj : compressed_block)
    (i' j' : list compressed_block) :
  remove_duplicates (bi :: i') (bj :: j')
  = if sort_by_len_hash bi bj then
      (bi :: fst (remove_duplicates i' (bj :: j')),
       snd (remove_duplicates i' (bj :: j')))
    else if sort_by_len_hash bj bi then
      (fst (remove_duplicates (bi :: i') j'),
       bj :: snd (remove_duplicates (bi :: i') j'))
    else remove_duplicates (skip_run bi i') (skip_run bj j').
Proof.
  rewrite remove_duplicates_equation_3. cbn [skip_run].
  rewrite !same_len_hash_refl. cbv zeta.
  unfold sort_by_len_hash.
  destruct (Z.ltb_spec (length bi) (length bj)), (Z.ltb_spec (length bj) (length bi)),
    (Z.eqb_spec (length bi) (length bj)), (Z.eqb_spec (length bj) (length bi));
    try lia; reflexivity.
Qed.

Lemma key_in_same (a b : compressed_block) (l : list compressed_block) :
  same_len_hash a b = true -> key_in a l = key_in b l.
Proof.
  intros Hab. unfold key_in. induction l as [|t l IH]; [reflexivity|].
  cbn. rewrite IH. f_equal. symmetry. apply same_len_hash_trans. exact Hab.
Qed.

Lemma key_in_all_after (a b : compressed_block) (l : list compressed_block) :
  sort_by_len_hash a b = true -> Forall (le_len_hash b) l -> key_in a l = false.
Proof.
  intros Hab Hall. unfold key_in. induction Hall as [|t l Ht _ IH]; [reflexivity|].
  cbn. rewrite IH, (before_not_same a b t Hab Ht). reflexivity.
Qed.

Lemma filter_all {A : Type} (f : A -> bool) (l : list A) :
  Forall (fun x => f x = true) l -> filter f l = l.
Proof.
  induction 1 as [|x l Hx _ IH]; [reflexivity|]. cbn. rewrite Hx, IH. reflexivity.
Qed.

(** In a sorted list the entries with the key of the head are the run the
    inner loop steps over. *)
Lemma skip_run_sorted_filter (i_st : compressed_block)
    (i : list compressed_block) :
  StronglySorted le_len_hash i -> Forall (le_len_hash i_st) i ->
  skip_run i_st i = filter (fun b => negb (same_len_hash b i_st)) i.
Proof.
  induction 1 as [|b i Hsorted IH Hb]; intros Hall; [reflexivity|].
  inversion Hall as [|? ? Hle Hall']; subst.
  cbn [skip_run filter].
  destruct (same_len_hash b i_st) eqn:Hsame; cbn [negb].
  - apply IH. exact Hall'.
  - f_equal. symmetry. apply filter_all.
    pose proof (after_not_same i_st b Hle Hsame) as Hlt.
    eapply Forall_impl; [|exact Hb]. intros t Ht. cbn.
    rewrite same_len_hash_sym, (before_not_same i_st b t Hlt Ht). reflexivity.
Qed.

Lemma filter_StronglySorted {A : Type} (R : A -> A -> Prop) (f : A -> bool)
    (l : list A) :
  StronglySorted R l -> StronglySorted R (filter f l).
Proof.
  induction 1 as [|x l Hs IH Hx]; cbn; [constructor|].
  destruct (f x); [|exact IH]. constructor; [exact IH|].
  apply Forall_forall. intros y Hy. apply filter_In in Hy as (Hy & _).
  rewrite Forall_forall in Hx. auto.
Qed.

Lemma key_in_filter_other (b k : compressed_block) (l : list compressed_block) :
  same_len_hash b k = false ->
  key_in b (filter (fun t => negb (same_len_hash t k)) l) = key_in b l.
Proof.
  intros Hbk. unfold key_in. induction l as [|t l IH]; [reflexivity|].
  cbn [filter existsb].
  destruct (same_len_hash t k) eqn:Htk; cbn [negb existsb].
  - rewrite IH.
    assert (same_len_hash b t = false) as ->; [|reflexivity].
    destruct (same_len_hash b t) eqn:Hbt; [|reflexivity].
    rewrite <- (same_len_hash_trans b t k Hbt), Htk in Hbk. discriminate.
  - rewrite IH. reflexivity.
Qed.

(** Dropping the run of a key shared by both lists and then the other
    shared keys is dropping all shared keys. *)
Lemma without_keys_of_run (k k' : compressed_block)
    (other l : list compressed_block) :
  same_len_hash k k' = true ->
  without_keys_of (filter (fun t => negb (same_len_hash t k')) other)
    (filter (fun b => negb (same_len_hash b k)) l)
  = without_keys_of (k' :: other) l.
Proof.
  intros Hk. unfold without_keys_of. induction l as [|b l IH]; [reflexivity|].
  cbn [filter]. unfold key_in at 2. cbn [existsb]. fold (key_in b other).
  destruct (same_len_hash b k) eqn:Hbk; cbn [negb].
  - rewrite IH.
    rewrite (same_len_hash_trans b k k' Hbk) in Hk. rewrite Hk. reflexivity.
  - cbn [filter]. rewrite IH.
    assert (same_len_hash b k' = false) as Hbk'.
    { destruct (same_len_hash b k') eqn:E; [|reflexivity].
      rewrite same_len_hash_sym in Hk.
      rewrite <- (same_len_hash_trans b k' k E), Hk in Hbk. discriminate. }
    rewrite Hbk'. cbn [orb]. rewrite (key_in_filter_other b k' other Hbk').
    reflexivity.
Qed.

Lemma remove_duplicates_sorted (n : nat) :
  forall source target : list compressed_block,
    (List.length source + List.length target <= n)%nat ->
    StronglySorted le_len_hash source -> StronglySorted le_len_hash target ->
    remove_duplicates source target
    = (without_keys_of target source, without_keys_of source target).
Proof.
  induction n as [|n IH]; intros source target Hn Hs Ht.
  - destruct source, target; cbn in Hn; try lia.
    rewrite remove_duplicates_equation_1. reflexivity.
  - destruct source as [|bi i'].
    { rewrite remove_duplicates_equation_1. unfold without_keys_of. cbn.
      f_equal. symmetry. apply filter_all. apply Forall_forall. reflexivity. }
    destruct target as [|bj j'].
    { rewrite remove_duplicates_equation_2. unfold without_keys_of.
      f_equal. symmetry. apply filter_all. apply Forall_forall. reflexivity. }
    cbn [List.length] in Hn.
    pose proof (StronglySorted_inv Hs) as (Hs' & Hbi).
    pose proof (StronglySorted_inv Ht) as (Ht' & Hbj).
    rewrite remove_duplicates_cons.
    destruct (sort_by_len_hash bi bj) eqn:Hij.
    + rewrite (IH i' (bj :: j')) by (cbn [List.length]; try lia; assumption).
      cbn [fst snd]. unfold without_keys_of at 3. cbn [filter].
      assert (key_in bi (bj :: j') = false) as ->.
      { apply (key_in_all_after bi bj); [exact Hij|].
        constructor; [key_cases|exact Hbj]. }
      cbn [negb]. f_equal.
      unfold without_keys_of. apply filter_ext_in. intros t Hin.
      unfold key_in. cbn [existsb].
      assert (same_len_hash t bi = false) as ->; [|reflexivity].
      rewrite same_len_hash_sym. apply (before_not_same bi bj t Hij).
      destruct Hin as [<-|Hin]; [key_cases|].
      rewrite Forall_forall in Hbj. auto.
    + destruct (sort_by_len_hash bj bi) eqn:Hji.
      * rewrite (IH (bi :: i') j') by (cbn [List.length]; try lia; assumption).
        cbn [fst snd]. unfold without_keys_of at 4. cbn [filter].
        assert (key_in bj (bi :: i') = false) as ->.
        { apply (key_in_all_after bj bi); [exact Hji|].
          constructor; [key_cases|exact Hbi]. }
        cbn [negb]. f_equal.
        unfold without_keys_of. apply filter_ext_in. intros t Hin.
        unfold key_in. cbn [existsb].
        assert (same_len_hash t bj = false) as ->; [|reflexivity].
        rewrite same_len_hash_sym. apply (before_not_same bj bi t Hji).
        destruct Hin as [<-|Hin]; [key_cases|].
        rewrite Forall_forall in Hbi. auto.
      * pose proof (not_before_same bi bj Hij Hji) as Hsame.
        rewrite (skip_run_sorted_filter bi i' Hs' Hbi).
        rewrite (skip_run_sorted_filter bj j' Ht' Hbj).
        rewrite IH.
        -- f_equal.
           ++ rewrite (without_keys_of_run bi bj j' i' Hsame).
              unfold without_keys_of. cbn [filter].
              unfold key_in at 2. cbn [existsb]. rewrite Hsame. reflexivity.
           ++ rewrite same_len_hash_sym in Hsame.
              rewrite (without_keys_of_run bj bi i' j' Hsame).
              unfold without_keys_of. cbn [filter].
              unfold key_in at 2. cbn [existsb]. rewrite Hsame. reflexivity.
        -- pose proof (filter_length_le (fun b => negb (same_len_hash b bi)) i').
           pose proof (filter_length_le (fun b => negb (same_len_hash b bj)) j').
           lia.
        -- apply filter_StronglySorted. exact Hs'.
        -- apply filter_StronglySorted. exact Ht'.
Qed.

Lemma le_len_hash_Transitive : Relations_1.Transitive le_len_hash.
Proof. intros a b c. apply le_len_hash_trans. Qed.

(** The lists [main] hands to the loop are sorted in this sense. *)
Lemma list_sort_len_hash_sorted (l : list compressed_block) :
  Sorted le_len_hash (list_sort sort_by_len_hash l).
Proof.
  induction l as [|x l IH]; cbn; [constructor|].
  fold (list_sort sort_by_len_hash l).
  induction IH as [|y s Hs IHs Hhd]; cbn; [repeat constructor|].
  destruct (sort_by_len_hash y x) eqn:Hyx.
  - constructor; [exact IHs|].
    destruct s as [|z s]; cbn.
    + constructor. key_cases.
    + destruct (sort_by_len_hash z x) eqn:Hzx.
      * constructor. inversion Hhd; subst. assumption.
      * constructor. key_cases.
  - constructor; [constructor; assumption|]. constructor. exact Hyx.
Qed.

(** C3: on two lists sorted by (length, hash), the loop leaves in each list
    exactly the entries whose key does not occur in the other list, in their
    order (so it removes exactly the entries whose key occurs in both,
    whole runs of equal keys whatever their offsets); no key is left in
    both; and with the lists swapped it leaves the same two lists, swapped,
    hence removes the same entries. *)
Theorem remove_duplicates_mutual (source target : list compressed_block) :
  Sorted le_len_hash source -> Sorted le_len_hash target ->
  remove_duplicates source target
  = (without_keys_of target source, without_keys_of source target)
  /\ (forall a b : compressed_block,
      In a (fst (remove_duplicates source target)) ->
      In b (snd (remove_duplicates source target)) ->
      same_len_hash a b = false)
  /\ remove_duplicates target source
     = (snd (remove_duplicates source target),
        fst (remove_duplicates source target)).
Proof.
  intros Hs Ht.
  apply (Sorted_StronglySorted le_len_hash_Transitive) in Hs, Ht.
  pose proof (remove_duplicates_sorted _ source target (Nat.le_refl _) Hs Ht) as Hst.
  pose proof (remove_duplicates_sorted _ target source (Nat.le_refl _) Ht Hs) as Hts.
  split; [exact Hst|]. split.
  - rewrite Hst. cbn [fst snd]. unfold without_keys_of. intros a b Ha Hb.
    apply filter_In in Ha as (_ & Ha). apply filter_In in Hb as (Hb & _).
    destruct (same_len_hash a b) eqn:Hab; [|reflexivity].
    assert (key_in a target = true) as Hin.
    { unfold key_in. apply existsb_exists. exists b. split; assumption. }
    rewrite Hin in Ha. discriminate.
  - rewrite Hts, Hst. reflexivity.
Qed.

Lemma remove_duplicates_mutual_witness :
  let source := [mk_block 104 2 0 1393557216; mk_block 300 2 0 1393557216;
                 mk_block 98 4 0 2414964381] in
  let target := [mk_block 104 2 0 1393557216; mk_block 98 4 0 724669227;
                 mk_block 200 9 0 5] in
  remove_duplicates source target
  = ([mk_block 98 4 0 2414964381],
     [mk_block 98 4 0 724669227; mk_block 200 9 0 5])
  /\ remove_duplicates target source
     = ([mk_block 98 4 0 724669227; mk_block 200 9 0 5],
        [mk_block 98 4 0 2414964381]).
Proof.
  intros source target.
  destruct (remove_duplicates_mutual source target) as (Hst & _ & Hts).
  - repeat constructor.
  - repeat constructor.
  - split; [exact Hst|]. rewrite Hts, Hst. reflexivity.
Defined.

(** ** The data-block walk after its first turn *)

(** From the second turn on, [j] points to the descriptor retained last and
    the loop does what its comments say: on a list sorted by offset it
    returns descriptors with strictly ascending offsets, each one a
    descriptor of the list with its hash set to the hash of its on-disk
    bytes. *)
Lemma hash_data_blocks_later_turns `{Externals} (l : list compressed_block) :
  forall (hf : MMAPFile) (bj : compressed_block) (out : list compressed_block),
    Sorted (fun a b => offset a <= offset b) (bj :: l) ->
    hash_data_blocks hf (Some bj) l = Ret out ->
    Sorted (fun a b => offset a < offset b) (bj :: out)
    /\ Forall (fun b' =>
                 exists (b : compressed_block) (bytes : list byte),
                   In b l /\ on_disk (data hf) b = Ret bytes
                   /\ b' = set_hash b (murmurhash3 bytes (length b) 0)) out.
Proof.
  induction l as [|bi l IH]; intros hf bj out Hsorted Hout.
  - cbn in Hout. injection Hout as <-. split; repeat constructor.
  - cbn [hash_data_blocks] in Hout.
    apply Sorted_inv in Hsorted as (Hsorted & Hhd).
    inversion Hhd as [|? ? Hle]; subst.
    destruct (Z.eqb_spec (offset bi) (offset bj)) as [Heq|Hne].
    + apply bind_Ret_inv in Hout as ([] & _ & Hout).
      assert (Sorted (fun a b => offset a <= offset b) (bj :: l)) as Hsorted'.
      { apply Sorted_inv in Hsorted as (Hl & Hhd').
        constructor; [exact Hl|].
        destruct Hhd' as [|b0 l0 H0]; constructor. lia. }
      destruct (IH hf bj out Hsorted' Hout) as (Hasc & Hall).
      split; [exact Hasc|].
      eapply Forall_impl; [|exact Hall].
      intros b' (b & bytes & Hin & Hdisk & ->). exists b, bytes.
      split; [right; exact Hin|]. split; [exact Hdisk|reflexivity].
    + apply bind_Ret_inv in Hout as ([bytes hf'] & Hread & Hout).
      apply bind_Ret_inv in Hout as (rest & Hrest & Hout).
      injection Hout as <-.
      pose proof (read_array_data _ _ _ _ Hread) as Hdata. cbn in Hdata.
      destruct (IH hf' (set_hash bi (murmurhash3 bytes (length bi) 0)) rest)
        as (Hasc & Hall); [|exact Hrest|].
      { apply Sorted_inv in Hsorted as (Hl & Hhd').
        constructor; [exact Hl|].
        destruct Hhd' as [|b0 l0 H0]; constructor. exact H0. }
      split.
      * constructor; [exact Hasc|]. constructor. cbn. lia.
      * constructor.
        -- exists bi, bytes. split; [left; reflexivity|]. split; [|reflexivity].
           unfold on_disk. unfold seek_beg in Hread. rewrite Hread. reflexivity.
        -- eapply Forall_impl; [|exact Hall].
           intros b' (b & bytes' & Hin & Hdisk & ->). exists b, bytes'.
           split; [right; exact Hin|]. rewrite Hdata in Hdisk.
           split; [exact Hdisk|reflexivity].
Qed.

(** * Further properties of the code *)

(** ** [htonll] *)

Lemma htonll_range `{Externals} (x : Z) :
  0 <= x < 2 ^ 64 -> 0 <= htonll x < 2 ^ 64.
Proof.
  intros Hx. unfold htonll, htonl. destruct little_endian; [|exact Hx].
  rewrite lor_shiftl_32 by apply bswap32_range.
  pose proof (bswap32_range (wrap32 (Z.land x 0xFFFFFFFF))).
  pose proof (bswap32_range (wrap32 (Z.shiftr x 32))). lia.
Qed.

Lemma le_value_le_bytes_8 (x : Z) :
  0 <= x < 2 ^ 64 -> le_value (le_bytes 8 x) = x.
Proof.
  intros Hx. rewrite le_value_le_bytes. apply Z.mod_small.
  change (256 ^ Z.of_nat 8) with (2 ^ 64). exact Hx.
Qed.

(** X1: [htonll] turns a 64-bit value into network byte order on either
    kind of host: the eight bytes of the result, as they lie in memory, are
    the big-endian bytes of the argument, so reading them back
    most-significant first gives the argument; the result is again a 64-bit
    value, and converting twice gives the argument back. *)
Theorem htonll_network_order `{Externals} (x : Z) :
  0 <= x < 2 ^ 64 ->
  host_bytes 8 (htonll x) = be_bytes 8 x
  /\ le_value (rev (host_bytes 8 (htonll x))) = x
  /\ 0 <= htonll x < 2 ^ 64
  /\ htonll (htonll x) = x.
Proof.
  intros Hx. pose proof (htonll_range x Hx) as Hr.
  split; [apply host_bytes_htonll|]. split; [|split; [exact Hr|]].
  - rewrite host_bytes_htonll. unfold be_bytes. rewrite rev_involutive.
    apply le_value_le_bytes_8. exact Hx.
  - pose proof (host_bytes_htonll x) as H1.
    pose proof (host_bytes_htonll (htonll x)) as H2.
    unfold host_bytes in H1, H2. unfold htonll at 1.
    destruct little_endian eqn:Hle.
    + fold (htonll (htonll x)) in *.
      assert (htonll (htonll x)
              = Z.lor (Z.shiftl (htonl (wrap32 (Z.land (htonll x) 0xFFFFFFFF))) 32)
                      (htonl (wrap32 (Z.shiftr (htonll x) 32)))) as Hunfold.
      { unfold htonll at 1. rewrite Hle. reflexivity. }
      rewrite <- Hunfold.
      pose proof (htonll_range (htonll x) Hr) as Hrr.
      rewrite <- (le_value_le_bytes_8 (htonll (htonll x)) Hrr).
      rewrite <- (le_value_le_bytes_8 x Hx) at 2.
      f_equal. rewrite H2. unfold be_bytes. rewrite H1. unfold be_bytes.
      apply rev_involutive.
    + unfold htonll. rewrite Hle. reflexivity.
Qed.

Lemma htonll_network_order_witness :
  @htonll small 0x0102030405060708 = 0x0807060504030201
  /\ @host_bytes small 8 (@htonll small 0x0102030405060708)
     = [x01; x02; x03; x04; x05; x06; x07; x08]
  /\ @htonll small (@htonll small 0x0102030405060708) = 0x0102030405060708.
Proof.
  destruct (@htonll_network_order small 0x0102030405060708 ltac:(lia))
    as (Hbytes & _ & _ & Htwice).
  split; [vm_compute; reflexivity|]. split; [exact Hbytes|exact Htwice].
Defined.

(** ** The two comparators *)

(** X2: [sort_by_offset] and [sort_by_len_hash] are strict weak orderings,
    as [std::list::sort] requires: no descriptor is before itself, the
    relations are transitive, and being unordered either way is transitive
    too; two descriptors are unordered by [sort_by_offset] exactly when they
    have the same offset, and by [sort_by_len_hash] exactly when they have
    the same length and hash, whatever their offsets. *)
Theorem comparators_strict_weak (a b c : compressed_block) :
  sort_by_offset a a = false
  /\ sort_by_len_hash a a = false
  /\ (sort_by_offset a b = true -> sort_by_offset b c = true ->
      sort_by_offset a c = true)
  /\ (sort_by_len_hash a b = true -> sort_by_len_hash b c = true ->
      sort_by_len_hash a c = true)
  /\ (sort_by_offset a b = false /\ sort_by_offset b a = false
      <-> offset a = offset b)
  /\ (sort_by_len_hash a b = false /\ sort_by_len_hash b a = false
      <-> length a = length b /\ hash a = hash b)
  /\ (sort_by_len_hash a b = true -> sort_by_len_hash b a = false).
Proof.
  unfold sort_by_offset.
  split; [apply Z.ltb_irrefl|].
  split; [key_cases|].
  split; [intros H1 H2; apply Z.ltb_lt in H1, H2; apply Z.ltb_lt; lia|].
  split; [intros H1 H2; key_cases|].
  split.
  { split.
    - intros (H1 & H2). apply Z.ltb_ge in H1, H2. lia.
    - intros E. rewrite E. split; apply Z.ltb_irrefl. }
  split.
  { split.
    - intros (H1 & H2). key_cases.
    - intros (E1 & E2). key_cases. }
  intros H1. key_cases.
Qed.

Lemma comparators_strict_weak_witness :
  sort_by_len_hash (mk_block 7 2 0 5) (mk_block 1 4 0 0) = true
  /\ (sort_by_len_hash (mk_block 7 2 0 5) (mk_block 9 2 0 5) = false
      /\ sort_by_len_hash (mk_block 9 2 0 5) (mk_block 7 2 0 5) = false).
Proof.
  destruct (comparators_strict_weak (mk_block 7 2 0 5) (mk_block 9 2 0 5)
              (mk_block 1 4 0 0)) as (_ & _ & _ & Htrans & _ & (_ & Hsame) & _).
  split; [reflexivity|]. apply Hsame. split; reflexivity.
Defined.

(** ** The deduplication loop on lists in any order *)

Lemma subsequence_refl {A : Type} (l : list A) : subsequence l l.
Proof. induction l; constructor; assumption. Qed.

Lemma skip_run_subsequence (k : compressed_block) (l : list compressed_block) :
  subsequence (skip_run k l) l.
Proof.
  induction l as [|b l IH]; cbn; [constructor|].
  destruct (same_len_hash b k); [constructor; exact IH|apply subsequence_refl].
Qed.

Lemma subsequence_trans {A : Type} (l1 l2 l3 : list A) :
  subsequence l1 l2 -> subsequence l2 l3 -> subsequence l1 l3.
Proof.
  intros H12 H23. revert l1 H12.
  induction H23 as [|x l2 l3 H23 IH|x l2 l3 H23 IH]; intros l1 H12.
  - exact H12.
  - constructor. apply IH. exact H12.
  - inversion H12; subst; constructor; apply IH; assumption.
Qed.

Lemma subsequence_In {A : Type} (l l' : list A) (x : A) :
  subsequence l l' -> In x l -> In x l'.
Proof.
  induction 1 as [|y l l' Hs IH|y l l' Hs IH]; intros Hin; cbn in *; tauto.
Qed.

Lemma skip_run_keeps_other (k b : compressed_block) (l : list compressed_block) :
  In b l -> same_len_hash b k = false -> In b (skip_run k l).
Proof.
  induction l as [|t l IH]; intros Hin Hbk; [contradiction|].
  cbn [skip_run]. destruct (same_len_hash t k) eqn:Htk.
  - destruct Hin as [->|Hin]; [congruence|]. apply IH; assumption.
  - exact Hin.
Qed.

Lemma key_in_subsequence (b : compressed_block) (l l' : list compressed_block) :
  subsequence l l' -> key_in b l' = false -> key_in b l = false.
Proof.
  unfold key_in. induction 1 as [|y l l' Hs IH|y l l' Hs IH]; cbn; intros Hk.
  - reflexivity.
  - apply orb_false_iff in Hk as (_ & Hk). auto.
  - apply orb_false_iff in Hk as (Hy & Hk). rewrite Hy. cbn. auto.
Qed.

Lemma before_asym (a b : compressed_block) :
  sort_by_len_hash a b = true -> sort_by_len_hash b a = false.
Proof. intros Hab. key_cases. Qed.

Lemma remove_duplicates_any (n : nat) :
  forall source target : list compressed_block,
    (List.length source + List.length target <= n)%nat ->
    subsequence (fst (remove_duplicates source target)) source
    /\ subsequence (snd (remove_duplicates source target)) target
    /\ (forall b, In b source -> key_in b target = false ->
                  In b (fst (remove_duplicates source target)))
    /\ remove_duplicates target source
       = (snd (remove_duplicates source target),
          fst (remove_duplicates source target)).
Proof.
  induction n as [|n IH]; intros source target Hn.
  - destruct source, target; cbn in Hn; try lia.
    rewrite remove_duplicates_equation_1. cbn.
    repeat split; try constructor. intros b [].
  - destruct source as [|bi i'].
    { rewrite remove_duplicates_equation_1. cbn [fst snd].
      split; [constructor|]. split; [apply subsequence_refl|].
      split; [intros b []|].
      destruct target; [rewrite remove_duplicates_equation_1
                       |rewrite remove_duplicates_equation_2]; reflexivity. }
    destruct target as [|bj j'].
    { rewrite remove_duplicates_equation_2, remove_duplicates_equation_1.
      cbn [fst snd]. split; [apply subsequence_refl|]. split; [constructor|].
      split; [intros b Hb _; exact Hb|reflexivity]. }
    cbn [List.length] in Hn.
    rewrite (remove_duplicates_cons bj bi), (remove_duplicates_cons bi bj).
    destruct (sort_by_len_hash bi bj) eqn:Hij.
    + rewrite (before_asym bi bj Hij).
      destruct (IH i' (bj :: j') ltac:(cbn [List.length]; lia))
        as (H1 & H2 & H3 & H4).
      rewrite H4. cbn [fst snd].
      split; [constructor; exact H1|]. split; [exact H2|]. split; [|reflexivity].
      intros b [<-|Hb] Hk; [left; reflexivity|right; auto].
    + destruct (sort_by_len_hash bj bi) eqn:Hji.
      * destruct (IH (bi :: i') j' ltac:(cbn [List.length]; lia))
          as (H1 & H2 & H3 & H4).
        rewrite H4. cbn [fst snd].
        split; [exact H1|]. split; [constructor; exact H2|]. split; [|reflexivity].
        intros b Hb Hk. apply H3; [exact Hb|].
        unfold key_in in Hk |- *. cbn [existsb] in Hk.
        apply orb_false_iff in Hk as (_ & Hk). exact Hk.
      * pose proof (not_before_same bi bj Hij Hji) as Hsame.
        pose proof (skip_run_length bi i'). pose proof (skip_run_length bj j').
        destruct (IH (skip_run bi i') (skip_run bj j') ltac:(lia))
          as (H1 & H2 & H3 & H4).
        split.
        { constructor. eapply subsequence_trans; [exact H1|].
          apply skip_run_subsequence. }
        split.
        { constructor. eapply subsequence_trans; [exact H2|].
          apply skip_run_subsequence. }
        split; [|exact H4].
        intros b Hb Hk.
        assert (same_len_hash b bj = false) as Hbj.
        { unfold key_in in Hk. cbn [existsb] in Hk.
          apply orb_false_iff in Hk as (Hk & _). exact Hk. }
        assert (same_len_hash b bi = false) as Hbi.
        { destruct (same_len_hash b bi) eqn:E; [|reflexivity].
          rewrite <- (same_len_hash_trans b bi bj E), Hsame in Hbj. discriminate. }
        apply H3.
        -- apply skip_run_keeps_other; [|exact Hbi].
           destruct Hb as [<-|Hb]; [|exact Hb].
           rewrite same_len_hash_refl in Hbi. discriminate.
        -- apply (key_in_subsequence b _ (bj :: j')); [|exact Hk].
           constructor. apply skip_run_subsequence.
Qed.

(** X3: on two lists in any order, sorted or not, the loop only leaves
    entries out: what is left of each list is a subsequence of it; it never
    removes an entry whose (length, hash) key is absent from the other list;
    and it treats the two lists alike: with the lists swapped it leaves the
    same two lists, swapped. *)
Theorem remove_duplicates_any_order (source target : list compressed_block) :
  subsequence (fst (remove_duplicates source target)) source
  /\ subsequence (snd (remove_duplicates source target)) target
  /\ (forall b, In b source -> key_in b target = false ->
                In b (fst (remove_duplicates source target)))
  /\ (forall b, In b target -> key_in b source = false ->
                In b (snd (remove_duplicates source target)))
  /\ remove_duplicates target source
     = (snd (remove_duplicates source target),
        fst (remove_duplicates source target)).
Proof.
  destruct (remove_duplicates_any _ source target (Nat.le_refl _))
    as (H1 & H2 & H3 & H4).
  destruct (remove_duplicates_any _ target source (Nat.le_refl _))
    as (_ & _ & H3' & _).
  rewrite H4 in H3'. cbn [fst] in H3'.
  repeat split; assumption.
Qed.

Lemma remove_duplicates_any_order_witness :
  let source := [mk_block 1 9 0 9; mk_block 2 2 0 2; mk_block 3 9 0 9] in
  let target := [mk_block 4 2 0 2; mk_block 5 7 0 7] in
  In (mk_block 1 9 0 9) (fst (remove_duplicates source target))
  /\ In (mk_block 5 7 0 7) (snd (remove_duplicates source target)).
Proof.
  intros source target.
  destruct (remove_duplicates_any_order source target) as (_ & _ & Hs & Ht & _).
  split.
  - apply Hs; [left; reflexivity|reflexivity].
  - apply Ht; [right; left; reflexivity|reflexivity].
Defined.

(** ** The deduplication loop on sorted lists, again *)

Lemma without_keys_of_fixed (other other' l : list compressed_block) :
  subsequence other' other ->
  without_keys_of other' (without_keys_of other l) = without_keys_of other l.
Proof.
  intros Hsub. unfold without_keys_of. apply filter_all.
  apply Forall_forall. intros b Hb. apply filter_In in Hb as (_ & Hb).
  apply negb_true_iff in Hb. rewrite (key_in_subsequence b _ _ Hsub Hb).
  reflexivity.
Qed.

Lemma filter_subsequence {A : Type} (f : A -> bool) (l : list A) :
  subsequence (filter f l) l.
Proof.
  induction l as [|x l IH]; cbn; [constructor|].
  destruct (f x); constructor; exact IH.
Qed.

(** X4: on sorted lists the loop is idempotent, a second pass over its own
    results removes nothing; deduplicating a sorted list against itself
    leaves both lists empty; and when the two sorted lists share no key,
    nothing is removed. *)
Theorem remove_duplicates_again (source target : list compressed_block) :
  Sorted le_len_hash source -> Sorted le_len_hash target ->
  remove_duplicates (fst (remove_duplicates source target))
                    (snd (remove_duplicates source target))
  = remove_duplicates source target
  /\ remove_duplicates source source = ([], [])
  /\ ((forall b, In b source -> key_in b target = false) ->
      remove_duplicates source target = (source, target)).
Proof.
  intros Hs Ht.
  apply (Sorted_StronglySorted le_len_hash_Transitive) in Hs, Ht.
  rewrite (remove_duplicates_sorted _ source target (Nat.le_refl _) Hs Ht).
  cbn [fst snd]. split; [|split].
  - assert (StronglySorted le_len_hash (without_keys_of target source)) as Hs'
      by (apply filter_StronglySorted; exact Hs).
    assert (StronglySorted le_len_hash (without_keys_of source target)) as Ht'
      by (apply filter_StronglySorted; exact Ht).
    rewrite (remove_duplicates_sorted _ _ _ (Nat.le_refl _) Hs' Ht').
    rewrite !without_keys_of_fixed by apply filter_subsequence. reflexivity.
  - rewrite (remove_duplicates_sorted _ source source (Nat.le_refl _) Hs Hs).
    assert (without_keys_of source source = []) as ->; [|reflexivity].
    unfold without_keys_of.
    assert (forall l, incl l source ->
              filter (fun b => negb (key_in b source)) l = []) as Hall.
    { induction l as [|b l IH]; intros Hincl; [reflexivity|]. cbn.
      assert (key_in b source = true) as ->.
      { unfold key_in. apply existsb_exists. exists b.
        split; [apply Hincl; left; reflexivity|apply same_len_hash_refl]. }
      cbn. apply IH. intros x Hx. apply Hincl. right. exact Hx. }
    apply Hall. apply incl_refl.
  - intros Hdisjoint. unfold without_keys_of. f_equal.
    + apply filter_all. apply Forall_forall. intros b Hb.
      rewrite (Hdisjoint b Hb). reflexivity.
    + apply filter_all. apply Forall_forall. intros t Hin.
      apply negb_true_iff. destruct (key_in t source) eqn:Hk; [|reflexivity].
      unfold key_in in Hk. apply existsb_exists in Hk as (b & Hb & Hsame).
      specialize (Hdisjoint b Hb).
      assert (key_in b target = true) as Hbt.
      { unfold key_in. apply existsb_exists. exists t.
        split; [exact Hin|]. rewrite same_len_hash_sym. exact Hsame. }
      congruence.
Qed.

Lemma remove_duplicates_again_witness :
  let l := [mk_block 104 2 0 1393557216; mk_block 98 4 0 2414964381] in
  remove_duplicates l l = ([], [])
  /\ remove_duplicates l [mk_block 7 3 0 1] = (l, [mk_block 7 3 0 1]).
Proof.
  intros l.
  destruct (remove_duplicates_again l l) as (_ & Hself & _);
    [repeat constructor|repeat constructor|].
  destruct (remove_duplicates_again l [mk_block 7 3 0 1]) as (_ & _ & Hdisjoint);
    [repeat constructor|repeat constructor|].
  split; [exact Hself|]. apply Hdisjoint.
  intros b [<-|[<-|[]]]; reflexivity.
Defined.

(** ** What the inode and fragment loops collect *)

Lemma block_list_entry_appends (pos entry pos' : Z)
    (blocks blocks' : list compressed_block) :
  block_list_entry (pos, blocks) entry = Ret (pos', blocks') ->
  exists new,
    blocks' = blocks ++ new
    /\ map length new = filter compressed_entry [entry]
    /\ Forall compressed_size new.
Proof.
  unfold block_list_entry, compressed_entry. cbn [filter].
  destruct (Z.eqb_spec (Z.land entry squashfs.block_size_uncompressed) 0) as [E|E];
    cbn [negb andb].
  - destruct (Z.eqb_spec entry 0) as [Z0|Z0]; cbn [negb]; intros H;
      injection H as _ <-.
    + exists []. rewrite app_nil_r. split; [reflexivity|].
      split; [reflexivity|constructor].
    + exists [mk_block pos entry 0 0]. split; [reflexivity|].
      split; [reflexivity|]. repeat constructor; assumption.
  - intros H. apply bind_Ret_inv in H as ([] & _ & H). injection H as _ <-.
    exists []. rewrite app_nil_r. split; [reflexivity|].
    split; [reflexivity|constructor].
Qed.

Lemma filter_app_list {A : Type} (f : A -> bool) (l l' : list A) :
  filter f (l ++ l') = filter f l ++ filter f l'.
Proof.
  induction l as [|x l IH]; cbn; [reflexivity|].
  destruct (f x); cbn; rewrite IH; reflexivity.
Qed.

Lemma walk_block_list_appends (bl : nat -> Z) (count : nat) :
  forall (j : nat) (pos pos' : Z) (blocks blocks' : list compressed_block),
    walk_block_list bl j count (pos, blocks) = Ret (pos', blocks') ->
    exists new,
      blocks' = blocks ++ new
      /\ map length new = filter compressed_entry (map bl (seq j count))
      /\ Forall compressed_size new.
Proof.
  induction count as [|count IH]; intros j pos pos' blocks blocks' H.
  - cbn in H. injection H as _ <-. exists []. rewrite app_nil_r.
    split; [reflexivity|]. split; [reflexivity|constructor].
  - cbn [walk_block_list] in H. apply bind_Ret_inv in H as ([pos1 blocks1] & H1 & H).
    apply block_list_entry_appends in H1 as (new1 & -> & Hlen1 & Hnew1).
    apply IH in H as (new2 & -> & Hlen2 & Hnew2).
    exists (new1 ++ new2). rewrite app_assoc. split; [reflexivity|]. split.
    + rewrite map_app, Hlen1, Hlen2. cbn [seq map].
      change (bl j :: map bl (seq (S j) count))
        with ([bl j] ++ map bl (seq (S j) count)).
      rewrite filter_app_list. reflexivity.
    + apply Forall_app. split; assumption.
Qed.

Lemma inode_blocks_appends (sb : squashfs.super_block) (i : squashfs.inode)
    (blocks blocks' : list compressed_block) :
  inode_blocks sb i blocks = Ret blocks' ->
  exists new,
    blocks' = blocks ++ new
    /\ map length new = filter compressed_entry (inode_entries sb i)
    /\ Forall compressed_size new.
Proof.
  destruct i as [r|r|t]; cbn [inode_blocks inode_entries]; intros H.
  - apply bind_Ret_inv in H as ([pos' found] & Hwalk & H). injection H as <-.
    eapply walk_block_list_appends. exact Hwalk.
  - apply bind_Ret_inv in H as ([pos' found] & Hwalk & H). injection H as <-.
    eapply walk_block_list_appends. exact Hwalk.
  - injection H as <-. exists []. rewrite app_nil_r.
    split; [reflexivity|]. split; [reflexivity|constructor].
Qed.

(** X5: the inode loop and the fragment loop only append to the list of
    data blocks, and what they append is one descriptor for every
    compressed entry they meet, in the order they meet them, and nothing
    else: the lengths of the descriptors the inode loop appends are exactly
    the block-list entries, over the inodes read, that are not zero and do
    not carry the uncompressed flag; the descriptors the fragment loop
    appends have the start block and size of exactly the fragment entries
    without the flag.  So uncompressed blocks, sparse blocks and
    uncompressed fragments never become descriptors, and every descriptor
    has a length that is not zero and does not carry the flag. *)
Theorem data_blocks_are_compressed `{Ext : Externals} (sb : squashfs.super_block) :
  (forall (count : nat) (ir ir' : InodeReader)
          (blocks blocks' : list compressed_block),
      read_inodes sb count ir blocks = Ret (blocks', ir') ->
      exists (inodes : list squashfs.inode) (new : list compressed_block),
        inodes_read count ir = Ret (inodes, ir')
        /\ blocks' = blocks ++ new
        /\ map length new
           = flat_map (fun i => filter compressed_entry (inode_entries sb i))
                      inodes
        /\ Forall compressed_size new)
  /\ (forall (count : nat) (fr fr' : FragmentTableReader)
             (blocks blocks' : list compressed_block),
      read_fragments count fr blocks = Ret (blocks', fr') ->
      exists (entries : list squashfs.fragment_entry)
             (new : list compressed_block),
        fragments_read count fr = Ret (entries, fr')
        /\ blocks' = blocks ++ new
        /\ map (fun b => (offset b, length b)) new
           = map (fun fe => (squashfs.fe_start_block fe, squashfs.size fe))
               (filter (fun fe => Z.land (squashfs.size fe)
                                    squashfs.block_size_uncompressed =? 0)
                       entries)
        /\ Forall (fun fe => squashfs.size fe <> 0) entries
        /\ Forall compressed_size new).
Proof.
  split.
  - induction count as [|count IH]; intros ir ir' blocks blocks' H.
    + cbn in H. injection H as <- <-. exists [], []. rewrite app_nil_r.
      repeat split; constructor.
    + cbn [read_inodes] in H.
      apply bind_Ret_inv in H as ([i ir1] & Hread & H).
      apply bind_Ret_inv in H as (blocks1 & H1 & H).
      apply inode_blocks_appends in H1 as (new1 & -> & Hlen1 & Hnew1).
      apply IH in H as (inodes & new2 & Hrest & -> & Hlen2 & Hnew2).
      exists (i :: inodes), (new1 ++ new2).
      split; [cbn [inodes_read]; rewrite Hread; cbn [bind]; rewrite Hrest;
              reflexivity|].
      rewrite app_assoc. split; [reflexivity|]. split.
      * rewrite map_app, Hlen1, Hlen2. reflexivity.
      * apply Forall_app. split; assumption.
  - induction count as [|count IH]; intros fr fr' blocks blocks' H.
    + cbn in H. injection H as <- <-. exists [], []. rewrite app_nil_r.
      repeat split; constructor.
    + cbn [read_fragments] in H.
      apply bind_Ret_inv in H as ([fe fr1] & Hread & H).
      apply bind_Ret_inv in H as ([] & Hassert & H).
      destruct (Z.eqb_spec (squashfs.size fe) 0) as [Z0|Z0]; [discriminate|].
      apply IH in H as (entries & new2 & Hrest & Hblocks & Hpairs & Hsizes & Hnew2).
      exists (fe :: entries).
      assert (fragments_read (S count) fr = Ret (fe :: entries, fr')) as Hall
        by (cbn [fragments_read]; rewrite Hread; cbn [bind]; rewrite Hrest;
            reflexivity).
      cbn [filter].
      destruct (Z.eqb_spec (Z.land (squashfs.size fe) squashfs.block_size_uncompressed) 0)
        as [E|E].
      * exists (mk_block (squashfs.fe_start_block fe) (squashfs.size fe) 0 0 :: new2).
        split; [exact Hall|]. rewrite Hblocks, <- app_assoc.
        split; [reflexivity|]. split; [cbn [map offset length]; rewrite Hpairs;
                                       reflexivity|].
        split; [constructor; assumption|].
        constructor; [split; assumption|exact Hnew2].
      * exists new2. split; [exact Hall|]. split; [exact Hblocks|].
        split; [exact Hpairs|]. split; [constructor; assumption|exact Hnew2].
Qed.

Lemma data_blocks_are_compressed_witness :
  exists (inodes : list squashfs.inode) (new : list compressed_block),
    [mk_block 96 3 0 0; mk_block 103 5 0 0] = [] ++ new
    /\ map length new
       = flat_map (fun i => filter compressed_entry
                              (inode_entries file_super_block i)) inodes
    /\ inodes
       = [squashfs.as_reg
            (regular_file 96 [3; 0; squashfs.block_size_uncompressed + 4; 5])].
Proof.
  destruct (@data_blocks_are_compressed small file_super_block) as (Hinodes & _).
  destruct (Hinodes 1%nat
              ([squashfs.as_reg
                  (regular_file 96 [3; 0; squashfs.block_size_uncompressed + 4; 5])], 1)
              ([], 1) [] [mk_block 96 3 0 0; mk_block 103 5 0 0]
              ltac:(vm_compute; reflexivity))
    as (inodes & new & Hread & Hnew & Hlen & _).
  exists inodes, new. split; [exact Hnew|]. split; [exact Hlen|].
  vm_compute in Hread. injection Hread as <-. reflexivity.
Defined.

(** ** The running offset of one file *)

Lemma top_bit_clear_small (e : Z) :
  0 <= e < 2 ^ 32 -> Z.testbit e 31 = false -> e < 2 ^ 31.
Proof.
  intros He Hb. apply Z.testbit_false in Hb; [|lia].
  assert (e / 2 ^ 31 < 2) by (apply Z.div_lt_upper_bound; lia).
  assert (0 <= e / 2 ^ 31) by (apply Z.div_pos; lia).
  assert (e / 2 ^ 31 = 0) as Hq.
  { destruct (Z.eq_dec (e / 2 ^ 31) 0) as [?|Hne]; [assumption|].
    assert (e / 2 ^ 31 = 1) as H1 by lia. rewrite H1 in Hb. discriminate. }
  apply Z.div_small_iff in Hq; lia.
Qed.

Lemma laid_out_from_earlier (cb : list compressed_block) (p p' n : Z) :
  p <= p' -> laid_out p' n cb -> laid_out p n cb.
Proof.
  destruct cb as [|b cb]; cbn; intros Hp H; [lia|].
  destruct H as (H1 & H2 & H3). repeat split; try assumption. lia.
Qed.

Lemma entry_size_range (e : Z) : 0 <= entry_size e < 2 ^ 31.
Proof.
  unfold entry_size. change 0x7fffffff with (Z.ones 31).
  rewrite Z.land_ones by lia. apply Z.mod_pos_bound. lia.
Qed.

Lemma flat_map_shift {A : Type} (f : nat -> list A) (n : nat) :
  forall j, flat_map f (seq (S j) n) = flat_map (fun k => f (S k)) (seq j n).
Proof.
  induction n as [|n IH]; intros j; [reflexivity|].
  cbn [seq flat_map]. rewrite IH. reflexivity.
Qed.

Lemma placed_cons (start e : Z) (entries : list Z) :
  placed start (e :: entries)
  = (if compressed_entry e then [(start, e)] else [])
    ++ placed (start + entry_size e) entries.
Proof.
  unfold placed. cbn [List.length seq flat_map nth firstn map].
  f_equal.
  - unfold sum_Z. cbn [fold_right]. rewrite Z.add_0_r. reflexivity.
  - rewrite flat_map_shift. apply flat_map_ext. intros k.
    cbn [nth firstn map]. unfold sum_Z. cbn [fold_right].
    rewrite Z.add_assoc. reflexivity.
Qed.

Lemma walk_block_list_laid_out (bl : nat -> Z) (count : nat) :
  forall (j : nat) (pos pos' : Z) (blocks blocks' : list compressed_block),
    0 <= pos ->
    (forall k, (j <= k < j + count)%nat -> 0 <= bl k < 2 ^ 32) ->
    pos + 2 ^ 32 * Z.of_nat count <= 2 ^ 64 ->
    walk_block_list bl j count (pos, blocks) = Ret (pos', blocks') ->
    exists new,
      blocks' = blocks ++ new
      /\ map (fun b => (offset b, length b)) new
         = placed pos (map bl (seq j count))
      /\ laid_out pos pos' new
      /\ Forall (fun b => 0 < length b < 2 ^ 31) new
      /\ pos' = pos + sum_Z (map (fun k => entry_size (bl k)) (seq j count)).
Proof.
  induction count as [|count IH]; intros j pos pos' blocks blocks' Hpos Hbl Hmax H.
  - cbn in H. injection H as <- <-. exists []. rewrite app_nil_r. cbn.
    repeat split; try constructor; lia.
  - cbn [walk_block_list] in H.
    apply bind_Ret_inv in H as ([pos1 blocks1] & H1 & H).
    assert (0 <= bl j < 2 ^ 32) as He by (apply Hbl; lia).
    pose proof (entry_size_range (bl j)) as Hsize.
    assert (exists new1,
               blocks1 = blocks ++ new1 /\ pos1 = pos + entry_size (bl j)
               /\ (new1 = [] /\ compressed_entry (bl j) = false
                   \/ new1 = [mk_block pos (bl j) 0 0]
                      /\ compressed_entry (bl j) = true
                      /\ 0 < bl j < 2 ^ 31 /\ entry_size (bl j) = bl j))
      as (new1 & -> & -> & Hnew1).
    { unfold block_list_entry in H1. unfold compressed_entry.
      rewrite top_bit_land in H1 |- * by lia. rewrite low_bits_land in H1 by lia.
      fold (entry_size (bl j)) in H1.
      destruct (Z.testbit (bl j) 31) eqn:Hb; cbn [negb andb] in H1 |- *.
      - apply bind_Ret_inv in H1 as ([] & _ & H1). injection H1 as <- <-.
        exists []. rewrite app_nil_r. split; [reflexivity|].
        split; [|left; split; reflexivity].
        unfold wrap64. apply Z.mod_small. lia.
      - pose proof (top_bit_clear_small _ He Hb) as Hsmall.
        assert (entry_size (bl j) = bl j) as Hes.
        { unfold entry_size. change 0x7fffffff with (Z.ones 31).
          rewrite Z.land_ones by lia. apply Z.mod_small. lia. }
        destruct (Z.eqb_spec (bl j) 0) as [Z0|Z0]; cbn [negb] in H1 |- *;
          injection H1 as <- <-.
        + exists []. rewrite app_nil_r. split; [reflexivity|].
          split; [rewrite Hes; lia|left; split; reflexivity].
        + exists [mk_block pos (bl j) 0 0]. split; [reflexivity|].
          split; [|right; repeat split; try lia; exact Hes].
          cbn [length]. rewrite Hes. unfold wrap64. apply Z.mod_small. lia. }
    apply IH in H as (new2 & -> & Hplaced & Hlaid & Hlen & ->); try lia.
    2:{ intros k Hk. apply Hbl. lia. }
    exists (new1 ++ new2). rewrite app_assoc. split; [reflexivity|].
    cbn [seq map sum_Z fold_right].
    fold (sum_Z (map (fun k => entry_size (bl k)) (seq (S j) count))).
    rewrite placed_cons, map_app, Hplaced.
    destruct Hnew1 as [(-> & ->)|(-> & -> & Hl & Hes)]; cbn [app map offset length].
    + split; [reflexivity|]. split; [|split; [exact Hlen|lia]].
      eapply laid_out_from_earlier; [|exact Hlaid]. lia.
    + split; [reflexivity|]. split; [|split; [|lia]].
      * cbn [laid_out offset length]. rewrite Hes in Hlaid |- *.
        split; [lia|]. split; [lia|].
        exact Hlaid.
      * constructor; [exact Hl|exact Hlen].
Qed.

(** X6: when the entries of a file's block list are 32-bit values and the
    running offset cannot pass 2^64, the walk over the block list ends with
    the running offset at [start_block] plus the on-disk sizes (low 31
    bits) of all entries, compressed or not.  It records a descriptor for
    exactly the compressed entries, in order, each with the entry as its
    length and with its offset at [start_block] plus the on-disk sizes of
    all entries before it; so the descriptors lie one after the other
    without overlap, each with a length between 1 and 2^31 - 1, and
    [inode_blocks] returns the list the walk leaves. *)
Theorem inode_blocks_contiguous (sb : squashfs.super_block)
    (i : squashfs.inode) (r : squashfs.reg_inode)
    (blocks blocks' : list compressed_block) :
  let count :=
    Z.to_nat (wrap64 (squashfs.block_count r (squashfs.block_size sb)
                                             (squashfs.block_log sb))) in
  let entries := map (squashfs.block_list r) (seq 0 count) in
  0 <= squashfs.start_block r ->
  (forall k, (k < count)%nat -> 0 <= squashfs.block_list r k < 2 ^ 32) ->
  squashfs.start_block r + 2 ^ 32 * Z.of_nat count <= 2 ^ 64 ->
  i = squashfs.as_reg r \/ i = squashfs.as_lreg r ->
  inode_blocks sb i blocks = Ret blocks' ->
  walk_block_list (squashfs.block_list r) 0 count
    (squashfs.start_block r, blocks)
  = Ret (squashfs.start_block r + sum_Z (map entry_size entries), blocks')
  /\ exists new,
       blocks' = blocks ++ new
       /\ map (fun b => (offset b, length b)) new
          = placed (squashfs.start_block r) entries
       /\ laid_out (squashfs.start_block r)
            (squashfs.start_block r + sum_Z (map entry_size entries)) new
       /\ Forall (fun b => 0 < length b < 2 ^ 31) new.
Proof.
  intros count entries Hstart Hentries Hmax Hreg H.
  assert (inode_blocks sb i blocks = inode_blocks sb (squashfs.as_reg r) blocks)
    as Hi by (destruct Hreg as [-> | ->]; reflexivity).
  rewrite Hi in H. cbn [inode_blocks] in H.
  apply bind_Ret_inv in H as ([pos' found] & Hwalk & H). injection H as <-.
  fold count in Hwalk.
  pose proof Hwalk as Hwalk'.
  apply walk_block_list_laid_out in Hwalk'
    as (new & -> & Hplaced & Hlaid & Hlen & Hpos'); try assumption.
  2:{ intros k Hk. apply Hentries. lia. }
  assert (sum_Z (map (fun k => entry_size (squashfs.block_list r k)) (seq 0 count))
          = sum_Z (map entry_size entries)) as Hsum
    by (unfold entries; rewrite map_map; reflexivity).
  rewrite Hsum in Hpos'. subst pos'.
  split; [exact Hwalk|].
  exists new. repeat split; assumption.
Qed.

Lemma inode_blocks_contiguous_witness :
  exists new,
    [mk_block 96 3 0 0; mk_block 103 5 0 0] = [] ++ new
    /\ map (fun b => (offset b, length b)) new = [(96, 3); (103, 5)]
    /\ laid_out 96 108 new.
Proof.
  destruct (inode_blocks_contiguous file_super_block
              (squashfs.as_reg
                 (regular_file 96 [3; 0; squashfs.block_size_uncompressed + 4; 5]))
              (regular_file 96 [3; 0; squashfs.block_size_uncompressed + 4; 5])
              [] [mk_block 96 3 0 0; mk_block 103 5 0 0])
    as (_ & new & Hnew & Hplaced & Hlaid & _).
  - cbn. lia.
  - intros k Hk. change (Z.to_nat _) with 4%nat in Hk.
    destruct k as [|[|[|[|k]]]]; cbn; try lia.
  - change (Z.to_nat _) with 4%nat. cbn. lia.
  - left. reflexivity.
  - vm_compute. reflexivity.
  - exists new. split; [exact Hnew|]. split; [exact Hplaced|exact Hlaid].
Defined.

(** ** What [get_blocks] has checked when it returns *)

Lemma select_compressor_Ret `{Externals} (id : Z) (c0 : option Compressor)
    (c : Compressor) :
  select_compressor id c0 = Ret c ->
  id = get_compression_value c /\ codec_enabled c = true
  /\ (forall c1, c0 = Some c1 -> c = c1).
Proof.
  unfold select_compressor, codec_enabled.
  destruct (Z.eqb_spec id squashfs.compression_lzo) as [E1|E1].
  - destruct ENABLE_LZO eqn:Hen; [|discriminate].
    destruct c0 as [[|]|]; cbn; intros Hc; try discriminate; injection Hc as <-;
      repeat split; try assumption; intros c1 Hc1; congruence.
  - destruct (Z.eqb_spec id squashfs.compression_lz4) as [E2|E2]; [|discriminate].
    destruct ENABLE_LZ4 eqn:Hen; [|discriminate].
    destruct c0 as [[|]|]; cbn; intros Hc; try discriminate; injection Hc as <-;
      repeat split; try assumption; intros c1 Hc1; congruence.
Qed.

Lemma verify_super_block_Ret `{Externals} (f : MMAPFile) (c0 : option Compressor)
    (block_size0 : Z) (sb : squashfs.super_block) (c : Compressor)
    (block_size : Z) :
  verify_super_block f c0 block_size0 = Ret (sb, c, block_size) ->
  read_super_block f = Ret sb
  /\ squashfs.s_magic sb = squashfs.magic
  /\ squashfs.s_major sb = 4 /\ squashfs.s_minor sb = 0
  /\ block_size = squashfs.block_size sb
  /\ (block_size0 <> 0 -> block_size0 = squashfs.block_size sb)
  /\ squashfs.compression sb = get_compression_value c
  /\ codec_enabled c = true
  /\ (forall c1, c0 = Some c1 -> c = c1).
Proof.
  unfold verify_super_block. intros Hv.
  apply bind_Ret_inv in Hv as (sb' & Hsb & Hv).
  destruct (Z.eqb_spec (squashfs.s_magic sb') squashfs.magic) as [Hm|Hm];
    [|discriminate]. cbn [negb] in Hv.
  destruct (Z.eqb_spec (squashfs.s_major sb') 4) as [Hmaj|Hmaj]; [|discriminate].
  destruct (Z.eqb_spec (squashfs.s_minor sb') 0) as [Hmin|Hmin]; [|discriminate].
  cbn [negb orb] in Hv.
  apply bind_Ret_inv in Hv as (bs & Hbs & Hv).
  apply bind_Ret_inv in Hv as (c' & Hc & Hv).
  apply bind_Ret_inv in Hv as (u & _ & Hv).
  injection Hv as -> -> ->.
  apply select_compressor_Ret in Hc as (Hid & Hen & Hc0).
  assert (block_size = squashfs.block_size sb
          /\ (block_size0 <> 0 -> block_size0 = squashfs.block_size sb))
    as (Hb1 & Hb2).
  { destruct (Z.eqb_spec block_size0 0) as [Z0|Z0].
    - injection Hbs as <-. split; [reflexivity|contradiction].
    - destruct (Z.eqb_spec block_size0 (squashfs.block_size sb)) as [E|E];
        [|discriminate].
      injection Hbs as <-. split; [exact E|intros _; exact E]. }
  repeat split; assumption.
Qed.

(** X7: [get_blocks] returns only for an image whose superblock it has
    accepted, whatever the image holds behind it and whatever the end node
    of the list of data blocks holds: the magic is the SquashFS magic, the
    version is 4.0, the compression identifier is that of the codec it
    returns, and the build holds that codec.  It never replaces a codec it
    was given, and the block size it returns is the block size of the
    image, which is also the block size it was given unless that was
    zero. *)
Theorem get_blocks_returns_for_valid `{Externals}
    (end_node : list compressed_block -> compressed_block) (f : MMAPFile)
    (c0 : option Compressor) (block_size0 : Z)
    (blocks : list compressed_block) (c : Compressor) (block_size : Z) :
  built.get_blocks end_node f c0 block_size0 = Ret (blocks, c, block_size) ->
  exists sb : squashfs.super_block,
    read_super_block f = Ret sb
    /\ squashfs.s_magic sb = squashfs.magic
    /\ squashfs.s_major sb = 4 /\ squashfs.s_minor sb = 0
    /\ block_size = squashfs.block_size sb
    /\ (block_size0 <> 0 -> block_size0 = squashfs.block_size sb)
    /\ squashfs.compression sb = get_compression_value c
    /\ codec_enabled c = true
    /\ (forall c1, c0 = Some c1 -> c = c1).
Proof.
  intros Hget. apply built_get_blocks_Ret_head in Hget as (sb & Hhead).
  exists sb. apply (verify_super_block_Ret _ _ _ _ _ _ Hhead).
Qed.

Lemma get_blocks_returns_for_valid_witness :
  exists sb : squashfs.super_block,
    @read_super_block small (mk_file (file_image_bytes x01) 0) = Ret sb
    /\ squashfs.s_magic sb = squashfs.magic
    /\ squashfs.s_major sb = 4 /\ squashfs.s_minor sb = 0
    /\ 131072 = squashfs.block_size sb
    /\ (131072 <> 0 -> 131072 = squashfs.block_size sb)
    /\ squashfs.compression sb = get_compression_value LZOCompressor
    /\ @codec_enabled small LZOCompressor = true
    /\ (forall c1, Some LZOCompressor = Some c1 -> LZOCompressor = c1).
Proof.
  apply (@get_blocks_returns_for_valid small (fun _ => mk_block 0 0 0 0)
           (mk_file (file_image_bytes x01) 0) (Some LZOCompressor) 131072
           [mk_block 96 3 0 4061361090]).
  vm_compute. reflexivity.
Defined.

(** ** The metadata blocks [get_blocks] records *)

Lemma read_input_block_Ret (r r' : MetadataBlockReader) (ib : input_block) :
  read_input_block r = Ret (ib, r') ->
  0 <= pos r
  /\ ib_pos ib = pos r + 2
  /\ 0 < ib_length ib <= 0x7fff
  /\ read_array (mk_file (data r) (ib_pos ib)) (ib_length ib) = Ret (ib_data ib, r')
  /\ data r' = data r
  /\ pos r' = ib_pos ib + ib_length ib
  /\ pos r' <= getlen r.
Proof.
  unfold read_input_block. intros H.
  apply bind_Ret_inv in H as ([hdr r1] & Hhdr & H).
  destruct (Z.eqb_spec (Z.land (le_value hdr) 0x7fff) 0) as [Z0|Z0]; [discriminate|].
  apply bind_Ret_inv in H as ([payload r2] & Hpay & H).
  injection H as <- <-. cbn [ib_pos ib_length ib_data].
  assert (0 <= Z.land (le_value hdr) 0x7fff <= 0x7fff) as Hrange.
  { change 0x7fff with (Z.ones 15). rewrite Z.land_ones by lia.
    pose proof (Z.mod_pos_bound (le_value hdr) (2 ^ 15) ltac:(lia)).
    change (Z.ones 15) with (2 ^ 15 - 1). lia. }
  unfold read_array in Hhdr.
  destruct ((0 <=? pos r) && (0 <=? 2) && (pos r + 2 <=? getlen r)) eqn:Hc;
    [|discriminate].
  apply andb_true_iff in Hc as (Hc & _). apply andb_true_iff in Hc as (Hc & _).
  apply Z.leb_le in Hc.
  injection Hhdr as _ <-. cbn [pos data] in *.
  assert (mk_file (data r) (pos r + 2) = mk_file (data r) (pos r + 2)) by reflexivity.
  split; [exact Hc|]. split; [reflexivity|]. split; [lia|].
  split; [exact Hpay|].
  unfold read_array in Hpay. cbn [pos data] in Hpay. unfold getlen in Hpay |- *.
  cbn [data] in Hpay.
  destruct ((0 <=? pos r + 2) && (0 <=? Z.land (le_value hdr) 32767)
            && (pos r + 2 + Z.land (le_value hdr) 32767 <=? Z.of_nat (List.length (data r))))
    eqn:Hc2; [|discriminate].
  apply andb_true_iff in Hc2 as (_ & Hc2). apply Z.leb_le in Hc2.
  injection Hpay as _ <-. cbn [pos data]. repeat split. exact Hc2.
Qed.

Lemma record_inode_blocks_same_loop `{Externals} (count : nat) :
  forall (r : MetadataBlockReader) (acc : list compressed_block),
    record_inode_blocks count r acc = record_fragment_table count r acc.
Proof.
  induction count as [|count IH]; intros r acc; [reflexivity|].
  cbn [record_inode_blocks record_fragment_table].
  destruct (read_input_block r) as [[ib r']| | |] eqn:Hread; try reflexivity.
  cbn [bind]. apply read_input_block_Ret in Hread as (_ & _ & Hlen & _).
  destruct (Z.eqb_spec (ib_length ib) 0) as [Z0|Z0]; [lia|].
  cbn [negb assert bind]. apply IH.
Qed.

Lemma record_fragment_table_split `{Externals} (n m : nat) :
  forall (r : MetadataBlockReader) (acc : list compressed_block),
    record_fragment_table (n + m) r acc
    = ('(acc', r') <- record_fragment_table n r acc ;;
       record_fragment_table m r' acc').
Proof.
  induction n as [|n IH]; intros r acc; [reflexivity|].
  cbn [Nat.add record_fragment_table].
  destruct (read_input_block r) as [[ib r']| | |]; try reflexivity.
  cbn [bind]. apply IH.
Qed.

Lemma laid_out_app (l1 l2 : list compressed_block) :
  forall p q n, laid_out p q l1 -> laid_out q n l2 -> laid_out p n (l1 ++ l2).
Proof.
  induction l1 as [|b l1 IH]; intros p q n H1 H2; cbn in *.
  - eapply laid_out_from_earlier; eassumption.
  - destruct H1 as (Ho & Hl & Hrest). repeat split; try assumption.
    eapply IH; eassumption.
Qed.

Lemma laid_out_upto_later (l : list compressed_block) :
  forall p n n', n <= n' -> laid_out p n l -> laid_out p n' l.
Proof.
  induction l as [|b l IH]; intros p n n' Hn H; cbn in *; [lia|].
  destruct H as (Ho & Hl & Hrest). repeat split; try assumption.
  eapply IH; eassumption.
Qed.

Lemma record_fragment_table_Ret `{Externals} (count : nat) :
  forall (r r' : MetadataBlockReader) (acc blocks : list compressed_block),
    record_fragment_table count r acc = Ret (blocks, r') ->
    data r' = data r /\ pos r <= pos r'
    /\ (count = 0%nat -> pos r' = pos r)
    /\ (count <> 0%nat -> 0 <= pos r /\ pos r' <= getlen r)
    /\ exists new,
         blocks = acc ++ new
         /\ laid_out (pos r) (pos r') new
         /\ Forall (hashed_on_disk (data r)) new
         /\ Forall (fun b => 0 < length b <= 0x7fff /\ pos r + 2 <= offset b) new.
Proof.
  induction count as [|count IH]; intros r r' acc blocks Hrec.
  - cbn in Hrec. injection Hrec as <- <-.
    split; [reflexivity|]. split; [lia|]. split; [reflexivity|].
    split; [intros []; reflexivity|].
    exists []. rewrite app_nil_r. cbn. repeat split; try constructor. lia.
  - cbn [record_fragment_table] in Hrec.
    apply bind_Ret_inv in Hrec as ([ib r1] & Hread & Hrec).
    apply read_input_block_Ret in Hread
      as (Hr0 & Hpos & Hlen & Hdisk & Hdata & Hpos1 & Hend).
    apply IH in Hrec
      as (Hdata' & Hle & Hzero & Hbound & new & -> & Hlaid & Hhash & Hfields).
    split; [congruence|]. split; [lia|]. split; [discriminate|].
    split.
    { intros _. split; [exact Hr0|].
      destruct count as [|count]; [|destruct Hbound as (_ & Hb); [discriminate|]].
      - rewrite Hzero by reflexivity. exact Hend.
      - unfold getlen in *. rewrite Hdata in Hb. exact Hb. }
    rewrite Hdata in Hhash.
    destruct (ib_compressed ib).
    + exists (mk_block (ib_pos ib) (ib_length ib) 0
                (murmurhash3 (ib_data ib) (ib_length ib) 0) :: new).
      rewrite <- app_assoc. split; [reflexivity|].
      split; [|split].
      * cbn [laid_out offset length]. split; [lia|]. split; [lia|].
        rewrite <- Hpos1. exact Hlaid.
      * constructor; [|exact Hhash].
        exists (ib_data ib). unfold on_disk. cbn [offset length hash].
        rewrite Hdisk. split; reflexivity.
      * constructor; [cbn; lia|].
        eapply Forall_impl; [|exact Hfields]. cbn. intros b (H1 & H3).
        repeat split; try assumption; lia.
    + exists new. split; [reflexivity|]. split; [|split].
      * eapply laid_out_from_earlier; [|exact Hlaid]. lia.
      * exact Hhash.
      * eapply Forall_impl; [|exact Hfields]. cbn. intros b (H1 & H3).
        repeat split; try assumption; lia.
Qed.

Lemma laid_out_sorted (cb : list compressed_block) :
  forall p n,
    0 <= p -> laid_out p n cb -> Forall (fun b => 0 < length b) cb ->
    Sorted before cb /\ Forall (within n) cb
    /\ (forall b, hd_error cb = Some b -> p <= offset b).
Proof.
  induction cb as [|b cb IH]; intros p n Hp Hlaid Hlen.
  - repeat split; try constructor. discriminate.
  - cbn [laid_out] in Hlaid. destruct Hlaid as (Ho & Hl & Hrest).
    inversion Hlen as [|? ? Hb Hlen']; subst.
    pose proof (laid_out_bounds _ _ _ Hrest) as Hb'.
    destruct (IH (offset b + length b) n ltac:(lia) Hrest Hlen') as (Hs & Hw & Hhd).
    split; [|split].
    + constructor; [exact Hs|].
      destruct cb as [|b2 cb]; constructor.
      specialize (Hhd b2 eq_refl). unfold before. lia.
    + constructor; [unfold within; lia|exact Hw].
    + intros b0 E. injection E as <-. exact Ho.
Qed.

Lemma recorded_metadata_blocks `{Externals} (count : nat)
    (r r' : MetadataBlockReader) (blocks : list compressed_block) :
  record_fragment_table count r [] = Ret (blocks, r') ->
  Forall (hashed_on_disk (data r)) blocks
  /\ Sorted before blocks
  /\ Forall (within (getlen r)) blocks
  /\ Forall (fun b => 0 < length b <= 0x7fff /\ pos r + 2 <= offset b) blocks.
Proof.
  intros Hrec.
  destruct count as [|count].
  { cbn in Hrec. injection Hrec as <- _. repeat split; constructor. }
  apply record_fragment_table_Ret in Hrec
    as (_ & _ & _ & Hbound & new & -> & Hlaid & Hhash & Hfields).
  destruct Hbound as (Hp & Hend); [discriminate|]. cbn [app].
  assert (Forall (fun b => 0 < length b) new) as Hpos.
  { eapply Forall_impl; [|exact Hfields]. cbn. intros b (Hb & _). lia. }
  destruct (laid_out_sorted new _ _ Hp Hlaid Hpos) as (Hs & Hw & _).
  split; [exact Hhash|]. split; [exact Hs|]. split; [|exact Hfields].
  eapply Forall_impl; [|exact Hw]. unfold within. intros b Hb. lia.
Qed.

Lemma read_input_block_at (r r' : MetadataBlockReader) (ib : input_block) :
  read_input_block r = Ret (ib, r') ->
  metadata_block_at (data r) (pos r) ib
  /\ r' = mk_file (data r) (ib_pos ib + ib_length ib).
Proof.
  unfold read_input_block. intros H.
  apply bind_Ret_inv in H as ([hdr r1] & Hhdr & H).
  destruct (Z.eqb_spec (Z.land (le_value hdr) 0x7fff) 0) as [Z0|Z0]; [discriminate|].
  apply bind_Ret_inv in H as ([payload r2] & Hpay & H).
  injection H as <- <-. cbn [ib_pos ib_length ib_data ib_compressed].
  assert (r1 = mk_file (data r) (pos r + 2)) as ->.
  { unfold read_array in Hhdr. destruct (_ && _); [|discriminate].
    injection Hhdr as _ <-. reflexivity. }
  assert (r2 = mk_file (data r) (pos r + 2 + Z.land (le_value hdr) 0x7fff)) as ->.
  { unfold read_array in Hpay. destruct (_ && _); [|discriminate].
    injection Hpay as _ <-. reflexivity. }
  cbn [pos data]. split; [|reflexivity].
  exists hdr. cbn [ib_pos ib_length ib_data ib_compressed].
  destruct r as [image p]. cbn [data pos] in *.
  repeat split; assumption.
Qed.

Lemma record_fragment_table_stream `{Externals} (count : nat) :
  forall (r r' : MetadataBlockReader) (acc blocks : list compressed_block),
    record_fragment_table count r acc = Ret (blocks, r') ->
    exists (stream : list input_block) (new : list compressed_block),
      List.length stream = count
      /\ consecutive_blocks (data r) (pos r) stream (pos r')
      /\ blocks = acc ++ new
      /\ map descriptor_fields new
         = map metadata_descriptor (filter ib_compressed stream).
Proof.
  induction count as [|count IH]; intros r r' acc blocks Hrec.
  - cbn in Hrec. injection Hrec as <- <-. exists [], []. rewrite app_nil_r.
    repeat split.
  - cbn [record_fragment_table] in Hrec.
    apply bind_Ret_inv in Hrec as ([ib r1] & Hread & Hrec).
    apply read_input_block_at in Hread as (Hat & ->).
    apply IH in Hrec as (stream & new & Hlen & Hcons & -> & Hfields).
    cbn [data pos] in Hcons.
    exists (ib :: stream). cbn [filter].
    destruct (ib_compressed ib).
    + exists (mk_block (ib_pos ib) (ib_length ib) 0
                (murmurhash3 (ib_data ib) (ib_length ib) 0) :: new).
      split; [cbn; rewrite Hlen; reflexivity|].
      split; [split; assumption|]. rewrite <- app_assoc.
      split; [reflexivity|]. cbn [map]. rewrite Hfields. reflexivity.
    + exists new. split; [cbn; rewrite Hlen; reflexivity|].
      split; [split; assumption|]. split; [reflexivity|exact Hfields].
Qed.

(** X8: the loop that records the inode blocks and the loop that records
    the fragment table, run one after the other on the same reader, are one
    loop over that many consecutive metadata blocks: the first has its
    two-byte header where the reader stands, each further one has its
    header where the payload of the one before ends.  The descriptors they
    record are those of exactly the compressed blocks among them (header
    bit 15 clear), in order: offset and length are those of the payload,
    two bytes behind the header, and the hash is that of the payload.  So
    every descriptor has the hash of the bytes it covers in the image and a
    length between 1 and 0x7fff, lies within the image, and the descriptors
    ascend without overlap. *)
Theorem metadata_loops_one_stream `{Externals} (n m : nat)
    (mir : MetadataBlockReader) :
  ('(blocks, mir') <- record_inode_blocks n mir [] ;;
   record_fragment_table m mir' blocks)
  = record_fragment_table (n + m) mir []
  /\ forall (blocks : list compressed_block) (mir' : MetadataBlockReader),
       record_fragment_table (n + m) mir [] = Ret (blocks, mir') ->
       (exists stream : list input_block,
          List.length stream = (n + m)%nat
          /\ consecutive_blocks (data mir) (pos mir) stream (pos mir')
          /\ map descriptor_fields blocks
             = map metadata_descriptor (filter ib_compressed stream))
       /\ Forall (hashed_on_disk (data mir)) blocks
       /\ Sorted before blocks
       /\ Forall (within (getlen mir)) blocks
       /\ Forall (fun b => 0 < length b <= 0x7fff /\ pos mir + 2 <= offset b)
            blocks.
Proof.
  split.
  - rewrite record_inode_blocks_same_loop, record_fragment_table_split.
    reflexivity.
  - intros blocks mir' Hrec. split; [|exact (recorded_metadata_blocks _ _ _ _ Hrec)].
    apply record_fragment_table_stream in Hrec
      as (stream & new & Hlen & Hcons & -> & Hfields).
    exists stream. repeat split; assumption.
Qed.

Lemma metadata_loops_one_stream_witness :
  let mir := MetadataBlockReader_new (mk_file tree_image 0) 96 LZOCompressor in
  let blocks := [mk_block 98 4 0 2414964381; mk_block 104 2 0 1393557216] in
  (exists stream : list input_block,
     List.length stream = 2%nat
     /\ consecutive_blocks tree_image 96 stream 106
     /\ map descriptor_fields blocks
        = map (@metadata_descriptor small) (filter ib_compressed stream))
  /\ Forall (@hashed_on_disk small tree_image) blocks
  /\ Sorted before blocks
  /\ Forall (within 118) blocks.
Proof.
  intros mir blocks.
  destruct (@metadata_loops_one_stream small 1 1 mir) as (_ & Hrec).
  destruct (Hrec blocks (mk_file tree_image 106) ltac:(vm_compute; reflexivity))
    as (Hstream & Hhash & Hsorted & Hwithin & _).
  repeat split; assumption.
Defined.

(** ** The data-block walk as built *)

Lemma sort_insert_offset_sorted (x : compressed_block)
    (l : list compressed_block) :
  Sorted (fun a b => offset a <= offset b) l ->
  Sorted (fun a b => offset a <= offset b) (sort_insert sort_by_offset x l).
Proof.
  induction 1 as [|y s Hs IHs Hhd]; cbn; [repeat constructor|].
  unfold sort_by_offset at 1.
  destruct (Z.ltb_spec (offset y) (offset x)) as [Hyx|Hyx].
  - constructor; [exact IHs|].
    destruct s as [|z s]; cbn.
    + constructor. lia.
    + unfold sort_by_offset at 1. destruct (Z.ltb_spec (offset z) (offset x)).
      * constructor. inversion Hhd; subst. assumption.
      * constructor. lia.
  - constructor; [constructor; assumption|]. constructor. exact Hyx.
Qed.

Lemma list_sort_by_offset_sorted (l : list compressed_block) :
  Sorted (fun a b => offset a <= offset b) (list_sort sort_by_offset l).
Proof.
  induction l as [|x l IH]; cbn; [constructor|].
  apply sort_insert_offset_sorted. exact IH.
Qed.

(** Behind a retained descriptor nothing is lost but its duplicates. *)
Lemma hash_data_blocks_covers `{Externals} (l : list compressed_block) :
  forall (hf : MMAPFile) (bj : compressed_block) (out : list compressed_block),
    hash_data_blocks hf (Some bj) l = Ret out ->
    forall b, In b l ->
      (exists b', In b' out /\ offset b' = offset b /\ length b' = length b)
      \/ (offset b = offset bj /\ length b = length bj).
Proof.
  induction l as [|bi l IH]; intros hf bj out Hout b Hb; [contradiction|].
  cbn [hash_data_blocks] in Hout.
  destruct (Z.eqb_spec (offset bi) (offset bj)) as [Heq|Hne].
  - apply bind_Ret_inv in Hout as ([] & Hassert & Hout).
    destruct (Z.eqb_spec (length bi) (length bj)) as [Hlen|Hlen]; [|discriminate].
    destruct Hb as [<-|Hb]; [right; split; assumption|].
    apply (IH _ _ _ Hout b Hb).
  - apply bind_Ret_inv in Hout as ([bytes hf'] & Hread & Hout).
    apply bind_Ret_inv in Hout as (rest & Hrest & Hout).
    injection Hout as <-.
    destruct Hb as [<-|Hb].
    + left. eexists. split; [left; reflexivity|]. split; reflexivity.
    + destruct (IH _ _ _ Hrest b Hb) as [(b' & Hin & Ho & Hl)|(Ho & Hl)].
      * left. exists b'. split; [right; exact Hin|]. split; assumption.
      * left. eexists. split; [left; reflexivity|].
        cbn in Ho, Hl |- *. split; congruence.
Qed.

Lemma built_hash_data_blocks_walk `{Externals}
    (end_node : list compressed_block -> compressed_block)
    (l : list compressed_block) :
  forall (hf : MMAPFile) (out : list compressed_block),
    Sorted (fun a b => offset a <= offset b) l ->
    built.hash_data_blocks end_node hf None l = Ret out ->
    Sorted (fun a b => offset a < offset b) out
    /\ Forall (fun b' =>
                 exists (b : compressed_block) (bytes : list byte),
                   In b l /\ on_disk (data hf) b = Ret bytes
                   /\ b' = set_hash b (murmurhash3 bytes (length b) 0)) out
    /\ (forall b, In b l ->
          (exists b', In b' out /\ offset b' = offset b /\ length b' = length b)
          \/ (exists i, offset b = offset (end_node i)
                        /\ length b = length (end_node i))).
Proof.
  induction l as [|bi l IH]; intros hf out Hsorted Hout.
  - cbn in Hout. injection Hout as <-.
    split; [constructor|]. split; [constructor|]. intros b [].
  - cbn [built.hash_data_blocks] in Hout.
    apply Sorted_inv in Hsorted as (Hsorted & Hhd).
    destruct (Z.eqb_spec (offset bi) (offset (end_node (bi :: l)))) as [Heq|Hne].
    + apply bind_Ret_inv in Hout as ([] & Hassert & Hout).
      destruct (Z.eqb_spec (length bi) (length (end_node (bi :: l))))
        as [Hlen|Hlen]; [|discriminate].
      destruct (IH hf out Hsorted Hout) as (Hasc & Hall & Hcov).
      split; [exact Hasc|]. split.
      * eapply Forall_impl; [|exact Hall].
        intros b' (b & bytes & Hin & Hdisk & ->). exists b, bytes.
        split; [right; exact Hin|]. split; [exact Hdisk|reflexivity].
      * intros b [<-|Hb]; [|apply Hcov; exact Hb].
        right. exists (bi :: l). split; assumption.
    + apply bind_Ret_inv in Hout as ([bytes hf'] & Hread & Hout).
      apply bind_Ret_inv in Hout as (rest & Hrest & Hout).
      injection Hout as <-.
      rewrite built_hash_data_blocks_Some in Hrest.
      pose proof (read_array_data _ _ _ _ Hread) as Hdata. cbn in Hdata.
      destruct (hash_data_blocks_later_turns l hf'
                  (set_hash bi (murmurhash3 bytes (length bi) 0)) rest)
        as (Hasc & Hall); [|exact Hrest|].
      { constructor; [exact Hsorted|].
        destruct Hhd as [|b0 l0 H0]; constructor. exact H0. }
      split; [exact Hasc|]. split.
      * constructor.
        -- exists bi, bytes. split; [left; reflexivity|]. split; [|reflexivity].
           unfold on_disk. unfold seek_beg in Hread. rewrite Hread. reflexivity.
        -- eapply Forall_impl; [|exact Hall].
           intros b' (b & bytes' & Hin & Hdisk & ->). exists b, bytes'.
           split; [right; exact Hin|]. rewrite Hdata in Hdisk.
           split; [exact Hdisk|reflexivity].
      * intros b [<-|Hb].
        -- left. eexists. split; [left; reflexivity|]. split; reflexivity.
        -- left.
           destruct (hash_data_blocks_covers _ _ _ _ Hrest b Hb)
             as [(b' & Hin & Ho & Hl)|(Ho & Hl)].
           ++ exists b'. split; [right; exact Hin|]. split; assumption.
           ++ eexists. split; [left; reflexivity|].
              cbn in Ho, Hl |- *. split; congruence.
Qed.

(** X17: the walk that hashes the data blocks, as built, on a list sorted
    by offset and for whatever the reads of the end node yield.  When it
    returns, the descriptors it leaves have strictly ascending, hence
    unique, offsets, and each is a descriptor of the list with its hash set
    to the hash of its on-disk bytes.  A descriptor of the list has its
    offset and length among those left, unless a read of the end node gave
    just that offset and length: only then is a block dropped that is no
    duplicate.  When the first read of the end node gives another offset
    than that of the first block, every offset of the list is kept, and
    the walk is the walk from the second turn on. *)
Theorem hash_data_blocks_as_built `{Externals}
    (end_node : list compressed_block -> compressed_block) (hf : MMAPFile)
    (l out : list compressed_block) :
  Sorted (fun a b => offset a <= offset b) l ->
  built.hash_data_blocks end_node hf None l = Ret out ->
  Sorted (fun a b => offset a < offset b) out
  /\ Forall (fun b' =>
               exists (b : compressed_block) (bytes : list byte),
                 In b l /\ on_disk (data hf) b = Ret bytes
                 /\ b' = set_hash b (murmurhash3 bytes (length b) 0)) out
  /\ (forall b, In b l ->
        (exists b', In b' out /\ offset b' = offset b /\ length b' = length b)
        \/ (exists i, offset b = offset (end_node i)
                      /\ length b = length (end_node i)))
  /\ (forall b0 l', l = b0 :: l' -> offset (end_node l) <> offset b0 ->
        hash_data_blocks hf (Some (end_node l)) l = Ret out
        /\ forall b, In b l ->
             exists b', In b' out /\ offset b' = offset b
                        /\ length b' = length b).
Proof.
  intros Hsorted Hout.
  destruct (built_hash_data_blocks_walk end_node l hf out Hsorted Hout)
    as (Hasc & Hall & Hcov).
  split; [exact Hasc|]. split; [exact Hall|]. split; [exact Hcov|].
  intros b0 l' -> Hne.
  assert (hash_data_blocks hf (Some (end_node (b0 :: l'))) (b0 :: l') = Ret out)
    as Hstrict.
  { rewrite <- Hout. cbn [hash_data_blocks built.hash_data_blocks].
    destruct (Z.eqb_spec (offset b0) (offset (end_node (b0 :: l'))));
      [congruence|].
    destruct (read_array (seek_beg hf (offset b0)) (length b0))
      as [[bytes hf']| | |]; cbn [bind]; try reflexivity.
    rewrite built_hash_data_blocks_Some. reflexivity. }
  split; [exact Hstrict|].
  intros b Hb.
  destruct (hash_data_blocks_covers _ _ _ _ Hstrict b Hb)
    as [Hkept|(Ho & Hl)]; [exact Hkept|].
  destruct Hb as [<-|Hb]; [congruence|].
  apply Sorted_inv in Hsorted as (Hsorted & Hhd).
  cbn [hash_data_blocks] in Hstrict.
  destruct (Z.eqb_spec (offset b0) (offset (end_node (b0 :: l'))));
    [congruence|].
  apply bind_Ret_inv in Hstrict as ([bytes hf'] & Hread & Hstrict).
  apply bind_Ret_inv in Hstrict as (rest & Hrest & Hstrict).
  injection Hstrict as <-.
  destruct (hash_data_blocks_covers _ _ _ _ Hrest b Hb)
    as [(b' & Hin & Ho' & Hl')|(Ho' & Hl')].
  - exists b'. split; [right; exact Hin|]. split; assumption.
  - eexists. split; [left; reflexivity|]. cbn in Ho', Hl' |- *.
    split; congruence.
Qed.

Lemma hash_data_blocks_as_built_witness :
  let l := [mk_block 96 3 0 0] in
  Sorted (fun a b => offset a < offset b) [mk_block 96 3 0 4061361090]
  /\ @built.hash_data_blocks small (fun _ => mk_block 96 3 0 0)
       (mk_file (file_image_bytes x01) 0) None l = Ret []
  /\ exists i : list compressed_block,
       offset (mk_block 96 3 0 0)
       = offset ((fun _ : list compressed_block => mk_block 96 3 0 0) i).
Proof.
  intros l.
  destruct (@hash_data_blocks_as_built small (fun _ => mk_block 0 0 0 0)
              (mk_file (file_image_bytes x01) 0) l [mk_block 96 3 0 4061361090])
    as (Hasc & _); [repeat constructor|vm_compute; reflexivity|].
  destruct (@hash_data_blocks_as_built small (fun _ => mk_block 96 3 0 0)
              (mk_file (file_image_bytes x01) 0) l [])
    as (_ & _ & Hcov & _); [repeat constructor|vm_compute; reflexivity|].
  split; [exact Hasc|]. split; [vm_compute; reflexivity|].
  destruct (Hcov (mk_block 96 3 0 0) (or_introl eq_refl))
    as [(b' & [] & _)|(i & Ho & _)].
  exists i. exact Ho.
Defined.



(** ** What [get_blocks] returns *)

(** X9: what [get_blocks] returns, as built and for whatever the reads of
    the end node yield.  The list is the data blocks followed by the
    metadata blocks.  The data blocks are what the hashing walk leaves of
    the descriptors that the inode loop and then the fragment loop
    collected, sorted by offset: their offsets ascend strictly and each has
    the hash of its on-disk bytes.  The metadata blocks are the compressed
    ones among exactly as many consecutive metadata blocks, from
    [inode_table_start] on, as the inode reader and the fragment reader
    count after their loops; the reader started at [start_offset] takes no
    part.  Each has the hash of its payload and lies within the image, and
    they ascend without overlap. *)
Theorem get_blocks_result `{Externals}
    (end_node : list compressed_block -> compressed_block) (f : MMAPFile)
    (c0 : option Compressor) (block_size0 : Z)
    (blocks : list compressed_block) (c : Compressor) (block_size : Z) :
  built.get_blocks end_node f c0 block_size0 = Ret (blocks, c, block_size) ->
  exists (sb : squashfs.super_block) (ir ir' : InodeReader)
         (fr fr' : FragmentTableReader)
         (of_inodes collected data_blocks metadata_blocks : list compressed_block)
         (stream : list input_block) (q : Z),
    read_super_block f = Ret sb
    /\ InodeReader_new f sb c = Ret ir
    /\ read_inodes sb (Z.to_nat (squashfs.inodes sb)) ir [] = Ret (of_inodes, ir')
    /\ FragmentTableReader_new f sb c = Ret fr
    /\ read_fragments (Z.to_nat (squashfs.fragments sb)) fr of_inodes
       = Ret (collected, fr')
    /\ built.hash_data_blocks end_node f None (list_sort sort_by_offset collected)
       = Ret data_blocks
    /\ blocks = data_blocks ++ metadata_blocks
    /\ Sorted (fun a b => offset a < offset b) data_blocks
    /\ Forall (hashed_on_disk (data f)) data_blocks
    /\ List.length stream
       = (Z.to_nat (InodeReader_block_num ir')
          + Z.to_nat (FragmentTableReader_block_num fr'))%nat
    /\ consecutive_blocks (data f) (squashfs.inode_table_start sb) stream q
    /\ map descriptor_fields metadata_blocks
       = map metadata_descriptor (filter ib_compressed stream)
    /\ Forall (hashed_on_disk (data f)) metadata_blocks
    /\ Sorted before metadata_blocks
    /\ Forall (within (getlen f)) metadata_blocks.
Proof.
  unfold built.get_blocks. intros E.
  apply bind_Ret_inv in E as ([[sb c'] bs'] & Hhead & E).
  apply bind_Ret_inv in E as (ir & Hir & E).
  apply bind_Ret_inv in E as ([d ir1] & Hinodes & E).
  apply bind_Ret_inv in E as ([m1 mir1] & Hrec1 & E).
  apply bind_Ret_inv in E as (fr & Hfr & E).
  apply bind_Ret_inv in E as ([d' fr'] & Hfragments & E).
  apply bind_Ret_inv in E as ([m2 mir2] & Hrec2 & E).
  apply bind_Ret_inv in E as (d'' & Hwalk & E).
  injection E as <- <- <-.
  apply verify_super_block_Ret in Hhead as (Hsb & _).
  set (mir := MetadataBlockReader_new f (squashfs.inode_table_start sb) c') in *.
  assert (record_fragment_table
            (Z.to_nat (InodeReader_block_num ir1)
             + Z.to_nat (FragmentTableReader_block_num fr')) mir []
          = Ret (m2, mir2)) as Hrec.
  { rewrite record_fragment_table_split, <- record_inode_blocks_same_loop, Hrec1.
    cbn [bind]. exact Hrec2. }
  destruct (recorded_metadata_blocks _ _ _ _ Hrec) as (Hhash & Hs & Hw & _).
  destruct (record_fragment_table_stream _ _ _ _ _ Hrec)
    as (stream & new & Hlen & Hcons & Hnew & Hfields).
  cbn [app] in Hnew. subst new.
  destruct (built_hash_data_blocks_walk end_node _ f d''
              (list_sort_by_offset_sorted d') Hwalk) as (Hasc & Hall & _).
  exists sb, ir, ir1, fr, fr', d, d', d'', m2, stream, (pos mir2).
  repeat match goal with |- _ /\ _ => split end; try assumption; try reflexivity.
  eapply Forall_impl; [|exact Hall].
  intros b' (b & bytes & _ & Hdisk & ->). exists bytes.
  split; [exact Hdisk|reflexivity].
Qed.

Lemma get_blocks_result_witness :
  exists (data_blocks metadata_blocks : list compressed_block)
         (stream : list input_block),
    [mk_block 96 3 0 4061361090] = data_blocks ++ metadata_blocks
    /\ Sorted (fun a b => offset a < offset b) data_blocks
    /\ Forall (@hashed_on_disk small (file_image_bytes x01)) data_blocks
    /\ map descriptor_fields metadata_blocks
       = map (@metadata_descriptor small) (filter ib_compressed stream).
Proof.
  destruct (@get_blocks_result small (fun _ => mk_block 0 0 0 0)
              (mk_file (file_image_bytes x01) 0) None 0
              [mk_block 96 3 0 4061361090] LZOCompressor 131072
              ltac:(vm_compute; reflexivity))
    as (sb & ir & ir' & fr & fr' & d & d' & data_blocks & metadata_blocks
        & stream & q & _ & _ & _ & _ & _ & _ & Hblocks & Hasc & Hhash & _ & _
        & Hfields & _).
  exists data_blocks, metadata_blocks, stream.
  split; [exact Hblocks|]. split; [exact Hasc|]. split; [exact Hhash|].
  exact Hfields.
Defined.

(** ** The expanded file as a whole *)

Lemma write_passthrough_returns (outf : SparseFileWriter) (inf : MMAPFile)
    (cb : list compressed_block) :
  getlen inf < 2 ^ 64 ->
  laid_out 0 (getlen inf) cb ->
  exists region : SparseFileWriter,
    write_passthrough outf inf cb
    = mk_unpacking (outf ++ region) (mk_file (data inf) (getlen inf)) cb (Ret tt)
    /\ read_back region = hollowed (data inf) cb.
Proof.
  intros Hlen Hlaid. destruct inf as [image p0]. unfold getlen in *.
  cbn [data] in *.
  pose proof (laid_out_bounds _ _ _ Hlaid) as Hend.
  destruct (copy_around_blocks_laid_out image cb Hlen outf 0 ltac:(lia) Hlaid)
    as (outf' & Hcopy & (more & ->) & Hread).
  exists (more ++ [written (skipn (Z.to_nat (end_from 0 cb)) image)]). split.
  - unfold write_passthrough, seek_beg. cbn [data]. rewrite Hcopy.
    cbn [u_end u_outf u_inf and_then]. unfold getlen. cbn [data].
    assert (wrap64 (Z.of_nat (List.length image) - end_from 0 cb)
            = Z.of_nat (List.length image) - end_from 0 cb) as ->
      by (apply Z.mod_small; lia).
    unfold read_array. cbn [pos data]. unfold getlen. cbn [data].
    destruct (Z.leb_spec 0 (end_from 0 cb)); [|lia].
    destruct (Z.leb_spec 0 (Z.of_nat (List.length image) - end_from 0 cb)); [|lia].
    destruct (Z.leb_spec (end_from 0 cb + (Z.of_nat (List.length image) - end_from 0 cb))
                (Z.of_nat (List.length image))); [|lia].
    cbn [andb and_then].
    rewrite firstn_all2 by (rewrite length_skipn; lia).
    unfold write. rewrite <- app_assoc. f_equal. f_equal. lia.
  - assert (read_back more = holes_from 0 image cb) as Hm.
    { unfold read_back in Hread |- *.
      rewrite flat_map_app in Hread. eapply app_inv_head. exact Hread. }
    unfold read_back in *. rewrite flat_map_app, Hm. cbn [flat_map chunk_bytes].
    rewrite app_nil_r.
    rewrite (holes_from_pointwise image cb 0 ltac:(lia) Hlaid).
    unfold hollowed. cbn [Z.to_nat]. rewrite Nat.sub_0_r. reflexivity.
Qed.

Lemma read_back_app (a b : SparseFileWriter) :
  read_back (a ++ b) = read_back a ++ read_back b.
Proof. unfold read_back. apply flat_map_app. Qed.

Lemma read_back_written (payloads : list (list byte)) :
  read_back (map written payloads) = List.concat payloads.
Proof.
  induction payloads as [|p l IH]; [reflexivity|].
  cbn [map List.concat]. change (written p :: map written l)
    with ([written p] ++ map written l).
  rewrite read_back_app, IH. cbn. rewrite app_nil_r. reflexivity.
Qed.

Lemma write_decompressed_returns `{Externals} (c : Compressor) (block_size : Z)
    (i : list compressed_block) :
  forall (outf : SparseFileWriter) (inf : MMAPFile),
    u_end (write_decompressed outf inf c block_size i) = Ret tt ->
    exists payloads : list (list byte),
      Forall2 (fun b buf =>
                 exists src, on_disk (data inf) b = Ret src
                             /\ Compressor_decompress c src (length b) block_size
                                = Ret buf) i payloads
      /\ u_outf (write_decompressed outf inf c block_size i)
         = outf ++ map written payloads
      /\ map uncompressed_length (u_cb (write_decompressed outf inf c block_size i))
         = map (fun buf => Z.of_nat (List.length buf)) payloads.
Proof.
  induction i as [|b i IH]; intros outf inf Hend.
  - exists []. cbn. rewrite app_nil_r. repeat split. constructor.
  - cbn [write_decompressed] in Hend |- *.
    destruct (read_array (seek_beg inf (offset b)) (length b))
      as [[src inf1]| | |] eqn:Hread; cbn [and_then u_end] in Hend;
      try discriminate.
    destruct (Compressor_decompress c src (length b) block_size)
      as [buf| | |] eqn:Hdec; cbn [and_then u_end] in Hend; try discriminate.
    cbv zeta in Hend |- *. cbn [and_then u_outf u_cb u_end] in Hend |- *.
    rewrite ?Hdec. cbn [and_then u_outf u_cb u_end].
    pose proof (read_array_data _ _ _ _ Hread) as Hdata. cbn in Hdata.
    destruct (IH (write outf buf) inf1 Hend) as (payloads & Hall & Hout & Hunc).
    exists (buf :: payloads). split; [|split].
    + constructor.
      * exists src. split; [|exact Hdec]. unfold on_disk.
        unfold seek_beg in Hread. rewrite Hread. reflexivity.
      * rewrite Hdata in Hall. exact Hall.
    + rewrite Hout. unfold write. rewrite <- app_assoc. reflexivity.
    + cbn [map uncompressed_length set_uncompressed_length]. rewrite Hunc.
      reflexivity.
Qed.

(** X10: for blocks that lie in the image in ascending order without
    overlap, when [write_unpacked_file] returns, what it has written reads
    back as the image with the blocks zeroed, followed by the decompressed
    payloads of the blocks in list order; every descriptor's
    [uncompressed_length] is the length of its payload, and the file has
    grown by the length of the image plus the sum of those lengths. *)
Theorem write_unpacked_file_layout `{Externals} (outf : SparseFileWriter)
    (inf : MMAPFile) (cb : list compressed_block) (c : Compressor)
    (block_size : Z) :
  getlen inf < 2 ^ 64 ->
  Sorted before cb ->
  Forall (within (getlen inf)) cb ->
  let u := write_unpacked_file outf inf cb c block_size in
  u_end u = Ret tt ->
  exists payloads : list (list byte),
    Forall2 (fun b buf =>
               exists src, on_disk (data inf) b = Ret src
                           /\ Compressor_decompress c src (length b) block_size
                              = Ret buf) cb payloads
    /\ read_back (u_outf u)
       = read_back outf ++ hollowed (data inf) cb ++ List.concat payloads
    /\ map uncompressed_length (u_cb u)
       = map (fun buf => Z.of_nat (List.length buf)) payloads
    /\ apparent_size (u_outf u)
       = apparent_size outf + getlen inf
         + sum_Z (map uncompressed_length (u_cb u)).
Proof.
  intros Hlen Hsorted Hin u Hend. subst u.
  assert (laid_out 0 (getlen inf) cb) as Hlaid.
  { apply sorted_laid_out; [assumption|assumption|unfold getlen; lia|].
    intros b Hb. destruct cb as [|b' cb]; [discriminate|]. injection Hb as <-.
    inversion Hin as [|? ? (Ho & _) _]; subst. exact Ho. }
  destruct (write_passthrough_returns outf inf cb Hlen Hlaid)
    as (region & Hpass & Hregion).
  unfold write_unpacked_file in *. rewrite Hpass in *.
  cbn [u_end u_outf u_inf and_then] in *.
  destruct (write_decompressed_returns c block_size cb _ _ Hend)
    as (payloads & Hall & Hout & Hunc).
  cbn [data] in Hall.
  exists payloads. split; [exact Hall|].
  assert (read_back
            (u_outf (write_decompressed (outf ++ region)
                       (mk_file (data inf) (getlen inf)) c block_size cb))
          = read_back outf ++ hollowed (data inf) cb ++ List.concat payloads) as Hread.
  { rewrite Hout, !read_back_app, read_back_written, Hregion, app_assoc.
    reflexivity. }
  split; [exact Hread|]. split; [exact Hunc|].
  unfold apparent_size. rewrite Hread, Hunc, !length_app.
  unfold hollowed. rewrite length_map, length_seq. unfold getlen.
  rewrite !Nat2Z.inj_add. rewrite <- Z.add_assoc. f_equal. f_equal.
  clear. induction payloads as [|p l IH]; [reflexivity|].
  cbn [List.concat map sum_Z fold_right]. rewrite length_app, Nat2Z.inj_add.
  fold (sum_Z (map (fun buf => Z.of_nat (List.length buf)) l)). rewrite IH.
  reflexivity.
Qed.

Lemma write_unpacked_file_layout_witness :
  let cb := [mk_block 98 4 0 2414964381; mk_block 104 2 0 1393557216] in
  let u := @write_unpacked_file small [] (mk_file tree_image 0) cb
             LZOCompressor 131072 in
  skipn 118 (read_back (u_outf u)) = [x61; x61; x62; x7a; x7a; x7a]
  /\ apparent_size (u_outf u) = 124.
Proof.
  intros cb u.
  destruct (@write_unpacked_file_layout small [] (mk_file tree_image 0) cb
              LZOCompressor 131072) as (payloads & Hall & Hread & Hunc & Hsize).
  - vm_compute. reflexivity.
  - repeat constructor; cbn; lia.
  - repeat constructor; cbn; lia.
  - vm_compute. reflexivity.
  - subst u. split; [vm_compute; reflexivity|].
    rewrite Hsize. vm_compute. reflexivity.
Defined.

(** ** Blocks that overlap *)

Lemma copy_around_blocks_app (l1 l2 : list compressed_block) :
  forall (outf : SparseFileWriter) (inf : MMAPFile) (p : Z),
    copy_around_blocks outf inf p (l1 ++ l2)
    = let '(u, p') := copy_around_blocks outf inf p l1 in
      match u_end u with
      | Ret _ => copy_around_blocks (u_outf u) (u_inf u) p' l2
      | _ => (u, p')
      end.
Proof.
  induction l1 as [|b l1 IH]; intros outf inf p; [reflexivity|].
  cbn [app copy_around_blocks].
  destruct (negb (p <=? offset b)); [reflexivity|].
  destruct (read_array inf (wrap64 (offset b - p))) as [[bytes inf1]| | |];
    try reflexivity.
  apply IH.
Qed.

(** X11: when the blocks up to some block lie in the image in ascending
    order without overlap and that block starts before the end of its
    predecessor, [write_unpacked_file] dies on
    [assert(( *i).offset >= prev_offset)]: it has copied the image around
    the earlier blocks only, has decompressed nothing, and has left every
    descriptor as it was. *)
Theorem write_unpacked_file_overlap `{Externals} (outf : SparseFileWriter)
    (inf : MMAPFile) (earlier later : list compressed_block)
    (b : compressed_block) (c : Compressor) (block_size : Z) :
  getlen inf < 2 ^ 64 ->
  Sorted before earlier ->
  Forall (within (getlen inf)) earlier ->
  offset b < end_of_last earlier ->
  let u := write_unpacked_file outf inf (earlier ++ b :: later) c block_size in
  u_end u = Abort
  /\ u_cb u = earlier ++ b :: later
  /\ read_back (u_outf u)
     = read_back outf ++ holes_from 0 (data inf) earlier.
Proof.
  intros Hlen Hsorted Hin Hoverlap. cbv zeta.
  destruct earlier as [|b0 earlier'] eqn:Hearlier.
  { cbn [app]. unfold write_unpacked_file, write_passthrough.
    cbn [copy_around_blocks]. cbn in Hoverlap.
    destruct (Z.leb_spec 0 (offset b)); [lia|]. cbn.
    rewrite app_nil_r. repeat split. }
  rewrite <- Hearlier in *.
  assert (laid_out 0 (getlen inf) earlier) as Hlaid.
  { apply sorted_laid_out; [assumption|assumption|unfold getlen; lia|].
    intros b1 Hb1. rewrite Hearlier in Hb1, Hin. injection Hb1 as <-.
    inversion Hin as [|? ? (Ho & _) _]; subst. exact Ho. }
  destruct inf as [image p0]. unfold getlen in *. cbn [data] in *.
  destruct (copy_around_blocks_laid_out image earlier Hlen outf 0 ltac:(lia) Hlaid)
    as (outf' & Hcopy & _ & Hread).
  assert (end_from 0 earlier = end_of_last earlier) as Hend
    by (rewrite Hearlier; apply end_from_end_of_last).
  unfold write_unpacked_file, write_passthrough, seek_beg. cbn [data].
  rewrite copy_around_blocks_app, Hcopy. cbn [u_end u_outf u_inf].
  cbn [copy_around_blocks].
  destruct (Z.leb_spec (end_from 0 earlier) (offset b)); [lia|].
  cbn [negb u_end u_outf u_inf u_cb and_then].
  repeat split. exact Hread.
Qed.

Lemma write_unpacked_file_overlap_witness :
  let u := @write_unpacked_file small [] (mk_file tree_image 0)
             ([mk_block 98 4 0 0] ++ [mk_block 100 4 0 0]) LZOCompressor 131072 in
  u_end u = Abort /\ List.length (read_back (u_outf u)) = 102%nat.
Proof.
  intros u.
  destruct (@write_unpacked_file_overlap small [] (mk_file tree_image 0)
              [mk_block 98 4 0 0] [] (mk_block 100 4 0 0) LZOCompressor 131072)
    as (Hend & _ & Hread).
  - vm_compute. reflexivity.
  - repeat constructor.
  - repeat constructor; cbn; lia.
  - cbn. lia.
  - split; [exact Hend|]. subst u. rewrite Hread. vm_compute. reflexivity.
Defined.

(** ** Reading the block index back *)

Lemma be_value_be_bytes (n : nat) (z : Z) :
  0 <= z < 256 ^ Z.of_nat n -> be_value (be_bytes n z) = z.
Proof.
  intros Hz. unfold be_value, be_bytes. rewrite rev_involutive, le_value_le_bytes.
  apply Z.mod_small. exact Hz.
Qed.

Lemma firstn_be_bytes (n : nat) (z : Z) (rest : list byte) :
  firstn n (be_bytes n z ++ rest) = be_bytes n z.
Proof.
  rewrite firstn_app, be_bytes_length, Nat.sub_diag. cbn [firstn].
  rewrite app_nil_r. apply firstn_all2. rewrite be_bytes_length. lia.
Qed.

Lemma skipn_be_bytes (n : nat) (z : Z) (rest : list byte) :
  skipn n (be_bytes n z ++ rest) = rest.
Proof.
  rewrite skipn_app, be_bytes_length, Nat.sub_diag. cbn [skipn].
  rewrite skipn_all2 by (rewrite be_bytes_length; lia). reflexivity.
Qed.

Lemma parse_record_index_record (b : compressed_block) (rest : list byte) :
  fits_record b ->
  parse_record (firstn 16 (index_record b ++ rest))
  = (offset b, length b, uncompressed_length b)
  /\ skipn 16 (index_record b ++ rest) = rest.
Proof.
  intros (Ho & Hl & Hu). unfold index_record.
  assert (List.length (be_bytes 8 (offset b) ++ be_bytes 4 (length b)
                       ++ be_bytes 4 (uncompressed_length b)) = 16%nat) as Hlen
    by (rewrite !length_app, !be_bytes_length; reflexivity).
  split.
  - rewrite firstn_app, Hlen, Nat.sub_diag, firstn_O, app_nil_r.
    rewrite firstn_all2 by (rewrite Hlen; lia).
    unfold parse_record.
    rewrite (firstn_be_bytes 8).
    change 12%nat with (4 + 8)%nat. rewrite <- !skipn_skipn.
    rewrite (skipn_be_bytes 8), (firstn_be_bytes 4), (skipn_be_bytes 4).
    rewrite <- (app_nil_r (be_bytes 4 (uncompressed_length b))),
      (firstn_be_bytes 4).
    rewrite !be_value_be_bytes;
      [reflexivity| | |];
      [change (256 ^ Z.of_nat 4) with (2 ^ 32)
      |change (256 ^ Z.of_nat 4) with (2 ^ 32)
      |change (256 ^ Z.of_nat 8) with (2 ^ 64)]; assumption.
  - rewrite skipn_app, Hlen, Nat.sub_diag, skipn_O.
    rewrite skipn_all2 by (rewrite Hlen; lia). reflexivity.
Qed.

Lemma parse_records_index_records (cb : list compressed_block) (rest : list byte) :
  Forall fits_record cb ->
  parse_records (List.length cb) (index_records cb ++ rest)
  = map (fun b => (offset b, length b, uncompressed_length b)) cb
  /\ skipn (16 * List.length cb) (index_records cb ++ rest) = rest.
Proof.
  induction 1 as [|b cb Hb _ (IH1 & IH2)].
  - cbn. split; reflexivity.
  - unfold index_records in *. cbn [flat_map List.length parse_records map].
    rewrite <- app_assoc.
    destruct (parse_record_index_record b (flat_map index_record cb ++ rest) Hb)
      as (Hrec & Hskip).
    rewrite Hrec, Hskip, IH1. split; [reflexivity|].
    replace (16 * S (List.length cb))%nat with (16 * List.length cb + 16)%nat by lia.
    rewrite <- skipn_skipn, Hskip. exact IH2.
Qed.

Lemma parse_header_index_header (id count : Z) (rest : list byte) :
  0 <= id < 2 ^ 32 -> 0 <= count < 2 ^ 32 ->
  parse_header (index_header id count ++ rest) = mk_header sqdelta_magic 0 id count
  /\ skipn 16 (index_header id count ++ rest) = rest.
Proof.
  intros Hid Hcount. unfold index_header, parse_header.
  rewrite <- !app_assoc.
  set (tail3 := be_bytes 4 count ++ rest).
  set (tail2 := be_bytes 4 id ++ tail3).
  set (tail1 := be_bytes 4 0 ++ tail2).
  assert (skipn 4 (be_bytes 4 0x5371CEB4 ++ tail1) = tail1) as H4
    by apply skipn_be_bytes.
  assert (skipn 8 (be_bytes 4 0x5371CEB4 ++ tail1) = tail2) as H8.
  { rewrite <- (skipn_skipn 4 4), H4. apply skipn_be_bytes. }
  assert (skipn 12 (be_bytes 4 0x5371CEB4 ++ tail1) = tail3) as H12.
  { rewrite <- (skipn_skipn 4 8), H8. apply skipn_be_bytes. }
  assert (skipn 16 (be_bytes 4 0x5371CEB4 ++ tail1) = rest) as H16.
  { rewrite <- (skipn_skipn 4 12), H12. apply skipn_be_bytes. }
  rewrite H4, H8, H12, H16. subst tail1 tail2 tail3.
  rewrite !(firstn_be_bytes 4).
  split; [|reflexivity].
  rewrite !be_value_be_bytes;
    try (change (256 ^ Z.of_nat 4) with (2 ^ 32)); try assumption; try lia.
  reflexivity.
Qed.

Lemma get_compression_value_range (c : Compressor) :
  0 <= get_compression_value c < 2 ^ 32.
Proof.
  destruct c; unfold get_compression_value, squashfs.compression_lzo,
    squashfs.compression_lz4; lia.
Qed.

(** X12: the block index can be read back.  When every descriptor fits the
    record fields and there are fewer than 2^32 descriptors, reading what
    [write_block_list] wrote with the header in front gives the magic
    0x5371CEB4, flags 0, the codec's identifier and the number of
    descriptors, and then the offset, length and uncompressed length of
    every descriptor, in order, with nothing left over; written with the
    header at the end, the same records come first and the same header
    last. *)
Theorem write_block_list_read_back `{Externals} (c : Compressor)
    (cb : list compressed_block) :
  Forall fits_record cb ->
  Z.of_nat (List.length cb) < 2 ^ 32 ->
  let dh := mk_header (htonl sqdelta_magic) (htonl 0)
              (htonl (wrap32 (get_compression_value c))) 0 in
  let expected :=
    mk_header sqdelta_magic 0 (get_compression_value c)
      (Z.of_nat (List.length cb)) in
  let fields := map (fun b => (offset b, length b, uncompressed_length b)) cb in
  let front := read_back (write_block_list [] dh cb false) in
  let back := read_back (write_block_list [] dh cb true) in
  parse_header front = expected
  /\ parse_records (List.length cb) (skipn 16 front) = fields
  /\ skipn (16 * List.length cb) (skipn 16 front) = []
  /\ parse_records (List.length cb) back = fields
  /\ parse_header (skipn (16 * List.length cb) back) = expected
  /\ List.length front = (16 * List.length cb + 16)%nat
  /\ List.length back = (16 * List.length cb + 16)%nat.
Proof.
  intros Hfit Hcount. cbv zeta.
  rewrite (write_block_list_bytes c [] cb false).
  rewrite (write_block_list_bytes c [] cb true).
  cbn [read_back flat_map app].
  pose proof (get_compression_value_range c) as Hid.
  destruct (parse_header_index_header (get_compression_value c)
              (Z.of_nat (List.length cb)) (index_records cb) Hid ltac:(lia))
    as (Hh & Hskip).
  destruct (parse_records_index_records cb [] Hfit) as (Hr & Hrest).
  destruct (parse_records_index_records cb
              (index_header (get_compression_value c) (Z.of_nat (List.length cb)))
              Hfit) as (Hr' & Hrest').
  destruct (parse_header_index_header (get_compression_value c)
              (Z.of_nat (List.length cb)) [] Hid ltac:(lia)) as (Hh' & _).
  rewrite app_nil_r in Hr, Hrest, Hh'.
  assert (List.length (index_records cb) = (16 * List.length cb)%nat) as Hlen.
  { unfold index_records. clear. induction cb as [|b cb IH]; [reflexivity|].
    cbn [flat_map]. rewrite length_app, IH. unfold index_record.
    rewrite !length_app, !be_bytes_length. cbn [List.length]. lia. }
  rewrite Hh, Hskip, Hr, Hrest, Hr', Hrest', Hh'.
  repeat split.
  - rewrite length_app, Hlen. unfold index_header.
    rewrite !length_app, !be_bytes_length. lia.
  - rewrite length_app, Hlen. unfold index_header.
    rewrite !length_app, !be_bytes_length. lia.
Qed.

Lemma write_block_list_read_back_witness :
  let cb := [mk_block 98 4 3 2414964381; mk_block 104 2 3 1393557216] in
  let dh := mk_header (@htonl small sqdelta_magic) (@htonl small 0)
              (@htonl small (wrap32 (get_compression_value LZOCompressor))) 0 in
  parse_header (read_back (@write_block_list small [] dh cb false))
  = mk_header 0x5371ceb4 0 3 2
  /\ parse_records 2 (skipn 16 (read_back (@write_block_list small [] dh cb false)))
     = [(98, 4, 3); (104, 2, 3)].
Proof.
  intros cb dh.
  destruct (@write_block_list_read_back small LZOCompressor cb)
    as (Hh & Hr & _).
  - repeat constructor; cbn; lia.
  - cbn. lia.
  - split; [exact Hh|exact Hr].
Defined.

(** ** Whole runs *)

Lemma write_expanded_Ret `{Externals} (f : MMAPFile)
    (blocks blocks' : list compressed_block) (c : Compressor) (block_size : Z)
    (dh : sqdelta_header) (temp : SparseFileWriter) (x : unit) :
  write_expanded f blocks c block_size dh = (blocks', temp, Ret x) ->
  u_end (write_unpacked_file [] f blocks c block_size) = Ret tt
  /\ blocks' = u_cb (write_unpacked_file [] f blocks c block_size)
  /\ temp = write_block_list (u_outf (write_unpacked_file [] f blocks c block_size))
              dh blocks' true.
Proof.
  unfold write_expanded.
  destruct (TemporarySparseFileWriter_open (getlen f)); try discriminate.
  destruct (u_end (write_unpacked_file [] f blocks c block_size)) as [[]| | |] eqn:Hend;
    try discriminate.
  intros E. inversion E. subst. repeat split.
Qed.

Lemma write_expanded_not_empty `{Externals} (f : MMAPFile)
    (blocks blocks' : list compressed_block) (c : Compressor) (block_size : Z)
    (dh : sqdelta_header) (temp : SparseFileWriter) (x : unit) :
  write_expanded f blocks c block_size dh = (blocks', temp, Ret x) -> temp <> [].
Proof.
  intros Hw. apply write_expanded_returned in Hw as (expanded & ->).
  unfold write_block_list. cbn [negb]. unfold write.
  destruct (fold_left _ _ _); discriminate.
Qed.


(** A run that returns has either failed before it wrote anything to the
    patch file, with status 1, or has started the child. *)
Lemma main_returned `{Externals} (p : built.platform) (argv : list string)
    (r : run) :
  built.main p argv = Ret r ->
  (exit_status r = 1 /\ patch_out r = []
   /\ (target_temp r <> [] -> source_temp r <> []))
  \/ exists c block_size source target source_blocks target_blocks sblocks' tblocks',
       reached_child p argv r c block_size source target source_blocks
         target_blocks sblocks' tblocks'.
Proof.
  intros Hmain. unfold built.main in Hmain.
  destruct (Nat.ltb_spec (List.length argv) 4) as [Hargc|Hargc].
  { injection Hmain as <-. left. cbn. auto. }
  unfold built.open_and_get_blocks in Hmain.
  destruct (MMAPFile_open (nth 1 argv "")) as [source|e| |] eqn:Hopen1;
    cbn [bind] in Hmain; try discriminate.
  2:{ injection Hmain as <-. left. cbn. auto. }
  destruct (built.get_blocks (built.source_end_node p) (mk_file source 0) None 0)
    as [[[source_blocks c1] bs1]|e| |] eqn:Hget1; cbn [bind] in Hmain;
    try discriminate.
  2:{ injection Hmain as <-. left. cbn. auto. }
  destruct (MMAPFile_open (nth 2 argv "")) as [target|e| |] eqn:Hopen2;
    cbn [bind] in Hmain; try discriminate.
  2:{ injection Hmain as <-. left. cbn. auto. }
  destruct (built.get_blocks (built.target_end_node p) (mk_file target 0)
              (Some c1) bs1)
    as [[[target_blocks c] bs]|e| |] eqn:Hget2; cbn [bind] in Hmain;
    try discriminate.
  2:{ injection Hmain as <-. left. cbn. auto. }
  destruct (remove_duplicates (list_sort sort_by_len_hash source_blocks)
              (list_sort sort_by_len_hash target_blocks)) as [sb tb] eqn:Hrd.
  destruct (SparseFileWriter_open (nth 3 argv "")) as [u|[w|w n]| |];
    try discriminate.
  2:{ injection Hmain as <-. left. cbn. auto. }
  destruct chdir_tmpdir eqn:Hchdir; cbn [negb] in Hmain.
  2:{ injection Hmain as <-. left. cbn. auto. }
  destruct (write_expanded (mk_file source 0) (list_sort sort_by_offset sb) c bs _)
    as [[sblocks' stemp] [[]| | |]] eqn:Hs; try discriminate.
  2:{ injection Hmain as <-. left. cbn. auto. }
  pose proof (write_expanded_not_empty _ _ _ _ _ _ _ _ Hs) as Hsne.
  destruct (write_expanded (mk_file target 0) (list_sort sort_by_offset tb) c bs _)
    as [[tblocks' ttemp] [[]| | |]] eqn:Ht; try discriminate.
  2:{ injection Hmain as <-. left. cbn. auto. }
  right. exists c, bs, source, target, source_blocks, target_blocks, sblocks', tblocks'.
  unfold reached_child. cbv zeta. rewrite Hrd. cbn [fst snd].
  destruct (built.fork_xdelta3 p (read_back stemp) (read_back ttemp))
    as [errno_val|status diff] eqn:Hfork.
  - injection Hmain as <-. cbn [source_temp target_temp patch_out exit_status].
    rewrite Hfork.
    repeat match goal with |- _ /\ _ => split end; try assumption;
      try reflexivity; try lia.
    exists c1, bs1. repeat split; assumption.
  - destruct (built.WEXITSTATUS status =? 0) eqn:Hstatus; cbn [negb] in Hmain;
      injection Hmain as <-;
      cbn [source_temp target_temp patch_out exit_status]; rewrite Hfork, Hstatus;
      (repeat match goal with |- _ /\ _ => split end; try assumption;
       try reflexivity; try lia);
      exists c1, bs1; repeat split; assumption.
Qed.



Lemma sort_insert_In {A : Type} (comp : A -> A -> bool) (x y : A) (l : list A) :
  In y (sort_insert comp x l) <-> y = x \/ In y l.
Proof.
  induction l as [|z l IH]; cbn.
  - intuition congruence.
  - destruct (comp z x); cbn; [rewrite IH|]; intuition congruence.
Qed.

(** Sorting rearranges: it neither drops nor invents an entry. *)
Lemma list_sort_In {A : Type} (comp : A -> A -> bool) (y : A) (l : list A) :
  In y (list_sort comp l) <-> In y l.
Proof.
  induction l as [|x l IH]; cbn; [reflexivity|].
  fold (list_sort comp l). rewrite sort_insert_In, IH. intuition congruence.
Qed.

Lemma key_in_same_entries (b : compressed_block) (l l' : list compressed_block) :
  (forall x, In x l <-> In x l') -> key_in b l = key_in b l'.
Proof.
  intros Hin. unfold key_in. apply Bool.eq_iff_eq_true.
  rewrite !existsb_exists. split; intros (x & Hx & Hk); exists x; split;
    try assumption; apply Hin; assumption.
Qed.

Lemma without_keys_of_list_sort (comp : compressed_block -> compressed_block -> bool)
    (other l : list compressed_block) :
  without_keys_of (list_sort comp other) l = without_keys_of other l.
Proof.
  unfold without_keys_of. apply filter_ext. intros b. f_equal.
  apply key_in_same_entries. intros x. apply list_sort_In.
Qed.





Lemma remove_duplicates_of_sorted (source target : list compressed_block) :
  remove_duplicates (list_sort sort_by_len_hash source)
                    (list_sort sort_by_len_hash target)
  = (without_keys_of target (list_sort sort_by_len_hash source),
     without_keys_of source (list_sort sort_by_len_hash target)).
Proof.
  rewrite (remove_duplicates_sorted _ _ _ (Nat.le_refl _)
             (Sorted_StronglySorted le_len_hash_Transitive
                (list_sort_len_hash_sorted source))
             (Sorted_StronglySorted le_len_hash_Transitive
                (list_sort_len_hash_sorted target))).
  rewrite !without_keys_of_list_sort. reflexivity.
Qed.

(** A run that ends with status 0 has put the child's output into the
    patch file. *)
Lemma exit_0_patch_not_empty `{Externals} (p : built.platform)
    (argv : list string) (r : run) :
  built.main p argv = Ret r -> exit_status r = 0 -> patch_out r <> [].
Proof.
  intros Hmain Hexit.
  destruct (main_returned p argv r Hmain)
    as [(Hone & _)
       |(c & bs & source & target & source_blocks & target_blocks & sblocks'
         & tblocks' & _ & _ & _ & _ & _ & _ & Hchild)]; [lia|].
  destruct (built.fork_xdelta3 p _ _) as [e|status diff];
    destruct Hchild as (Hstatus & ->); [lia|].
  unfold write. destruct (write_block_list _ _ _ _); discriminate.
Qed.



Lemma select_compressor_again `{Externals} (id : Z) (c : Compressor) :
  select_compressor id None = Ret c -> select_compressor id (Some c) = Ret c.
Proof.
  unfold select_compressor.
  destruct (id =? squashfs.compression_lzo).
  - destruct ENABLE_LZO; [|discriminate]. intros E. injection E as <-. reflexivity.
  - destruct (id =? squashfs.compression_lz4); [|discriminate].
    destruct ENABLE_LZ4; [|discriminate]. intros E. injection E as <-. reflexivity.
Qed.

Lemma verify_super_block_again `{Externals} (f : MMAPFile)
    (sb : squashfs.super_block) (c : Compressor) (block_size : Z) :
  verify_super_block f None 0 = Ret (sb, c, block_size) ->
  verify_super_block f (Some c) block_size = Ret (sb, c, block_size).
Proof.
  intros Hv. pose proof (verify_super_block_Ret _ _ _ _ _ _ Hv)
    as (_ & _ & _ & _ & Hbs & _).
  revert Hv. unfold verify_super_block.
  destruct (read_super_block f) as [sb'| | |]; cbn [bind]; try discriminate.
  destruct (negb (squashfs.s_magic sb' =? squashfs.magic)); [discriminate|].
  destruct (negb (squashfs.s_major sb' =? 4) || negb (squashfs.s_minor sb' =? 0));
    [discriminate|].
  rewrite Z.eqb_refl. cbn [bind].
  destruct (select_compressor (squashfs.compression sb') None) as [c'| | |] eqn:Hc;
    cbn [bind]; try discriminate.
  intros Hv.
  assert (c' = c /\ sb' = sb) as (-> & ->).
  { destruct (Compressor_setup c' _) in Hv; cbn [bind] in Hv; try discriminate.
    injection Hv as <- <- _. split; reflexivity. }
  rewrite (select_compressor_again _ _ Hc). subst block_size.
  destruct (squashfs.block_size sb =? 0); cbn [bind]; [exact Hv|].
  rewrite Z.eqb_refl. cbn [negb bind]. exact Hv.
Qed.

Lemma built_hash_data_blocks_ext `{Externals}
    (end_node end_node' : list compressed_block -> compressed_block)
    (i : list compressed_block) :
  (forall l, end_node l = end_node' l) ->
  forall (hf : MMAPFile),
    built.hash_data_blocks end_node hf None i
    = built.hash_data_blocks end_node' hf None i.
Proof.
  intros Hsame. induction i as [|bi i' IH]; intros hf; [reflexivity|].
  cbn [built.hash_data_blocks]. rewrite <- Hsame.
  destruct (offset bi =? offset (end_node (bi :: i'))).
  - destruct (assert _); cbn [bind]; try reflexivity. apply IH.
  - destruct (read_array _ _) as [[bytes hf']| | |]; cbn [bind]; try reflexivity.
    rewrite !built_hash_data_blocks_Some. reflexivity.
Qed.

(** An image passes as second image behind itself, with the same blocks
    when the end node reads the same. *)
Lemma built_get_blocks_again `{Externals}
    (end_node end_node' : list compressed_block -> compressed_block)
    (f : MMAPFile) (blocks : list compressed_block) (c : Compressor)
    (block_size : Z) :
  (forall l, end_node l = end_node' l) ->
  built.get_blocks end_node f None 0 = Ret (blocks, c, block_size) ->
  built.get_blocks end_node' f (Some c) block_size = Ret (blocks, c, block_size).
Proof.
  intros Hsame Hget.
  destruct (built_get_blocks_Ret_head _ _ _ _ _ _ _ Hget) as (sb & Hv).
  revert Hget. unfold built.get_blocks.
  rewrite (verify_super_block_again _ _ _ _ Hv), Hv. cbn [bind].
  destruct (InodeReader_new f sb c) as [ir| | |]; cbn [bind]; try discriminate.
  destruct (read_inodes sb _ ir []) as [[d ir1]| | |]; cbn [bind]; try discriminate.
  destruct (record_inode_blocks _ _ []) as [[m mir]| | |]; cbn [bind];
    try discriminate.
  destruct (FragmentTableReader_new f sb c) as [fr| | |]; cbn [bind];
    try discriminate.
  destruct (read_fragments _ fr d) as [[d' fr1]| | |]; cbn [bind]; try discriminate.
  destruct (record_fragment_table _ mir m) as [[m' mir']| | |]; cbn [bind];
    try discriminate.
  rewrite (built_hash_data_blocks_ext end_node end_node' _ Hsame). auto.
Qed.

Lemma without_keys_of_self (l l' : list compressed_block) :
  incl l' l -> without_keys_of l l' = [].
Proof.
  unfold without_keys_of.
  induction l' as [|b l' IH]; intros Hincl; [reflexivity|]. cbn.
  assert (key_in b l = true) as ->.
  { unfold key_in. apply existsb_exists. exists b.
    split; [apply Hincl; left; reflexivity|apply same_len_hash_refl]. }
  cbn. apply IH. intros x Hx. apply Hincl. right. exact Hx.
Qed.

(** With no block to expand, [write_unpacked_file] copies the image. *)
Lemma write_unpacked_file_no_blocks `{Externals} (image : list byte)
    (c : Compressor) (block_size : Z) :
  Z.of_nat (List.length image) < 2 ^ 64 ->
  write_unpacked_file [] (mk_file image 0) [] c block_size
  = mk_unpacking [written image]
      (mk_file image (Z.of_nat (List.length image))) [] (Ret tt).
Proof.
  intros Hlen.
  assert (read_array (mk_file image 0) (wrap64 (getlen (mk_file image 0) - 0))
          = Ret (image, mk_file image (Z.of_nat (List.length image)))) as Hread.
  { unfold read_array, getlen, wrap64. cbn [pos data]. rewrite Z.sub_0_r.
    rewrite Z.mod_small by lia.
    replace ((0 <=? 0) && (0 <=? Z.of_nat (List.length image))
             && (0 + Z.of_nat (List.length image) <=? Z.of_nat (List.length image)))
      with true
      by (symmetry; rewrite !Bool.andb_true_iff, !Z.leb_le; lia).
    rewrite Nat2Z.id. cbn [Z.to_nat skipn]. rewrite firstn_all. reflexivity. }
  unfold write_unpacked_file, write_passthrough, seek_beg.
  cbn [copy_around_blocks u_end u_outf u_inf and_then data].
  rewrite Hread.
  cbn [and_then u_end u_outf u_inf write_decompressed]. reflexivity.
Qed.

(** X15: when both arguments of [main] name files with the same bytes, the
    end nodes of the two lists read the same, and the run has written to
    the patch file (as every run that ends with status 0 has), no block is
    expanded, whatever blocks the image holds: each temporary file is the
    image followed by an index header with block count 0, so the child is
    given two identical inputs, and the patch is an empty index followed by
    what the child wrote. *)
Theorem main_identical_images `{Externals} (p : built.platform)
    (argv : list string) (r : run) (image : list byte) :
  built.main p argv = Ret r ->
  exit_status r = 0 \/ patch_out r <> [] ->
  MMAPFile_open (nth 1 argv "") = Ret image ->
  MMAPFile_open (nth 2 argv "") = Ret image ->
  Z.of_nat (List.length image) < 2 ^ 64 ->
  (forall l, built.source_end_node p l = built.target_end_node p l) ->
  exists (c : Compressor) (diff : list byte),
    read_back (source_temp r) = image ++ index_header (get_compression_value c) 0
    /\ read_back (target_temp r) = image ++ index_header (get_compression_value c) 0
    /\ read_back (patch_out r) = index_header (get_compression_value c) 0 ++ diff
    /\ (exit_status r = 0 ->
        exists status,
          built.fork_xdelta3 p
            (image ++ index_header (get_compression_value c) 0)
            (image ++ index_header (get_compression_value c) 0)
          = built.child_ended status diff
          /\ built.WEXITSTATUS status = 0).
Proof.
  intros Hmain Hwritten Himage1 Himage2 Hlen Hsame.
  assert (patch_out r <> []) as Hpatch
    by (destruct Hwritten as [Hexit|?];
        [exact (exit_0_patch_not_empty p argv r Hmain Hexit)|assumption]).
  destruct (main_returned p argv r Hmain)
    as [(_ & Hempty & _)
       |(c & bs & source & target & source_blocks & target_blocks & sblocks'
         & tblocks' & _ & Hopen1 & (c1 & bs1 & Hget1 & Hopen2 & Hget2)
         & _ & Hs & Ht & Hchild)]; [contradiction|].
  assert (source = image) as -> by congruence.
  assert (target = image) as -> by congruence.
  pose proof (built_get_blocks_again _ _ _ _ _ _ Hsame Hget1) as Hagain.
  rewrite Hagain in Hget2. injection Hget2 as <- <- <-.
  rewrite remove_duplicates_of_sorted in Hs, Ht. cbn [fst snd] in Hs, Ht.
  rewrite without_keys_of_self in Hs, Ht
    by (intros x Hx; apply list_sort_In in Hx; exact Hx).
  cbn [list_sort fold_right] in Hs, Ht.
  apply write_expanded_Ret in Hs as (_ & Hcb1 & Htemp1).
  apply write_expanded_Ret in Ht as (_ & Hcb2 & Htemp2).
  rewrite write_unpacked_file_no_blocks in Hcb1, Htemp1, Hcb2, Htemp2 by exact Hlen.
  cbn [u_cb u_outf] in Hcb1, Htemp1, Hcb2, Htemp2. subst sblocks' tblocks'.
  assert (read_back (source_temp r)
          = image ++ index_header (get_compression_value c1) 0) as Hsrc.
  { rewrite Htemp1, (write_block_list_bytes c1 _ [] true). cbn.
    rewrite app_nil_r. reflexivity. }
  assert (read_back (target_temp r)
          = image ++ index_header (get_compression_value c1) 0) as Htgt.
  { rewrite Htemp2, (write_block_list_bytes c1 _ [] true). cbn.
    rewrite app_nil_r. reflexivity. }
  rewrite Hsrc, Htgt in Hchild.
  exists c1.
  exists (match built.fork_xdelta3 p
                  (image ++ index_header (get_compression_value c1) 0)
                  (image ++ index_header (get_compression_value c1) 0) with
          | built.fork_failed _ => []
          | built.child_ended _ diff => diff
          end).
  split; [exact Hsrc|]. split; [exact Htgt|].
  destruct (built.fork_xdelta3 p _ _) as [e|status diff];
    destruct Hchild as (Hstatus & ->); split.
  - rewrite (write_block_list_bytes c1 [] [] false).
    cbn [read_back flat_map index_records app List.length Z.of_nat].
    rewrite !app_nil_r. reflexivity.
  - intros Hexit. lia.
  - rewrite read_back_write, (write_block_list_bytes c1 [] [] false).
    cbn [read_back flat_map index_records app List.length Z.of_nat].
    rewrite app_nil_r. reflexivity.
  - intros Hexit. exists status. split; [reflexivity|].
    destruct (Z.eqb_spec (built.WEXITSTATUS status) 0); [assumption|lia].
Qed.

Lemma main_identical_images_witness :
  exists (r : run) (c : Compressor) (diff : list byte),
    @built.main small small_platform
      ["squashdelta"; "file.sqfs"; "file.sqfs"; "out.patch"] = Ret r
    /\ read_back (source_temp r)
       = file_image_bytes x01 ++ index_header (get_compression_value c) 0
    /\ read_back (patch_out r) = index_header (get_compression_value c) 0 ++ diff.
Proof.
  assert ({r : run |
            @built.main small small_platform
              ["squashdelta"; "file.sqfs"; "file.sqfs"; "out.patch"] = Ret r
            /\ exit_status r = 0}) as (r & Hmain & Hexit)
    by (eexists; split; [vm_compute; reflexivity|reflexivity]).
  destruct (@main_identical_images small small_platform _ r (file_image_bytes x01)
              Hmain (or_introl Hexit)
              ltac:(vm_compute; reflexivity) ltac:(vm_compute; reflexivity)
              ltac:(vm_compute; reflexivity) ltac:(reflexivity))
    as (c & diff & Hsrc & _ & Hpatch & _).
  exists r, c, diff. repeat split; assumption.
Defined.


